(** * FloodFill: grid model, flood-fill wave engine, territory generator

    A shallow embedding of [src/core/grid.js] (the grid model, the territory
    generator and, from [getNeighbors] on, the flood-fill module that imports
    them) and of [determineFlipDirection] of [src/utils/gridHelpers.js].

    - JavaScript numbers that take part in arithmetic are IEEE-754 binary64
      values: they are embedded as the kernel's primitive floats, so
      [+ - * / sqrt] round exactly as in JavaScript.  [Math.sin] is only
      "implementation-approximated" in ECMAScript; it is a parameter.
    - Row and column indices, array lengths and loop counters are integers;
      they are embedded as [Z] and converted with [Number_of_Z] wherever the
      source does arithmetic on them.
    - The only operation of the source that can raise is a property read or
      write on [undefined] (a [TypeError]); recursion is bounded by explicit
      fuel.  Both are results of the [outcome] type.
    - [Math.random] is a stream of doubles read through a counter. *)

From Stdlib Require Import ZArith Floats.
From stdpp Require Import base option list gmap strings.

Set Warnings "-inexact-float,-clear-no-such-hyp".
Local Open Scope Z_scope.

(** ** JavaScript numbers *)

Module Number.

(** The double nearest to an integer (ties to even), as a numeric literal
    or an integer-valued expression evaluates. *)
Definition Number_of_Z (z : Z) : float :=
  SF2Prim (binary_normalize prec emax z 0 false).

(** The integer [⌊x⌋] of a finite double; [None] for NaN and infinities. *)
Definition floor_Z (x : float) : option Z :=
  match Prim2SF x with
  | S754_zero _ => Some 0
  | S754_finite s m e =>
      let n := if s then Z.neg m else Z.pos m in
      Some (if 0 <=? e then n * 2 ^ e else n / 2 ^ (- e))
  | S754_nan | S754_infinity _ => None
  end.

(** [Math.floor]: zeros, NaN and infinities are returned as they are. *)
Definition Math_floor (x : float) : float :=
  match Prim2SF x with
  | S754_finite _ _ _ =>
      match floor_Z x with Some z => Number_of_Z z | None => x end
  | _ => x
  end.

Definition Math_abs (x : float) : float := PrimFloat.abs x.

Definition Math_sqrt (x : float) : float := PrimFloat.sqrt x.

(** [Math.max] of two numbers: NaN if either is NaN. *)
Definition Math_max (x y : float) : float :=
  if PrimFloat.is_nan x || PrimFloat.is_nan y then PrimFloat.nan
  else if PrimFloat.ltb x y then y else x.

(** The remainder operator [x % y]: the exact remainder of the truncating
    division, with the sign of the dividend. *)
Definition rem (x y : float) : float :=
  match Prim2SF x, Prim2SF y with
  | S754_nan, _ | _, S754_nan => PrimFloat.nan
  | S754_infinity _, _ => PrimFloat.nan
  | _, S754_zero _ => PrimFloat.nan
  | S754_zero _, _ => x
  | _, S754_infinity _ => x
  | S754_finite sx mx ex, S754_finite _ my ey =>
      let e := Z.min ex ey in
      let r := Z.rem (Z.pos mx * 2 ^ (ex - e)) (Z.pos my * 2 ^ (ey - e)) in
      SF2Prim (binary_normalize prec emax (cond_Zopp sx r) e sx)
  end.

(** [ToLength] of a number used as [{ length: n }]: NaN and negative
    numbers give 0 (lengths past [2^32 - 1], which make [Array.from]
    raise a [RangeError], are outside the model). *)
Definition ToLength (x : float) : nat :=
  match floor_Z x with Some z => Z.to_nat z | None => 0%nat end.

End Number.
Export Number.

(** ** Results of a call *)

Inductive failure : Set :=
| TypeError        (* a property of [undefined] was read or written *)
| StrayWrite       (* an element was assigned outside the array's bounds *)
| NotAnIndex       (* a NaN or an infinity was used as an array index *)
| OutOfFuel.       (* the call depth allowed to the model was exceeded *)

Inductive outcome (A : Type) : Type :=
| Ok (a : A)
| Fail (f : failure).
Arguments Ok {A} a.
Arguments Fail {A} f.

#[global] Instance outcome_ret : MRet outcome := fun A a => Ok a.
#[global] Instance outcome_bind : MBind outcome := fun A B k m =>
  match m with Ok a => k a | Fail f => Fail f end.
#[global] Instance outcome_fmap : FMap outcome := fun A B g m =>
  match m with Ok a => Ok (g a) | Fail f => Fail f end.

(** [array.filter(p)] for a predicate that may raise. *)
Fixpoint filterM {A} (p : A -> outcome bool) (l : list A) : outcome (list A) :=
  match l with
  | [] => Ok []
  | x :: l' =>
      b ← p x;
      rest ← filterM p l';
      Ok (if b : bool then x :: rest else rest)
  end.

(** ** The grid model ([src/core/grid.js]) *)

Abbreviation Color := string (only parsing).
Abbreviation Grid := (list (list Color)) (only parsing).
Abbreviation Position := (Z * Z)%type (only parsing).

(** [a.length] and [a[i]] for an integer [i]: [None] stands for [undefined]. *)
Definition len {A} (a : list A) : Z := Z.of_nat (length a).

Definition js_index {A} (a : list A) (i : Z) : option A :=
  if i <? 0 then None else a !! Z.to_nat i.

(** [grid[row][col]]: reading [[col]] of a missing row raises. *)
Definition index2 {A} (grid : list (list A)) (row col : Z) : outcome (option A) :=
  match js_index grid row with
  | None => Fail TypeError
  | Some gridRow => Ok (js_index gridRow col)
  end.

Definition getGridDimensions (grid : Grid) : Z * Z :=
  let rows := len grid in
  let cols := match grid with
              | row0 :: _ => if 0 <? rows then len row0 else 0
              | [] => 0
              end in
  (rows, cols).

Definition isValidPosition (grid : Grid) (row col : Z) : bool :=
  match grid with
  | [] => false
  | row0 :: _ =>
      let rows := len grid in
      let cols := len row0 in
      (0 <=? row) && (row <? rows) && (0 <=? col) && (col <? cols)
  end.

Definition getCellColor (grid : Grid) (row col : Z) : outcome (option Color) :=
  if negb (isValidPosition grid row col) then Ok None
  else index2 grid row col.

Definition setCellColor (grid : Grid) (row col : Z) (color : Color) : Grid :=
  if negb (isValidPosition grid row col) then grid
  else
    imap (fun r gridRow =>
            if Z.of_nat r =? row
            then imap (fun c cellColor => if Z.of_nat c =? col then color else cellColor)
                      gridRow
            else gridRow)
         grid.

Definition cloneGrid (grid : Grid) : Grid := map (fun row => row ++ []) grid.

(** ** The flood-fill engine ([src/core/grid.js], from [getNeighbors] on) *)

Definition getNeighbors (totalRows totalCols row col : Z) : list Position :=
  let directions := [ (row - 1, col); (row + 1, col); (row, col - 1); (row, col + 1) ] in
  filter (fun '(r, c) => (0 <= r /\ r < totalRows) /\ (0 <= c /\ c < totalCols)) directions.

(** The key ["row,col"] of a visited set determines the integer pair and is
    determined by it: the set of keys is a set of pairs. *)
Definition createPositionKey (row col : Z) : Position := (row, col).

Definition shouldProcessCell (grid : Grid) (row col : Z) (originalColor : option Color)
  : outcome bool :=
  cellColor ← getCellColor grid row col;
  Ok (bool_decide (cellColor = originalColor)).

Definition processCellsAtLevel (grid : Grid) (cells : list Position) (targetColor : Color)
  : Grid :=
  foldl (fun currentGrid '(r, c) => setCellColor currentGrid r c targetColor) grid cells.

Definition getUnvisitedNeighbors (rows cols row col : Z) (visited : gset Position)
  : list Position :=
  let neighbors := getNeighbors rows cols row col in
  filter (fun '(nr, nc) => createPositionKey nr nc ∉ visited)
         (map (fun '(nr, nc) => (nr, nc)) neighbors).

(** The callback of the [flatMap] of [floodFillRecursive]: it reads and
    extends the one shared [visited] set, so the set is threaded through the
    cells in order, next to the concatenated result. *)
Definition visitNeighbors (rows cols : Z) (acc : list Position * gset Position)
    (cell : Position) : list Position * gset Position :=
  let '(nextLevel, visited) := acc in
  let '(r, c) := cell in
  let neighbors := getUnvisitedNeighbors rows cols r c visited in
  (nextLevel ++ neighbors,
   foldl (fun visited '(nr, nc) => visited ∪ {[ createPositionKey nr nc ]})
         visited neighbors).

Definition collectNextLevel (rows cols : Z) (cellsToProcess : list Position)
    (visited : gset Position) : list Position * gset Position :=
  foldl (visitNeighbors rows cols) ([], visited) cellsToProcess.

Fixpoint floodFillRecursive (fuel : nat) (grid : Grid) (currentLevel : list Position)
    (originalColor : option Color) (targetColor : Color) (visited : gset Position)
    (rows cols : Z) (snapshots : list Grid) : outcome (list Grid) :=
  match fuel with
  | O => Fail OutOfFuel
  | S fuel' =>
      if bool_decide (currentLevel = []) then Ok snapshots
      else
        cellsToProcess ←
          filterM (fun '(r, c) => shouldProcessCell grid r c originalColor) currentLevel;
        if bool_decide (cellsToProcess = []) then Ok snapshots
        else
          let newGrid := processCellsAtLevel grid cellsToProcess targetColor in
          let newSnapshots := snapshots ++ [cloneGrid newGrid] in
          let '(nextLevel, visited') :=
            collectNextLevel rows cols cellsToProcess visited in
          floodFillRecursive fuel' newGrid nextLevel originalColor targetColor
                             visited' rows cols newSnapshots
  end.

(** [fuel] bounds the depth of the recursion of [floodFillRecursive]. *)
Definition floodFill (fuel : nat) (grid : Grid) (row col : Z) (targetColor : Color)
  : outcome (list Grid) :=
  if negb (isValidPosition grid row col) then Ok [cloneGrid grid]
  else
    originalColor ← getCellColor grid row col;
    if bool_decide (originalColor = Some targetColor) then Ok [cloneGrid grid]
    else
      let '(rows, cols) := getGridDimensions grid in
      let initialSnapshots := [cloneGrid grid] in
      let visited : gset Position := {[ createPositionKey row col ]} in
      let startingLevel := [ (row, col) ] in
      floodFillRecursive fuel grid startingLevel originalColor targetColor
                         visited rows cols initialSnapshots.

(** The number of cells of a grid, measured as [floodFill] measures it. *)
Definition area (grid : Grid) : nat :=
  let '(rows, cols) := getGridDimensions grid in Z.to_nat (rows * cols).

(** ** The territory generator ([src/core/grid.js]) *)

Definition CYBERPUNK_PALETTE : list Color :=
  [ "#FF006E"; "#FB5607"; "#FFBE0B"; "#8338EC"; "#3A86FF";
    "#06FFA5"; "#00D9FF"; "#FF10F0"; "#00F5FF" ].

(** A cell of a grid under construction: [null] until it is filled; a read of
    the palette or of a row past its end gives [undefined]. *)
Inductive cell : Set :=
| null
| undefined
| hex (c : Color).

#[global] Instance cell_eq_dec : EqDecision cell.
Proof. solve_decision. Defined.

Abbreviation GenGrid := (list (list cell)) (only parsing).

Definition from_read (v : option cell) : cell := default undefined v.

(** Truthiness, for [a || b]. *)
Definition truthy (v : cell) : bool :=
  match v with
  | null | undefined => false
  | hex c => negb (bool_decide (c = ""))
  end.

(** [grid[r][c] = v].  A write to a missing row raises; the model stops at a
    write outside the row's bounds. *)
Definition write2 (grid : GenGrid) (r c : Z) (v : cell) : outcome GenGrid :=
  match js_index grid r with
  | None => Fail TypeError
  | Some gridRow =>
      if (0 <=? c) && (c <? len gridRow)
      then Ok (<[Z.to_nat r := <[Z.to_nat c := v]> gridRow]> grid)
      else Fail StrayWrite
  end.

(** [set.add(x)] on a [Set] iterated in insertion order. *)
Definition set_add (x : Position) (s : list Position) : list Position :=
  if decide (x ∈ s) then s else s ++ [x].

Fixpoint foldM `{MBind M, MRet M} {A B} (f : A -> B -> M A) (a : A) (l : list B) : M A :=
  match l with
  | [] => mret a
  | x :: l' => a' ← f a x; foldM f a' l'
  end.

Record Territory := mkTerritory {
  color : cell;
  cells : list Position;
  frontier : list Position
}.

(** Computations that draw from [Math.random] and may fail: the state is
    the number of draws made so far. *)
Definition Rand (A : Type) : Type := nat -> outcome (A * nat).

#[global] Instance Rand_ret : MRet Rand := fun A a n => Ok (a, n).
#[global] Instance Rand_bind : MBind Rand := fun A B k m n =>
  match m n with Ok (a, n') => k a n' | Fail f => Fail f end.

Definition lift {A} (o : outcome A) : Rand A := fun n =>
  match o with Ok a => Ok (a, n) | Fail f => Fail f end.

(** [array.filter(p)] for a predicate that draws random numbers. *)
Fixpoint filterR {A} (p : A -> Rand bool) (l : list A) : Rand (list A) :=
  match l with
  | [] => mret []
  | x :: l' =>
      b ← p x;
      rest ← filterR p l';
      mret (if b : bool then x :: rest else rest)
  end.

(** [array.map((x, i) => ...)] for a callback that draws random numbers. *)
Fixpoint imapR {A B} (f : nat -> A -> Rand B) (l : list A) : Rand (list B) :=
  match l with
  | [] => mret []
  | x :: l' => y ← f O x; k ← imapR (fun i => f (S i)) l'; mret (y :: k)
  end.

Section Generator.

(** [Math.sin], and the successive results of [Math.random()]. *)
Variable Math_sin : float -> float.
Variable Math_random : nat -> float.

Definition random : Rand float := fun n => Ok (Math_random n, S n).

Definition simplex (x y : float) : float :=
  (Math_sin (x * 12.9898 + y * 78.233) * Math_sin (x * 39.346 + y * 14.234)
   * 43758.5453)%float.

Definition perlinNoise (x y scale : float) : float :=
  let xi := Math_floor (x / scale) in
  let yi := Math_floor (y / scale) in
  let n00 := simplex xi yi in
  let n10 := simplex (xi + 1) yi in
  let n01 := simplex xi (yi + 1) in
  let n11 := simplex (xi + 1) (yi + 1) in
  let u := (rem x scale / scale)%float in
  let v := (rem y scale / scale)%float in
  let uu := (u * u * (3 - 2 * u))%float in
  let vv := (v * v * (3 - 2 * v))%float in
  let n0 := (n00 * (1 - uu) + n10 * uu)%float in
  let n1 := (n01 * (1 - uu) + n11 * uu)%float in
  rem (n0 * (1 - vv) + n1 * vv) 1.

(** An index [Math.floor(Math.random() * n)]. *)
Definition randomIndex (n : Z) : Rand Z :=
  u ← random;
  match floor_Z (u * Number_of_Z n) with
  | Some i => mret i
  | None => lift (Fail NotAnIndex)
  end.

Definition randomCyberpunkColor : Rand cell :=
  u ← random;
  mret match floor_Z (u * Number_of_Z (len CYBERPUNK_PALETTE)) with
       | Some i => from_read (hex <$> js_index CYBERPUNK_PALETTE i)
       | None => undefined
       end.

Definition calculateTerritoryCount (rows cols organicness : float) : float :=
  let baseNumTerritories := (rows * cols)%float in
  let minTerritories := Math_max 2 (Math_floor (Math_sqrt (rows * cols) / 2)) in
  Math_floor
    (minTerritories
     + (baseNumTerritories - minTerritories) * ((100 - organicness) / 100))%float.

Definition createTerritorySeeds (numTerritories : nat) (rows cols : Z)
  : Rand (list Territory) :=
  mapM (fun _ : nat =>
          startRow ← randomIndex rows;
          startCol ← randomIndex cols;
          color ← randomCyberpunkColor;
          mret {| color := color;
                  cells := [ (startRow, startCol) ];
                  frontier := set_add (startRow, startCol) [] |})
       (seq 0 numTerritories).

Definition calculateGrowthProbability (row col seed organicness : float) : float :=
  let noise := Math_abs (perlinNoise (row + seed) (col + seed) 2) in
  let baseGrowth := (0.3 + noise * 0.4)%float in
  (baseGrowth + (organicness / 100) * 0.4)%float.

Definition getUnfilledNeighbors (grid : GenGrid) (rows cols r c : Z)
  : outcome (list Position) :=
  let neighbors := [ (r - 1, c); (r + 1, c); (r, c - 1); (r, c + 1) ] in
  filterM (fun '(nr, nc) =>
             if (0 <=? nr) && (nr <? rows) && (0 <=? nc) && (nc <? cols)
             then v ← index2 grid nr nc; Ok (bool_decide (from_read v = null))
             else Ok false)
          neighbors.

Definition growFromCell (grid : GenGrid) (cellStr : Position) (rows cols : Z)
    (seed : float) (organicness : Z) : Rand (list Position) :=
  let '(r, c) := cellStr in
  neighbors ← lift (getUnfilledNeighbors grid rows cols r c);
  filterR (fun '(nr, nc) =>
             let growthChance :=
               calculateGrowthProbability (Number_of_Z nr) (Number_of_Z nc) seed
                                          (Number_of_Z organicness) in
             u ← random;
             mret (PrimFloat.ltb u growthChance))
          neighbors.

(** One territory of [growTerritoriesIteration]: [newGrid] and
    [activeCount] are the variables the callback shares. *)
Definition growTerritory (rows cols : Z) (seed : float) (organicness : Z)
    (st : GenGrid * nat) (territory : Territory) : Rand ((GenGrid * nat) * Territory) :=
  let '(newGrid, activeCount) := st in
  '(newGrid, newCells, newFrontier) ←
    foldM (fun '(newGrid, newCells, newFrontier) cellStr =>
             grownCells ← growFromCell newGrid cellStr rows cols seed organicness;
             lift (foldM (fun '(newGrid, newCells, newFrontier) '(nr, nc) =>
                            newGrid ← write2 newGrid nr nc (color territory);
                            Ok (newGrid, newCells ++ [ (nr, nc) ],
                                set_add (nr, nc) newFrontier))
                         (newGrid, newCells, newFrontier) grownCells))
          (newGrid, cells territory ++ [], [])
          (frontier territory);
  let activeCount :=
    if (0 <? len newFrontier) then S activeCount else activeCount in
  mret ((newGrid, activeCount),
        {| color := color territory; cells := newCells; frontier := newFrontier |}).

Definition growTerritoriesIteration (grid : GenGrid) (territories : list Territory)
    (rows cols : Z) (seed : float) (organicness : Z)
  : Rand (GenGrid * list Territory * nat) :=
  let newGrid := map (fun row => row ++ []) grid in
  '(newGrid, activeCount, newTerritories) ←
    foldM (fun '(newGrid, activeCount, newTerritories) territory =>
             '(st, territory') ←
               growTerritory rows cols seed organicness (newGrid, activeCount) territory;
             mret (st, newTerritories ++ [territory']))
          (newGrid, O, []) territories;
  mret (newGrid, newTerritories, activeCount).

(** The offsets [(dr, dc)] in the order the two nested loops visit them. *)
Definition offsets : list (Z * Z) :=
  dr ← [-2; -1; 0; 1; 2]; dc ← [-2; -1; 0; 1; 2]; [ (dr, dc) ].

(** [minDist] starts at [Infinity]: [None]. *)
Definition findClosestColoredNeighbor (grid : GenGrid) (row col rows cols : Z)
  : outcome cell :=
  '(closest, _) ←
    foldM (fun '(closest, minDist) '(dr, dc) =>
             let nr := row + dr in
             let nc := col + dc in
             if (0 <=? nr) && (nr <? rows) && (0 <=? nc) && (nc <? cols)
             then
               v ← index2 grid nr nc;
               if bool_decide (from_read v ≠ null)
               then
                 let dist := Z.abs dr + Z.abs dc in
                 if match minDist with Some d => dist <? d | None => true end
                 then Ok (from_read v, Some dist)
                 else Ok (closest, minDist)
               else Ok (closest, minDist)
             else Ok (closest, minDist))
          (null, None) offsets;
  Ok closest.

Definition fillRemainingCells (grid : GenGrid) (rows cols : Z) : Rand GenGrid :=
  imapR (fun r row =>
           imapR (fun c cell =>
                    if bool_decide (cell ≠ null) then mret cell
                    else
                      closest ← lift (findClosestColoredNeighbor
                                        grid (Z.of_nat r) (Z.of_nat c) rows cols);
                      if truthy closest then mret closest
                      else randomCyberpunkColor)
                 row)
        grid.

(** The loop [for (iteration = 0; iteration < maxIterations && activeCount > 0;
    iteration++)], by recursion on the iterations that remain. *)
Fixpoint growLoop (remaining : nat) (grid : GenGrid) (territories : list Territory)
    (activeCount : nat) (rows cols : Z) (seed : float) (organicness : Z)
  : Rand GenGrid :=
  match remaining with
  | O => mret grid
  | S remaining' =>
      if (0 <? activeCount)%nat
      then
        '(grid', territories', activeCount') ←
          growTerritoriesIteration grid territories rows cols seed organicness;
        growLoop remaining' grid' territories' activeCount' rows cols seed organicness
      else mret grid
  end.

Definition generateGridWithZones (rows cols organicness : Z) : Rand GenGrid :=
  if bool_decide (rows <= 0 \/ cols <= 0) then mret []
  else
    u ← random;
    let seed := (u * 10000)%float in
    let grid : GenGrid := replicate (Z.to_nat rows) (replicate (Z.to_nat cols) null) in
    if bool_decide (organicness = 0)
    then mapM (fun row => mapM (fun _ : cell => randomCyberpunkColor) row) grid
    else
      let numTerritories :=
        calculateTerritoryCount (Number_of_Z rows) (Number_of_Z cols)
                                (Number_of_Z organicness) in
      territories ← createTerritorySeeds (ToLength numTerritories) rows cols;
      grid ← lift (foldM (fun grid territory =>
                            match cells territory with
                            | (startRow, startCol) :: _ =>
                                write2 grid startRow startCol (color territory)
                            | [] => Fail TypeError
                            end)
                         grid territories);
      let maxIterations := rows * cols in
      let activeCount := length territories in
      grid ← growLoop (Z.to_nat maxIterations) grid territories activeCount
                      rows cols seed organicness;
      fillRemainingCells grid rows cols.

Definition generateGrid (rows cols : Z) : Rand GenGrid :=
  if bool_decide (rows <= 0 \/ cols <= 0) then mret []
  else
    mapM (fun _ : nat => mapM (fun _ : nat => randomCyberpunkColor)
                              (seq 0 (Z.to_nat cols)))
         (seq 0 (Z.to_nat rows)).

End Generator.

(** ** Helpers of the animation layer ([src/utils/gridHelpers.js]) *)

Inductive direction : Set := Up | Down | Left | Right | Center.

(** The arguments are integers, so [Math.floor(n / 2)] is the floored
    quotient. *)
Definition determineFlipDirection (row col totalRows totalCols : Z) : direction :=
  let gridCenterRow := totalRows / 2 in
  let gridCenterCol := totalCols / 2 in
  if row <? gridCenterRow then Up
  else if row >? gridCenterRow then Down
  else if col <? gridCenterCol then Left
  else if col >? gridCenterCol then Right
  else Center.

(** [calculateGridDimensions]: the pair [(rows, cols)] of the object it
    returns. *)
Definition calculateGridDimensions (availableWidth availableHeight cellSize : float)
  : float * float :=
  let cols := Math_max 1 (Math_floor (availableWidth / cellSize)) in
  let rows := Math_max 1 (Math_floor (availableHeight / cellSize)) in
  (rows, cols).

(** [createDisplayGrid]: the two [forEach] loops write into the one copy
    [display] of the base grid; the indices of a [forEach] are those of the
    array it runs over. *)
Definition createDisplayGrid (baseGrid snapshot : Grid) : Grid :=
  let display := map (fun row => row ++ []) baseGrid in
  foldl (fun display '(r, row) =>
           foldl (fun display '(c, cell) =>
                    match display !! r with
                    | Some displayRow =>
                        match displayRow !! c with
                        | Some _ => <[r := <[c := cell]> displayRow]> display
                        | None => display
                        end
                    | None => display
                    end)
                 display (imap pair row))
        display (imap pair snapshot).

Definition mergeGrids (baseGrid snapshot : Grid) : Grid :=
  createDisplayGrid baseGrid snapshot.

(** ** Observations used in the statements *)

(** The colour stored at a position, [None] outside the grid. *)
Definition cellAt (grid : Grid) (p : Position) : option Color :=
  gridRow ← js_index grid p.1; js_index gridRow p.2.

(** A position inside the [rows] by [cols] rectangle. *)
Definition inBounds (rows cols : Z) (p : Position) : Prop :=
  (0 <= p.1 /\ p.1 < rows) /\ (0 <= p.2 /\ p.2 < cols).

(** What [getCellColor] reads: [undefined] outside the valid positions. *)
Definition currentColor (grid : Grid) (p : Position) : option Color :=
  if isValidPosition grid p.1 p.2 then cellAt grid p else None.

(** The positions of the [rows] by [cols] rectangle, and how many of them a
    visited set has not reached. *)
Definition allPositions (rows cols : Z) : list Position :=
  r ← seqZ 0 rows; (fun c => (r, c)) <$> seqZ 0 cols.

Definition unvisited (rows cols : Z) (visited : gset Position) : nat :=
  size (list_to_set (allPositions rows cols) ∖ visited : gset Position).

(** The grid invariant of the data model: all rows have the length of the
    first one. *)
Definition rectangular (grid : Grid) : Prop :=
  Forall (fun gridRow => len gridRow = (getGridDimensions grid).2) grid.

#[global] Instance rectangular_dec grid : Decision (rectangular grid).
Proof. unfold rectangular. apply _. Defined.

(** Cells that are side by side. *)
Definition adjacent (p q : Position) : Prop :=
  Z.abs (p.1 - q.1) + Z.abs (p.2 - q.2) = 1.

(** [connected grid c p q]: [q] is reached from [p] through side-by-side
    cells of colour [c], [p] included. *)
Inductive connected (grid : Grid) (c : Color) (p : Position) : Position -> Prop :=
| connected_start : cellAt grid p = Some c -> connected grid c p p
| connected_step q r :
    connected grid c p q -> adjacent q r -> cellAt grid r = Some c ->
    connected grid c p r.

(** The cells of a snapshot that differ from the grid before the fill. *)
Definition differs (g snapshot : Grid) (p : Position) : Prop :=
  cellAt snapshot p <> cellAt g p.

(** The fuel a call of [floodFillRecursive] needs: one call per level that
    visits fresh cells, and one more to find the last level empty. *)
Definition callsNeeded (rows cols : Z) (visited : gset Position)
    (level : list Position) : nat :=
  (unvisited rows cols visited + match level with [] => 1 | _ => 2 end)%nat.

(** A snapshot [s'] extends a snapshot [s]: every cell repainted in [s] is
    repainted in [s'], and some cell is repainted in [s'] only. *)
Definition grows (g s s' : Grid) : Prop :=
  (forall p, differs g s p -> differs g s' p) /\
  (exists p, differs g s' p /\ ~ differs g s p).

(** Every repainted cell of a snapshot has the target colour. *)
Definition uniform (g : Grid) (t : Color) (s : Grid) : Prop :=
  forall p, differs g s p -> cellAt s p = Some t.

(** The snapshots of a fill of [g] with [t]: the first is [g], each one
    extends the one before it, and all are uniform. *)
Definition wave (g : Grid) (t : Color) (snapshots : list Grid) : Prop :=
  head snapshots = Some g /\
  (forall i s s', snapshots !! i = Some s -> snapshots !! S i = Some s' -> grows g s s') /\
  Forall (uniform g t) snapshots.

(** What holds between two levels of a fill of [g0] that started on [start],
    of colour [o], with target [t]: [G] is the current grid, [L] the level
    about to be processed, [V] the visited set. *)
Record level_inv (g0 : Grid) (o t : Color) (start : Position) (rows cols : Z)
    (G : Grid) (L : list Position) (V : gset Position) (snapshots : list Grid) : Prop := {
  inv_dims : getGridDimensions G = (rows, cols);
  inv_rect : rectangular G;
  inv_cells : forall p,
    cellAt G p = cellAt g0 p \/
    (cellAt G p = Some t /\ cellAt g0 p = Some o /\ connected g0 o start p /\
     p ∈ V /\ p ∉ L);
  inv_level : forall p, p ∈ L ->
    p ∈ V /\ inBounds rows cols p /\ (cellAt g0 p = Some o -> connected g0 o start p);
  inv_visited : forall p, p ∈ V -> p ∉ L -> cellAt g0 p = Some o -> cellAt G p = Some t;
  inv_closed : forall p q,
    cellAt G p = Some t -> cellAt g0 p = Some o -> adjacent p q ->
    inBounds rows cols q -> q ∈ V;
  inv_start : start ∈ V;
  inv_last : last snapshots = Some G;
  inv_wave : wave g0 t snapshots
}.

(** What the fill returns: the last snapshot repaints the region of the
    start cell and nothing else. *)
Definition filled (g0 : Grid) (o t : Color) (start : Position)
    (snapshots : list Grid) : Prop :=
  wave g0 t snapshots /\
  exists final, last snapshots = Some final /\
    (forall p, connected g0 o start p -> cellAt final p = Some t) /\
    (forall p, differs g0 final p -> connected g0 o start p).

(** A draw [u] of [Math.random] for which [Math.floor(u * n)] is an index
    below [n], as it is for every double [0 <= u < 1]. *)
Definition unitDraw (n : Z) (u : float) : Prop :=
  match floor_Z (u * Number_of_Z n) with
  | Some i => 0 <= i < n
  | None => False
  end.

(** Every draw of the random source gives an index for the three lengths
    the generator indexes: the rows, the columns and the palette. *)
Definition randomContract (Math_random : nat -> float) (rows cols : Z) : Prop :=
  forall i, unitDraw rows (Math_random i) /\ unitDraw cols (Math_random i) /\
            unitDraw (len CYBERPUNK_PALETTE) (Math_random i).

(** The contract of [Math.random]: every draw is a double [0 <= u < 1]. *)
Definition unitSource (Math_random : nat -> float) : Prop :=
  forall i, (0 <=? Math_random i)%float = true /\
            (Math_random i <? 1)%float = true.

(** A cell that holds a colour of the palette. *)
Definition isColor (v : cell) : Prop :=
  exists c, v = hex c /\ c ∈ CYBERPUNK_PALETTE.

Definition nullOrColor (v : cell) : Prop := v = null \/ isColor v.

(** A grid of [rows] rows of [cols] cells. *)
Definition shaped {A} (rows cols : Z) (grid : list (list A)) : Prop :=
  len grid = rows /\ Forall (fun gridRow => len gridRow = cols) grid.

(** The cells filled so far hold colours of the palette. *)
Definition painted (grid : GenGrid) : Prop := Forall (Forall nullOrColor) grid.

(** A seed: a palette colour and a first cell inside the grid. *)
Definition seeded (rows cols : Z) (territory : Territory) : Prop :=
  isColor (color territory) /\
  exists p rest, cells territory = p :: rest /\ inBounds rows cols p.

(** A computation that returns, from every state of the random source, a
    value that satisfies [P]; and one without random draws. *)
Definition succeeds {A} (m : Rand A) (P : A -> Prop) : Prop :=
  forall n, exists a n', m n = Ok (a, n') /\ P a.

Definition okWith {A} (o : outcome A) (P : A -> Prop) : Prop :=
  exists a, o = Ok a /\ P a.

#[global] Instance unitDraw_dec n u : Decision (unitDraw n u).
Proof. unfold unitDraw. destruct (floor_Z _); apply _. Defined.

(** The territory count as the specification words it, in exact arithmetic:
    [⌊m + (rows·cols − m)·(100 − organicness)/100⌋] with
    [m = max(2, ⌊√(rows·cols)/2⌋)]. *)
Definition territoryCountExact (rows cols organicness : Z) : Z :=
  let m := Z.max 2 (Z.sqrt (rows * cols) / 2) in
  (100 * m + (rows * cols - m) * (100 - organicness)) / 100.

(** The territory count the code computes for integer arguments. *)
Definition territoryCount (rows cols organicness : Z) : option Z :=
  floor_Z (calculateTerritoryCount (Number_of_Z rows) (Number_of_Z cols)
                                   (Number_of_Z organicness)).

(** The lengths of the rows of a grid. *)
Definition shape {A} (grid : list (list A)) : list nat := length <$> grid.

(** The base grid with the cells a snapshot holds laid over it. *)
Definition overlay (baseGrid snapshot : Grid) : Grid :=
  imap (fun r baseRow =>
          imap (fun c x => default x (snapshot !! r ≫= fun row => row !! c)) baseRow)
       baseGrid.

(** [connectedWithin grid c p n q]: [q] is reached from [p] through
    side-by-side cells of colour [c] in [n] steps at most. *)
Inductive connectedWithin (grid : Grid) (c : Color) (p : Position)
  : nat -> Position -> Prop :=
| within_start n : cellAt grid p = Some c -> connectedWithin grid c p n p
| within_step n q r :
    connectedWithin grid c p n q -> adjacent q r -> cellAt grid r = Some c ->
    connectedWithin grid c p (S n) r.

(** What holds of the snapshots taken so far: the one after [j + 1] levels
    repaints the cells within [j] steps of the start cell. *)
Definition layered (g : Grid) (o : Color) (start : Position)
    (snapshots : list Grid) : Prop :=
  forall j s, snapshots !! S j = Some s ->
              forall p, differs g s p <-> connectedWithin g o start j p.

(** What holds before level [k] of a fill: next to [level_inv], the visited
    cells of colour [o] are those within [k] steps of the start cell. *)
Record layer_inv (g0 : Grid) (o t : Color) (start : Position) (rows cols : Z)
    (k : nat) (G : Grid) (L : list Position) (V : gset Position)
    (snapshots : list Grid) : Prop := {
  lay_level : level_inv g0 o t start rows cols G L V snapshots;
  lay_visited : forall p, cellAt g0 p = Some o ->
                          (p ∈ V <-> connectedWithin g0 o start k p);
  lay_length : length snapshots = S k;
  lay_snapshots : layered g0 o start snapshots
}.

(** The cell stored at a position of a grid under construction. *)
Definition cellOf {A} (grid : list (list A)) (p : Position) : option A :=
  gridRow ← js_index grid p.1; js_index gridRow p.2.

(** The colour a draw selects: [CYBERPUNK_PALETTE[Math.floor(u * 9)]]. *)
Definition paletteDraw (u : float) : cell :=
  match floor_Z (u * Number_of_Z (len CYBERPUNK_PALETTE)) with
  | Some i => from_read (hex <$> js_index CYBERPUNK_PALETTE i)
  | None => undefined
  end.

(** [grid'] keeps the cells of [grid] that are filled. *)
Definition keepsFilled (grid grid' : GenGrid) : Prop :=
  forall p v, cellOf grid p = Some v -> v <> null -> cellOf grid' p = Some v.

(** What the scan of the window has found among the offsets [seen]. *)
Definition closestAmong (rows cols : Z) (grid : list (list cell)) (row col : Z)
    (seen : list (Z * Z))
    (st : cell * option Z) : Prop :=
  match st.2 with
  | None =>
      st.1 = null /\
      forall dr dc, (dr, dc) ∈ seen -> inBounds rows cols (row + dr, col + dc) ->
                    cellOf grid (row + dr, col + dc) = Some null
  | Some d =>
      st.1 <> null /\
      exists dr dc,
        (dr, dc) ∈ seen /\ inBounds rows cols (row + dr, col + dc) /\
        cellOf grid (row + dr, col + dc) = Some st.1 /\
        Z.abs dr + Z.abs dc = d /\
        forall dr' dc', (dr', dc') ∈ seen ->
                        inBounds rows cols (row + dr', col + dc') ->
                        cellOf grid (row + dr', col + dc') <> Some null ->
                        d <= Z.abs dr' + Z.abs dc'
  end.

(** What one iteration makes of a territory [T]: the same colour, the cells
    it had followed by its new frontier, which lists once each cell it grew
    into; these were [null] in [grid] and hold its colour in [grid']. *)
Definition grownFrom (rows cols : Z) (grid grid' : GenGrid) (T T' : Territory) : Prop :=
  color T' = color T /\
  cells T' = cells T ++ frontier T' /\
  NoDup (frontier T') /\
  Forall (fun q => inBounds rows cols q /\ cellOf grid q = Some null /\
                   cellOf grid' q = Some (color T))
         (frontier T').

(** ** Sample inputs *)

(** A random source that cycles through seven doubles of the unit interval. *)
Definition sampleRandom (i : nat) : float :=
  nth (i mod 7) [0.5; 0.1; 0.93; 0.3; 0.71; 0.02; 0.64]%float 0.5%float.

(** The doubles nearest to the sine of the eight arguments that
    [perlinNoise(2, 0, 2)] passes to [Math.sin] (the lattice points [(1, 0)],
    [(2, 0)], [(1, 1)] and [(2, 1)]), zero elsewhere. *)
Definition sineTable (x : float) : float :=
  if PrimFloat.eqb x 0x1.9fac710cb295fp+3 then 0x1.a4c02fbd63fa9p-2
  else if PrimFloat.eqb x 0x1.3ac49ba5e353fp+5 then 0x1.fe84bb570b730p-1
  else if PrimFloat.eqb x 0x1.9fac710cb295fp+4 then 0x1.7f979b5ee1febp-1
  else if PrimFloat.eqb x 0x1.3ac49ba5e353fp+6 then (-0x1.36787172273b8p-3)
  else if PrimFloat.eqb x 0x1.6ce425aee6320p+6 then (-0x1.dc90b2068484ep-4)
  else if PrimFloat.eqb x 0x1.aca3d70a3d70ap+5 then (-0x1.606345c3a795ap-3)
  else if PrimFloat.eqb x 0x1.a0d9b3d07c84cp+6 then (-0x1.07419a54eaa66p-1)
  else if PrimFloat.eqb x 0x1.73b4395810624p+6 then (-0x1.f0351cf4bd647p-1)
  else 0.



(** * Properties *)

(** ** Scenarios of the specification *)

Example scenario_1 :
  floodFill 2 [["#FF0000"]] 0 0 "#0000FF" = Ok [[["#FF0000"]]; [["#0000FF"]]].
Proof. vm_compute. reflexivity. Qed.

Example scenario_2 :
  last <$> floodFill 4 [["#FF0000"; "#FF0000"; "#00FF00"]] 0 0 "#0000FF"
  = Ok (Some [["#0000FF"; "#0000FF"; "#00FF00"]]).
Proof. vm_compute. reflexivity. Qed.

Example scenario_3 :
  last <$> floodFill 10 [["G"; "R"; "G"]; ["R"; "R"; "R"]; ["G"; "R"; "G"]] 1 1 "B"
  = Ok (Some [["G"; "B"; "G"]; ["B"; "B"; "B"]; ["G"; "B"; "G"]]).
Proof. vm_compute. reflexivity. Qed.

Example scenario_4 : floodFill 0 [["#FF0000"]] 5 5 "#0000FF" = Ok [[["#FF0000"]]].
Proof. reflexivity. Qed.

Example scenario_5 : floodFill 0 [] 3 7 "#0000FF" = Ok [[]].
Proof. reflexivity. Qed.

(** A grid with a row shorter than the first is outside the data model: the
    start cell [(1, 1)] is valid but holds nothing, the level repaints
    nothing, and the snapshot is repeated. *)
Example jagged_grid_repeats_snapshot :
  floodFill 5 [["R"; "R"]; ["R"]] 1 1 "B"
  = Ok [[["R"; "R"]; ["R"]]; [["R"; "R"]; ["R"]]].
Proof. vm_compute. reflexivity. Qed.

(** ** The grid model *)

Section GridModel.

Implicit Types (grid g : Grid) (row col r c : Z) (p q : Position).

Lemma js_index_Some {A} (a : list A) i x :
  js_index a i = Some x <-> 0 <= i /\ a !! Z.to_nat i = Some x.
Proof.
  unfold js_index. destruct (Z.ltb_spec i 0); split.
  - discriminate.
  - lia.
  - auto.
  - tauto.
Qed.

Lemma js_index_is_Some {A} (a : list A) i :
  is_Some (js_index a i) <-> 0 <= i < len a.
Proof.
  unfold is_Some, len. setoid_rewrite js_index_Some. split.
  - intros (x & ? & Hx). apply lookup_lt_Some in Hx. lia.
  - intros [? ?]. destruct (lookup_lt_is_Some_2 a (Z.to_nat i)) as [x Hx]; [lia|eauto].
Qed.

Lemma js_index_None {A} (a : list A) i :
  js_index a i = None <-> ~ (0 <= i < len a).
Proof. rewrite <- js_index_is_Some, eq_None_not_Some. tauto. Qed.

Lemma cloneGrid_id g : cloneGrid g = g.
Proof.
  unfold cloneGrid. induction g as [|gridRow g IH]; simpl; [done|].
  by rewrite app_nil_r, IH.
Qed.

Lemma isValidPosition_true g row col :
  isValidPosition g row col = true <->
  (0 <= row < (getGridDimensions g).1) /\ (0 <= col < (getGridDimensions g).2).
Proof.
  unfold isValidPosition, getGridDimensions. destruct g as [|row0 g]; simpl.
  - unfold len; simpl. split; [discriminate | lia].
  - rewrite !andb_true_iff, !Z.leb_le, !Z.ltb_lt.
    destruct (Z.ltb_spec 0 (len (row0 :: g))) as [_|Hle].
    + tauto.
    + unfold len in Hle; simpl in Hle. lia.
Qed.

Lemma isValidPosition_false g row col :
  isValidPosition g row col = false <->
  ~ ((0 <= row < (getGridDimensions g).1) /\ (0 <= col < (getGridDimensions g).2)).
Proof. rewrite <- isValidPosition_true. by destruct (isValidPosition g row col). Qed.

Lemma rectangular_row g gridRow i :
  rectangular g -> js_index g i = Some gridRow ->
  len gridRow = (getGridDimensions g).2.
Proof.
  intros Hrect [_ Hi]%js_index_Some.
  unfold rectangular in Hrect. rewrite Forall_lookup in Hrect. eauto.
Qed.

(** In a rectangular grid the stored cells are the valid positions. *)
Lemma cellAt_is_Some g row col :
  rectangular g ->
  is_Some (cellAt g (row, col)) <-> isValidPosition g row col = true.
Proof.
  intros Hrect. rewrite isValidPosition_true. unfold cellAt; simpl.
  destruct (js_index g row) as [gridRow|] eqn:Hrow; simpl.
  - rewrite js_index_is_Some, (rectangular_row _ _ _ Hrect Hrow).
    assert (is_Some (js_index g row)) as Hin by eauto.
    apply js_index_is_Some in Hin. unfold getGridDimensions; simpl. tauto.
  - apply js_index_None in Hrow. unfold getGridDimensions; simpl.
    split; [by intros [? ?] | tauto].
Qed.

(** A read guarded by [isValidPosition] never raises. *)
Lemma getCellColor_cellAt g row col :
  getCellColor g row col =
  Ok (if isValidPosition g row col then cellAt g (row, col) else None).
Proof.
  unfold getCellColor, index2, cellAt; simpl.
  destruct (isValidPosition g row col) eqn:Hvalid; simpl; [|done].
  apply isValidPosition_true in Hvalid as [Hrow _].
  destruct (js_index g row) eqn:Hnone; simpl; [done|].
  apply js_index_None in Hnone. unfold getGridDimensions in Hrow; simpl in Hrow. lia.
Qed.

Lemma setCellColor_invalid g row col x :
  isValidPosition g row col = false -> setCellColor g row col x = g.
Proof. unfold setCellColor. by intros ->. Qed.

Lemma cellAt_setCellColor g row col x p :
  isValidPosition g row col = true ->
  cellAt (setCellColor g row col x) p =
  if decide (p = (row, col)) then (fun _ => x) <$> cellAt g p else cellAt g p.
Proof.
  intros Hvalid. unfold setCellColor. rewrite Hvalid; simpl.
  destruct p as [r c]. unfold cellAt, js_index; simpl.
  destruct (Z.ltb_spec r 0) as [Hr|Hr]; [by destruct (decide _)|].
  rewrite list_lookup_imap, Z2Nat.id by done.
  destruct (g !! Z.to_nat r) as [gridRow|]; [|by destruct (decide _)].
  destruct (decide ((r, c) = (row, col))) as [[= -> ->]|Hne]; simpl.
  - rewrite Z.eqb_refl.
    destruct (Z.ltb_spec col 0) as [Hc|Hc]; [done|].
    rewrite list_lookup_imap, Z2Nat.id, Z.eqb_refl by done.
    by destruct (gridRow !! Z.to_nat col).
  - destruct (Z.eqb_spec r row) as [->|Hr']; [|done].
    destruct (Z.ltb_spec c 0) as [Hc|Hc]; [done|].
    rewrite list_lookup_imap, Z2Nat.id by done.
    destruct (Z.eqb_spec c col) as [->|Hc']; [done|].
    by destruct (gridRow !! Z.to_nat c).
Qed.

Lemma getGridDimensions_setCellColor g row col x :
  getGridDimensions (setCellColor g row col x) = getGridDimensions g.
Proof.
  unfold setCellColor. destruct (isValidPosition g row col); simpl; [|done].
  unfold getGridDimensions, len. rewrite length_imap.
  destruct g as [|row0 g]; simpl; [done|].
  by destruct row; rewrite ?length_imap.
Qed.

Lemma isValidPosition_dims g g' row col :
  getGridDimensions g' = getGridDimensions g ->
  isValidPosition g' row col = isValidPosition g row col.
Proof.
  intros Hdims. apply eq_true_iff_eq. by rewrite !isValidPosition_true, Hdims.
Qed.

Lemma rectangular_setCellColor g row col x :
  rectangular g -> rectangular (setCellColor g row col x).
Proof.
  unfold rectangular. rewrite getGridDimensions_setCellColor.
  unfold setCellColor. destruct (isValidPosition g row col); simpl; [|done].
  rewrite !Forall_lookup. intros Hrect i gridRow.
  rewrite list_lookup_imap. destruct (g !! i) as [gridRow'|] eqn:Hi; simpl; [|done].
  intros [= <-]. specialize (Hrect _ _ Hi).
  destruct (Z.of_nat i =? row); [|done].
  unfold len in *. by rewrite length_imap.
Qed.

End GridModel.

(** C6: [setCellColor] returns the grid itself at an invalid position, and
    otherwise a grid that holds the new colour at [(row, col)] and the old
    colour at every other position. *)
Theorem setCellColor_frame (g : Grid) (row col : Z) (x : Color) :
  rectangular g ->
  (isValidPosition g row col = false -> setCellColor g row col x = g) /\
  (isValidPosition g row col = true ->
   cellAt (setCellColor g row col x) (row, col) = Some x /\
   forall p, p <> (row, col) -> cellAt (setCellColor g row col x) p = cellAt g p).
Proof.
  intros Hrect. split; [apply setCellColor_invalid|].
  intros Hvalid. split.
  - rewrite cellAt_setCellColor, decide_True by done.
    apply (cellAt_is_Some _ _ _ Hrect) in Hvalid as [y ->]. done.
  - intros p Hp. by rewrite cellAt_setCellColor, decide_False.
Qed.

Lemma setCellColor_frame_witness :
  let g := [["a"; "b"]; ["c"; "d"]] in
  rectangular g /\
  setCellColor g 5 0 "x" = g /\
  cellAt (setCellColor g 1 0 "x") (1, 0) = Some "x" /\
  forall p, p <> (1, 0) -> cellAt (setCellColor g 1 0 "x") p = cellAt g p.
Proof.
  assert (rectangular [["a"; "b"]; ["c"; "d"]]) as Hrect
    by (unfold rectangular; repeat constructor).
  split; [exact Hrect|]. split.
  - exact (proj1 (setCellColor_frame _ 5 0 "x" Hrect) eq_refl).
  - exact (proj2 (setCellColor_frame _ 1 0 "x" Hrect) eq_refl).
Defined.

(** C9: the flip direction compares the row with the floored centre row
    first, then the column with the floored centre column, strictly. *)
Theorem determineFlipDirection_spec (row col totalRows totalCols : Z) :
  let centerRow := totalRows / 2 in
  let centerCol := totalCols / 2 in
  let d := determineFlipDirection row col totalRows totalCols in
  (d = Up <-> row < centerRow) /\
  (d = Down <-> ~ row < centerRow /\ row > centerRow) /\
  (d = Left <-> ~ row < centerRow /\ ~ row > centerRow /\ col < centerCol) /\
  (d = Right <->
   ~ row < centerRow /\ ~ row > centerRow /\ ~ col < centerCol /\ col > centerCol) /\
  (d = Center <->
   ~ row < centerRow /\ ~ row > centerRow /\ ~ col < centerCol /\ ~ col > centerCol).
Proof.
  simpl. unfold determineFlipDirection.
  destruct (Z.ltb_spec row (totalRows / 2));
    [|destruct (Z.gtb_spec row (totalRows / 2));
      [|destruct (Z.ltb_spec col (totalCols / 2));
        [|destruct (Z.gtb_spec col (totalCols / 2))]]];
    repeat split; intros; try discriminate; try lia; try tauto.
Qed.

(** ** The flood-fill engine: one level *)

Section FloodFillLevel.

Implicit Types (grid g : Grid) (row col r c : Z) (p q : Position).
Implicit Types (visited V : gset Position) (cells level : list Position).

Lemma filterM_pure {A} (f : A -> outcome bool) (P : A -> Prop)
    `{forall x, Decision (P x)} (l : list A) :
  (forall x, f x = Ok (bool_decide (P x))) ->
  filterM f l = Ok (filter P l).
Proof.
  intros Hf. induction l as [|x l IH]; simpl; [done|].
  rewrite Hf, IH; simpl. rewrite filter_cons.
  destruct (decide (P x)).
  - by rewrite bool_decide_eq_true_2.
  - by rewrite bool_decide_eq_false_2.
Qed.

(** The filter of a level never raises. *)
Lemma filterM_shouldProcessCell grid (originalColor : option Color) level :
  filterM (fun '(r, c) => shouldProcessCell grid r c originalColor) level =
  Ok (filter (fun p => currentColor grid p = originalColor) level).
Proof.
  apply (filterM_pure _ (fun p => currentColor grid p = originalColor)).
  intros [r c]. unfold shouldProcessCell, currentColor.
  by rewrite getCellColor_cellAt.
Qed.

Lemma getGridDimensions_processCellsAtLevel grid cells t :
  getGridDimensions (processCellsAtLevel grid cells t) = getGridDimensions grid.
Proof.
  unfold processCellsAtLevel. revert grid.
  induction cells as [|[r c] cells IH]; intros grid; simpl; [done|].
  by rewrite IH, getGridDimensions_setCellColor.
Qed.

Lemma rectangular_processCellsAtLevel grid cells t :
  rectangular grid -> rectangular (processCellsAtLevel grid cells t).
Proof.
  unfold processCellsAtLevel. revert grid.
  induction cells as [|[r c] cells IH]; intros grid Hrect; simpl; [done|].
  by apply IH, rectangular_setCellColor.
Qed.

(** A level repaints exactly its valid cells. *)
Lemma cellAt_processCellsAtLevel grid cells t p :
  Forall (fun q => isValidPosition grid q.1 q.2 = true) cells ->
  cellAt (processCellsAtLevel grid cells t) p =
  if decide (p ∈ cells) then (fun _ => t) <$> cellAt grid p else cellAt grid p.
Proof.
  unfold processCellsAtLevel. revert grid.
  induction cells as [|[r c] cells IH]; intros grid Hvalid; simpl.
  { done. }
  apply Forall_cons in Hvalid as [Hrc Hvalid]; simpl in Hrc.
  rewrite IH.
  2: { eapply Forall_impl; [exact Hvalid|]. intros q Hq; simpl.
       by rewrite (isValidPosition_dims grid), Hq
         by apply getGridDimensions_setCellColor. }
  rewrite cellAt_setCellColor by done.
  destruct (decide (p ∈ cells)) as [Hin|Hnin];
    destruct (decide (p = (r, c))) as [->|Hne];
    destruct (decide (_ ∈ (r, c) :: cells)) as [Hin'|Hnin'];
    try done.
  - by destruct (cellAt grid (r, c)).
  - destruct Hnin'. apply elem_of_cons. by right.
  - destruct Hnin'. apply elem_of_cons. by right.
  - destruct Hnin'. apply elem_of_cons. by left.
  - apply elem_of_cons in Hin' as [?|?]; done.
Qed.

Lemma adjacent_directions r c q :
  adjacent (r, c) q <->
  q ∈ [ (r - 1, c); (r + 1, c); (r, c - 1); (r, c + 1) ].
Proof.
  destruct q as [r' c']. unfold adjacent; simpl.
  rewrite !elem_of_cons, elem_of_nil. split.
  - intros Hadj.
    assert (r' = r - 1 /\ c' = c \/ r' = r + 1 /\ c' = c \/
            r' = r /\ c' = c - 1 \/ r' = r /\ c' = c + 1) as Hcases by lia.
    destruct Hcases as [[-> ->]|[[-> ->]|[[-> ->]|[-> ->]]]]; auto.
  - intros [Heq|[Heq|[Heq|[Heq|[]]]]]; inversion Heq; lia.
Qed.

Lemma adjacent_sym p q : adjacent p q -> adjacent q p.
Proof. unfold adjacent. lia. Qed.

Lemma elem_of_getNeighbors rows cols r c q :
  q ∈ getNeighbors rows cols r c <-> adjacent (r, c) q /\ inBounds rows cols q.
Proof.
  unfold getNeighbors. rewrite list_elem_of_filter, adjacent_directions.
  destruct q as [r' c']. unfold inBounds; simpl. tauto.
Qed.

Lemma NoDup_getNeighbors rows cols r c : NoDup (getNeighbors rows cols r c).
Proof.
  unfold getNeighbors. apply NoDup_filter.
  repeat (apply NoDup_cons; split;
          [rewrite ?elem_of_cons, elem_of_nil; intros Hin;
           repeat (destruct Hin as [Hin|Hin]; [inversion Hin; lia|]); done|]).
  apply NoDup_nil_2.
Qed.

Lemma elem_of_getUnvisitedNeighbors rows cols r c V q :
  q ∈ getUnvisitedNeighbors rows cols r c V <->
  adjacent (r, c) q /\ inBounds rows cols q /\ q ∉ V.
Proof.
  unfold getUnvisitedNeighbors, createPositionKey.
  rewrite list_elem_of_filter, list_elem_of_fmap. split.
  - intros [Hq ([nr nc] & -> & Hin)]. apply elem_of_getNeighbors in Hin. tauto.
  - intros (Hadj & Hb & Hq). destruct q as [nr nc]. split; [done|].
    exists (nr, nc). split; [done|]. by apply elem_of_getNeighbors.
Qed.

Lemma NoDup_getUnvisitedNeighbors rows cols r c V :
  NoDup (getUnvisitedNeighbors rows cols r c V).
Proof.
  unfold getUnvisitedNeighbors. apply NoDup_filter.
  apply NoDup_fmap_2; [|apply NoDup_getNeighbors].
  by intros [? ?] [? ?] [= -> ->].
Qed.

Lemma foldl_visited_add V (neighbors : list Position) :
  foldl (fun visited '(nr, nc) => visited ∪ {[ createPositionKey nr nc ]}) V neighbors
  = V ∪ list_to_set neighbors.
Proof.
  revert V. induction neighbors as [|[nr nc] neighbors IH]; intros V; simpl.
  - set_solver.
  - rewrite IH. unfold createPositionKey. set_solver.
Qed.

Lemma collectNextLevel_gen rows cols cells (acc : list Position) V0 :
  NoDup acc -> (forall q, q ∈ acc -> q ∈ V0) ->
  exists new,
    foldl (visitNeighbors rows cols) (acc, V0) cells
    = (acc ++ new, V0 ∪ list_to_set new) /\
    NoDup (acc ++ new) /\
    (forall q, q ∈ new ->
               (q ∉ V0) /\ inBounds rows cols q /\ exists p, p ∈ cells /\ adjacent p q) /\
    (forall p q, p ∈ cells -> adjacent p q -> inBounds rows cols q ->
                 q ∈ V0 ∪ list_to_set new).
Proof.
  revert acc V0.
  induction cells as [|[r c] cells IH]; intros acc V0 Hnd Hacc; simpl.
  - exists []. rewrite app_nil_r. split; [f_equal; set_solver|].
    split; [done|]. split.
    + intros q Hq. by apply elem_of_nil in Hq.
    + intros p q Hp. by apply elem_of_nil in Hp.
  - set (nb := getUnvisitedNeighbors rows cols r c V0).
    rewrite foldl_visited_add.
    destruct (IH (acc ++ nb) (V0 ∪ list_to_set nb)) as (new & Heq & Hnd' & Hnew & Hcl).
    { apply NoDup_app. split; [done|]. split.
      - intros q Hq Hq'. apply elem_of_getUnvisitedNeighbors in Hq'. naive_solver.
      - apply NoDup_getUnvisitedNeighbors. }
    { intros q [Hq|Hq]%elem_of_app; [set_solver|].
      apply elem_of_union_r. by apply elem_of_list_to_set. }
    exists (nb ++ new). rewrite Heq, <- app_assoc. split.
    { f_equal. rewrite list_to_set_app_L. set_solver. }
    split; [by rewrite <- app_assoc in Hnd'|]. split.
    + intros q [Hq|Hq]%elem_of_app.
      * apply elem_of_getUnvisitedNeighbors in Hq as (Hadj & Hb & Hq).
        split; [done|]. split; [done|].
        exists (r, c). split; [apply elem_of_cons; by left|done].
      * destruct (Hnew q Hq) as (Hq' & Hb & p & Hp & Hadj).
        split; [set_solver|]. split; [done|].
        exists p. split; [apply elem_of_cons; by right|done].
    + intros p q [->|Hp]%elem_of_cons Hadj Hb.
      * destruct (decide (q ∈ V0)) as [Hq|Hq]; [set_solver|].
        assert (q ∈ nb) by (apply elem_of_getUnvisitedNeighbors; done).
        rewrite list_to_set_app_L. set_solver.
      * specialize (Hcl p q Hp Hadj Hb). rewrite list_to_set_app_L. set_solver.
Qed.

(** What a level hands to the next one: the cells next to a processed cell
    that were inside the rectangle and not yet visited, each once, and the
    visited set extended by exactly those. *)
Lemma collectNextLevel_spec rows cols cells V :
  exists nextLevel,
    collectNextLevel rows cols cells V = (nextLevel, V ∪ list_to_set nextLevel) /\
    NoDup nextLevel /\
    (forall q, q ∈ nextLevel ->
               (q ∉ V) /\ inBounds rows cols q /\ exists p, p ∈ cells /\ adjacent p q) /\
    (forall p q, p ∈ cells -> adjacent p q -> inBounds rows cols q ->
                 q ∈ V ∪ list_to_set nextLevel).
Proof.
  unfold collectNextLevel.
  destruct (collectNextLevel_gen rows cols cells [] V) as (new & Heq & Hnd & Hnew & Hcl).
  - apply NoDup_nil_2.
  - intros q Hq. by apply elem_of_nil in Hq.
  - exists new. done.
Qed.

End FloodFillLevel.

(** ** The flood-fill engine: termination *)

Section FloodFillTermination.

Implicit Types (grid g : Grid) (row col r c : Z) (p q : Position).
Implicit Types (visited V : gset Position) (cells level : list Position).
Implicit Types (snapshots : list Grid) (fuel : nat).

Lemma elem_of_allPositions rows cols p :
  p ∈ allPositions rows cols <-> inBounds rows cols p.
Proof.
  unfold allPositions, inBounds. rewrite list_elem_of_bind.
  destruct p as [r c]; simpl. split.
  - intros (r' & (c' & Heq & Hc)%list_elem_of_fmap & Hr).
    apply elem_of_seqZ in Hc, Hr. inversion Heq; subst. lia.
  - intros [Hr Hc]. exists r. split.
    + apply list_elem_of_fmap. exists c. split; [done|]. apply elem_of_seqZ. lia.
    + apply elem_of_seqZ. lia.
Qed.

Lemma NoDup_allPositions rows cols : NoDup (allPositions rows cols).
Proof.
  unfold allPositions. apply NoDup_bind.
  - intros r1 r2 [r c] _ _ (c1 & Heq1 & _)%list_elem_of_fmap
      (c2 & Heq2 & _)%list_elem_of_fmap. congruence.
  - intros r _. apply NoDup_fmap_2; [|apply NoDup_seqZ].
    by intros c1 c2 [= ->].
  - apply NoDup_seqZ.
Qed.

Lemma length_allPositions rows cols :
  0 <= rows -> 0 <= cols -> length (allPositions rows cols) = Z.to_nat (rows * cols).
Proof.
  intros Hrows Hcols. unfold allPositions.
  assert (forall (l : list Z),
    length (l ≫= fun r => (fun c => (r, c)) <$> seqZ 0 cols)
    = (length l * Z.to_nat cols)%nat) as Hlen.
  { induction l as [|r l IH]; [done|].
    rewrite bind_cons, length_app, IH, length_fmap, length_seqZ. simpl. lia. }
  rewrite Hlen, length_seqZ. lia.
Qed.

(** Visiting fresh cells of the rectangle uses up that many unvisited ones. *)
Lemma unvisited_extend rows cols V (new : list Position) :
  NoDup new ->
  (forall q, q ∈ new -> (q ∉ V) /\ inBounds rows cols q) ->
  (unvisited rows cols (V ∪ list_to_set new) + length new)%nat = unvisited rows cols V.
Proof.
  intros Hnd Hnew. unfold unvisited.
  set (all := list_to_set (allPositions rows cols) : gset Position).
  rewrite <- (size_list_to_set (C:=gset Position) new Hnd).
  rewrite <- size_union.
  - f_equal. apply set_eq. intros q.
    rewrite elem_of_union, !elem_of_difference, elem_of_union, elem_of_list_to_set.
    split.
    + intros [[Hq Hq']|Hq]; [tauto|].
      destruct (Hnew q Hq) as [Hq' Hb].
      split; [|done]. by apply elem_of_list_to_set, elem_of_allPositions.
    + intros [Hq Hq']. destruct (decide (q ∈ new)); tauto.
  - intros q. rewrite elem_of_difference, elem_of_union. tauto.
Qed.

Lemma unvisited_start rows cols p :
  inBounds rows cols p ->
  (unvisited rows cols {[ p ]} + 1)%nat = Z.to_nat (rows * cols).
Proof.
  intros Hp. unfold unvisited.
  rewrite size_difference.
  2: { apply singleton_subseteq_l, elem_of_list_to_set, elem_of_allPositions, Hp. }
  rewrite size_singleton, size_list_to_set by apply NoDup_allPositions.
  pose proof Hp as [[? ?] [? ?]].
  rewrite length_allPositions by lia.
  assert (0 < rows * cols) by nia. lia.
Qed.

Lemma floodFillRecursive_terminates fuel grid level originalColor t V rows cols snapshots :
  (callsNeeded rows cols V level <= fuel)%nat ->
  exists result,
    floodFillRecursive fuel grid level originalColor t V rows cols snapshots = Ok result /\
    (length result + 1 <= length snapshots + callsNeeded rows cols V level)%nat.
Proof.
  revert grid level V snapshots.
  induction fuel as [|fuel IH]; intros grid level V snapshots Hfuel.
  { unfold callsNeeded in Hfuel. destruct level; lia. }
  simpl. case_bool_decide as Hlevel.
  { subst level. exists snapshots. split; [done|]. unfold callsNeeded. lia. }
  rewrite filterM_shouldProcessCell; simpl.
  set (cells := filter (fun p => currentColor grid p = originalColor) level).
  case_bool_decide as Hcells.
  { exists snapshots. split; [done|]. unfold callsNeeded. destruct level; lia. }
  destruct (collectNextLevel_spec rows cols cells V) as (next & -> & Hnd & Hnext & _).
  assert ((unvisited rows cols (V ∪ list_to_set next) + length next)%nat
          = unvisited rows cols V) as Hext.
  { apply unvisited_extend; [done|]. intros q Hq. destruct (Hnext q Hq). tauto. }
  destruct level as [|p0 level]; [done|].
  destruct (IH (processCellsAtLevel grid cells t) next (V ∪ list_to_set next)
               (snapshots ++ [cloneGrid (processCellsAtLevel grid cells t)]))
    as (result & -> & Hlen).
  { unfold callsNeeded in *. destruct next; simpl in *; lia. }
  exists result. split; [done|].
  rewrite length_app in Hlen. unfold callsNeeded in *.
  destruct next; simpl in *; lia.
Qed.

(** More fuel never changes a result. *)
Lemma floodFillRecursive_fuel_mono fuel fuel' grid level originalColor t V rows cols
    snapshots result :
  floodFillRecursive fuel grid level originalColor t V rows cols snapshots = Ok result ->
  (fuel <= fuel')%nat ->
  floodFillRecursive fuel' grid level originalColor t V rows cols snapshots = Ok result.
Proof.
  revert fuel' grid level V snapshots.
  induction fuel as [|fuel IH]; intros fuel' grid level V snapshots; [done|].
  intros Hrun Hle. destruct fuel' as [|fuel']; [lia|].
  simpl in *. case_bool_decide; [done|].
  rewrite filterM_shouldProcessCell in *; simpl in *.
  case_bool_decide; [done|].
  destruct (collectNextLevel _ _ _ _) as [next V'].
  apply IH; [done|lia].
Qed.

Lemma floodFill_terminates g row col t :
  exists snapshots,
    floodFill (area g + 1) g row col t = Ok snapshots /\
    (length snapshots <= area g + 1)%nat.
Proof.
  unfold floodFill, area.
  destruct (getGridDimensions g) as [rows cols] eqn:Hdims.
  rewrite getCellColor_cellAt.
  destruct (isValidPosition g row col) eqn:Hvalid; simpl.
  2: { exists [cloneGrid g]. simpl. split; [done|lia]. }
  case_bool_decide; [exists [cloneGrid g]; simpl; split; [done|lia]|].
  apply isValidPosition_true in Hvalid. rewrite Hdims in Hvalid; simpl in Hvalid.
  pose proof (unvisited_start rows cols (row, col) Hvalid) as Hstart.
  destruct (floodFillRecursive_terminates (Z.to_nat (rows * cols) + 1) g
              [(row, col)] (cellAt g (row, col)) t {[createPositionKey row col]}
              rows cols [cloneGrid g]) as (result & Hrun & Hlen).
  { unfold callsNeeded, createPositionKey. lia. }
  exists result. split; [done|].
  unfold callsNeeded, createPositionKey in Hlen. simpl in Hlen. lia.
Qed.

End FloodFillTermination.

(** ** The flood-fill engine: the wave and the region it repaints *)

Section FloodFillWave.

Implicit Types (grid g G : Grid) (row col r c : Z) (p q : Position).
Implicit Types (visited V : gset Position) (cells level L : list Position).
Implicit Types (snapshots : list Grid) (fuel : nat).

Lemma grows_trans g s1 s2 s3 : grows g s1 s2 -> grows g s2 s3 -> grows g s1 s3.
Proof.
  intros [Hsub12 _] [Hsub23 (p & Hp & Hnp)]. split; [auto|].
  exists p. split; [done|]. auto.
Qed.

Lemma wave_lt g t snapshots i j si sj :
  wave g t snapshots -> (i < j)%nat ->
  snapshots !! i = Some si -> snapshots !! j = Some sj -> grows g si sj.
Proof.
  intros (_ & Hstep & _) Hlt Hi. revert sj.
  induction Hlt as [|j Hlt IH]; intros sj Hj; [eauto|].
  destruct (lookup_lt_is_Some_2 snapshots j) as [s Hs].
  { apply lookup_lt_Some in Hj. lia. }
  eapply grows_trans; eauto.
Qed.

Lemma wave_snoc g t snapshots s s' :
  wave g t snapshots -> last snapshots = Some s ->
  grows g s s' -> uniform g t s' -> wave g t (snapshots ++ [s']).
Proof.
  intros (Hhead & Hstep & Huni) Hlast Hgrows Huni'. split; [|split].
  - destruct snapshots; [done|]. done.
  - intros i s1 s2 Hi HSi.
    apply lookup_snoc_Some in HSi as [[Hlt HSi]|[Hlen <-]].
    + rewrite lookup_app_l in Hi by lia. eauto.
    + rewrite lookup_app_l in Hi by lia.
      rewrite last_lookup, <- Hlen in Hlast. simpl in Hlast. congruence.
  - apply Forall_app. split; [done|]. by apply Forall_singleton.
Qed.

Variables (g0 : Grid) (o t : Color) (start : Position) (rows cols : Z).
Hypothesis rect0 : rectangular g0.
Hypothesis dims0 : getGridDimensions g0 = (rows, cols).
Hypothesis start0 : cellAt g0 start = Some o.
Hypothesis fresh : o <> t.

Local Abbreviation level_inv := (level_inv g0 o t start rows cols).
Local Abbreviation filled := (filled g0 o t start).

Lemma inBounds_valid G p :
  getGridDimensions G = (rows, cols) ->
  isValidPosition G p.1 p.2 = true <-> inBounds rows cols p.
Proof. intros Hdims. rewrite isValidPosition_true, Hdims. done. Qed.

Lemma cellAt_inBounds G p (x : Color) :
  getGridDimensions G = (rows, cols) -> rectangular G ->
  cellAt G p = Some x -> inBounds rows cols p.
Proof.
  intros Hdims Hrect Hc. apply (inBounds_valid G p Hdims).
  destruct p as [row col]. apply cellAt_is_Some; [done|]. by exists x.
Qed.

Lemma connected_color p q : connected g0 o p q -> cellAt g0 q = Some o.
Proof. by intros [|]. Qed.

(** The level is exhausted: the region is repainted. *)
Lemma level_inv_final G L V snapshots :
  level_inv G L V snapshots ->
  (forall p, p ∈ L -> currentColor G p <> Some o) ->
  filled snapshots.
Proof.
  intros [Hdims Hrect Hcells Hlevel Hvisited Hclosed Hstart Hlast Hwave] Hdone.
  assert (forall p, p ∈ L -> cellAt g0 p <> Some o) as Hother.
  { intros p Hp Hc. apply (Hdone p Hp). unfold currentColor.
    destruct (Hlevel p Hp) as (_ & Hb & _).
    apply (inBounds_valid G p Hdims) in Hb. rewrite Hb.
    destruct (Hcells p) as [->|(_ & _ & _ & _ & Hnot)]; done. }
  split; [done|]. exists G. split; [done|]. split.
  - intros p Hconn. induction Hconn as [Hc|q r Hconn IH Hadj Hc].
    + apply Hvisited; [done| |done]. intros Hin. by apply (Hother start).
    + apply Hvisited; [|by intros Hin; apply (Hother r)|done].
      apply (Hclosed q r); [done|by eapply connected_color|done|].
      by eapply (cellAt_inBounds g0).
  - intros p Hdiff. destruct (Hcells p) as [?|(_ & _ & ? & _)]; done.
Qed.

(** Processing a level re-establishes the invariant for the next one. *)
Lemma level_inv_step G L V snapshots :
  level_inv G L V snapshots ->
  let cells := filter (fun p => currentColor G p = Some o) L in
  let G' := processCellsAtLevel G cells t in
  cells <> [] ->
  forall next,
    NoDup next ->
    (forall q, q ∈ next ->
               (q ∉ V) /\ inBounds rows cols q /\ exists p, p ∈ cells /\ adjacent p q) ->
    (forall p q, p ∈ cells -> adjacent p q -> inBounds rows cols q ->
                 q ∈ V ∪ list_to_set next) ->
    level_inv G' next (V ∪ list_to_set next) (snapshots ++ [cloneGrid G']).
Proof.
  intros [Hdims Hrect Hcells Hlevel Hvisited Hclosed Hstart Hlast Hwave].
  intros cells G' Hne next Hnd Hnext Hclose.
  assert (forall p, p ∈ cells <-> p ∈ L /\ cellAt G p = Some o) as Hcells_iff.
  { intros p. unfold cells. rewrite list_elem_of_filter. unfold currentColor.
    split.
    - intros [Hc Hp]. split; [done|]. by destruct (isValidPosition G p.1 p.2).
    - intros [Hp Hc]. split; [|done].
      destruct (Hlevel p Hp) as (_ & Hb & _).
      apply (inBounds_valid G p Hdims) in Hb. by rewrite Hb. }
  assert (forall p, cellAt G' p = if decide (p ∈ cells) then Some t else cellAt G p)
    as HG'.
  { intros p. unfold G'. rewrite cellAt_processCellsAtLevel.
    - destruct (decide (p ∈ cells)) as [Hp|]; [|done].
      apply Hcells_iff in Hp as [_ ->]. done.
    - apply Forall_forall. intros q [Hq _]%Hcells_iff.
      destruct (Hlevel q Hq) as (_ & Hb & _). by apply (inBounds_valid G q Hdims). }
  assert (forall p, p ∈ L -> cellAt G p = cellAt g0 p) as Hunpainted.
  { intros p Hp. destruct (Hcells p) as [?|(_ & _ & _ & _ & ?)]; done. }
  assert (forall p, p ∈ next -> p ∉ cells) as Hdisj.
  { intros p [Hp _]%Hnext [Hin _]%Hcells_iff. by destruct (Hlevel p Hin). }
  split.
  - unfold G'. by rewrite getGridDimensions_processCellsAtLevel.
  - by apply rectangular_processCellsAtLevel.
  - intros p. rewrite HG'. destruct (decide (p ∈ cells)) as [Hp|Hp].
    + right. apply Hcells_iff in Hp as [Hp Hc].
      destruct (Hlevel p Hp) as (HV & _ & Hconn).
      rewrite <- (Hunpainted p Hp). split; [done|]. split; [done|].
      split; [apply Hconn; by rewrite <- (Hunpainted p Hp)|].
      split; [set_solver|]. intros [Hnew _]%Hnext. done.
    + destruct (Hcells p) as [?|(? & ? & ? & HV & ?)]; [by left|right].
      repeat (split; [done|]). split; [set_solver|].
      intros [Hnew _]%Hnext. done.
  - intros q Hq. destruct (Hnext q Hq) as (HqV & Hb & p & Hp & Hadj).
    split; [apply elem_of_union_r; by apply elem_of_list_to_set|].
    split; [done|]. intros Hc.
    apply Hcells_iff in Hp as [Hp Hpc].
    destruct (Hlevel p Hp) as (_ & _ & Hconn).
    eapply connected_step; [|done|done].
    apply Hconn. by rewrite <- (Hunpainted p Hp).
  - intros p HpV Hpnext Hc. rewrite HG'.
    destruct (decide (p ∈ cells)) as [|Hpc]; [done|].
    assert (p ∈ V) as HV.
    { apply elem_of_union in HpV as [|Hin%elem_of_list_to_set]; done. }
    destruct (decide (p ∈ L)) as [HpL|HpL].
    + destruct Hpc. apply Hcells_iff. split; [done|]. by rewrite (Hunpainted p HpL).
    + by apply Hvisited.
  - intros p q HG'p Hc Hadj Hb. rewrite HG' in HG'p.
    destruct (decide (p ∈ cells)) as [Hp|Hp]; [by eapply Hclose|].
    apply elem_of_union_l. by eapply Hclosed.
  - by apply elem_of_union_l.
  - by rewrite cloneGrid_id, last_snoc.
  - rewrite cloneGrid_id. eapply wave_snoc; [done|done| |].
    + split.
      * intros p Hdiff. unfold differs in *. rewrite HG'.
        destruct (decide (p ∈ cells)) as [Hp|Hp]; [|done].
        apply Hcells_iff in Hp as [Hp _]. by rewrite (Hunpainted p Hp) in Hdiff.
      * assert (exists p, p ∈ cells) as [p Hp].
        { clear -Hne. clearbody cells. destruct cells as [|p ?]; [done|].
          exists p. apply elem_of_cons. by left. }
        exists p. unfold differs. rewrite HG', decide_True by done.
        apply Hcells_iff in Hp as [Hp Hc].
        rewrite <- (Hunpainted p Hp), Hc. split; [congruence|]. by intros [].
    + intros p Hdiff. unfold differs in Hdiff. rewrite HG' in *.
      destruct (decide (p ∈ cells)); [done|].
      destruct (Hcells p) as [?|(? & _)]; done.
Qed.

Lemma floodFillRecursive_filled fuel G L V snapshots result :
  level_inv G L V snapshots ->
  floodFillRecursive fuel G L (Some o) t V rows cols snapshots = Ok result ->
  filled result.
Proof.
  revert G L V snapshots.
  induction fuel as [|fuel IH]; intros G L V snapshots Hinv; [done|].
  simpl. case_bool_decide as HL.
  { intros [= <-]. eapply level_inv_final; [done|].
    subst L. intros p Hp. by apply elem_of_nil in Hp. }
  rewrite filterM_shouldProcessCell; simpl.
  case_bool_decide as Hcells.
  { intros [= <-]. eapply level_inv_final; [done|].
    intros p Hp Hc.
    assert (p ∈ filter (fun p => currentColor G p = Some o) L) as Hin
      by (by apply list_elem_of_filter).
    rewrite Hcells in Hin. by apply elem_of_nil in Hin. }
  destruct (collectNextLevel_spec rows cols
              (filter (fun p => currentColor G p = Some o) L) V)
    as (next & -> & Hnd & Hnext & Hclose).
  apply IH. by apply level_inv_step.
Qed.

Lemma level_inv_init :
  level_inv g0 [start] {[ createPositionKey start.1 start.2 ]} [cloneGrid g0].
Proof.
  unfold createPositionKey. rewrite <- surjective_pairing.
  split; try done.
  - by left.
  - intros p ->%list_elem_of_singleton. split; [set_solver|].
    split; [by eapply (cellAt_inBounds g0)|]. intros _. by left.
  - intros p ->%elem_of_singleton Hp. destruct Hp. apply elem_of_cons. by left.
  - intros p q Hp Hc. congruence.
  - set_solver.
  - by rewrite cloneGrid_id.
  - rewrite cloneGrid_id. split; [done|]. split.
    + intros [|i] s s' Hi HSi; done.
    + apply Forall_singleton. intros p Hp. by destruct Hp.
Qed.

End FloodFillWave.

(** ** The flood-fill engine: the contract of [floodFill] *)

Section FloodFillContract.

Implicit Types (g : Grid) (row col : Z) (t o : Color) (p : Position).

Lemma floodFill_fuel_mono fuel fuel' g row col t snapshots :
  floodFill fuel g row col t = Ok snapshots -> (fuel <= fuel')%nat ->
  floodFill fuel' g row col t = Ok snapshots.
Proof.
  unfold floodFill. destruct (negb (isValidPosition g row col)); [done|].
  destruct (getCellColor g row col) as [originalColor|]; simpl; [|done].
  case_bool_decide; [done|].
  destruct (getGridDimensions g) as [rows cols].
  apply floodFillRecursive_fuel_mono.
Qed.

(** The degenerate fills return the grid alone, whatever the fuel. *)
Lemma floodFill_unchanged fuel g row col t :
  isValidPosition g row col = false \/ getCellColor g row col = Ok (Some t) ->
  floodFill fuel g row col t = Ok [g].
Proof.
  unfold floodFill. rewrite cloneGrid_id.
  destruct (isValidPosition g row col) eqn:Hvalid; simpl; [|done].
  intros [Hinv| ->]; [done|]. simpl. by rewrite bool_decide_eq_true_2.
Qed.

Lemma wave_singleton g t : wave g t [g].
Proof.
  split; [done|]. split.
  - intros [|i] s s' Hi HSi; done.
  - apply Forall_singleton. intros p Hp. by destruct Hp.
Qed.

(** A fill that starts on a cell of another colour than the target. *)
Lemma floodFill_filled g row col t o :
  rectangular g -> cellAt g (row, col) = Some o -> o <> t ->
  exists snapshots,
    floodFill (area g + 1) g row col t = Ok snapshots /\
    filled g o t (row, col) snapshots.
Proof.
  intros Hrect Ho Hot.
  destruct (floodFill_terminates g row col t) as (snapshots & Hrun & _).
  exists snapshots. split; [done|].
  unfold floodFill in Hrun. rewrite getCellColor_cellAt in Hrun.
  assert (isValidPosition g row col = true) as Hvalid.
  { apply cellAt_is_Some; [done|]. by exists o. }
  destruct (getGridDimensions g) as [rows cols] eqn:Hdims.
  rewrite Hvalid, Ho in Hrun; simpl in Hrun.
  rewrite bool_decide_eq_false_2 in Hrun by congruence.
  eapply (floodFillRecursive_filled g o t (row, col) rows cols); [..|exact Hrun];
    try done.
  by apply (level_inv_init g o t (row, col) rows cols).
Qed.

(** Every fill of a rectangular grid yields a wave. *)
Lemma floodFill_wave g row col t :
  rectangular g ->
  exists snapshots,
    floodFill (area g + 1) g row col t = Ok snapshots /\ wave g t snapshots.
Proof.
  intros Hrect.
  destruct (isValidPosition g row col) eqn:Hvalid.
  - pose proof Hvalid as [o Ho]%cellAt_is_Some; [|done].
    destruct (decide (o = t)) as [->|Hot].
    + exists [g]. split; [|apply wave_singleton].
      apply floodFill_unchanged. right. by rewrite getCellColor_cellAt, Hvalid, Ho.
    + destruct (floodFill_filled g row col t o Hrect Ho Hot) as (snapshots & Hrun & Hw & _).
      by exists snapshots.
  - exists [g]. split; [|apply wave_singleton]. apply floodFill_unchanged. by left.
Qed.

End FloodFillContract.

(** C1: for a rectangular grid and a valid start cell whose colour [o] is not
    the target [t], the cells that differ between the last snapshot and the
    grid are exactly the cells connected to the start cell through cells of
    colour [o], and each of them has colour [t] in the last snapshot. *)
Theorem floodFill_repaints_component (g : Grid) (row col : Z) (t o : Color) :
  rectangular g ->
  isValidPosition g row col = true ->
  cellAt g (row, col) = Some o ->
  o <> t ->
  exists snapshots final,
    floodFill (area g + 1) g row col t = Ok snapshots /\
    last snapshots = Some final /\
    (forall p, differs g final p <-> connected g o (row, col) p) /\
    (forall p, connected g o (row, col) p -> cellAt final p = Some t).
Proof.
  intros Hrect _ Ho Hot.
  destruct (floodFill_filled g row col t o Hrect Ho Hot)
    as (snapshots & Hrun & _ & final & Hlast & Hall & Honly).
  exists snapshots, final. repeat (split; [done|]). split; [|done].
  intros p. split; [apply Honly|].
  intros Hconn. unfold differs.
  rewrite (Hall p Hconn), (connected_color g o _ _ Hconn). congruence.
Qed.

Lemma floodFill_repaints_component_witness :
  let g := [["G"; "R"; "G"]; ["R"; "R"; "R"]; ["G"; "R"; "G"]] in
  exists snapshots final,
    floodFill (area g + 1) g 1 1 "B" = Ok snapshots /\
    last snapshots = Some final /\
    (forall p, differs g final p <-> connected g "R" (1, 1) p) /\
    (forall p, connected g "R" (1, 1) p -> cellAt final p = Some "B").
Proof.
  apply (floodFill_repaints_component _ 1 1 "B" "R").
  - unfold rectangular. repeat constructor.
  - reflexivity.
  - reflexivity.
  - discriminate.
Defined.

(** C2: the snapshots of a fill of a rectangular grid are not empty and
    start with the grid itself; the set of cells that differ from the grid
    in a snapshot is included in that of every later snapshot, strictly; and
    a cell that differs from the grid has the target colour. *)
Theorem floodFill_snapshots_grow (g : Grid) (row col : Z) (t : Color) :
  rectangular g ->
  exists snapshots,
    floodFill (area g + 1) g row col t = Ok snapshots /\
    snapshots <> [] /\
    snapshots !! 0%nat = Some g /\
    (forall i j si sj,
        (i < j)%nat -> snapshots !! i = Some si -> snapshots !! j = Some sj ->
        (forall p, differs g si p -> differs g sj p) /\
        (exists p, differs g sj p /\ ~ differs g si p)) /\
    (forall i si p,
        snapshots !! i = Some si -> differs g si p -> cellAt si p = Some t).
Proof.
  intros Hrect.
  destruct (floodFill_wave g row col t Hrect) as (snapshots & Hrun & Hwave).
  exists snapshots. split; [done|].
  pose proof Hwave as (Hhead & _ & Huni).
  split; [by destruct snapshots|]. split; [by rewrite <- head_lookup|]. split.
  - intros i j si sj Hlt Hi Hj. by eapply wave_lt.
  - intros i si p Hi. rewrite Forall_lookup in Huni. by apply (Huni i).
Qed.

Lemma floodFill_snapshots_grow_witness :
  let g := [["R"; "R"; "G"]] in
  exists snapshots,
    floodFill (area g + 1) g 0 0 "B" = Ok snapshots /\
    snapshots <> [] /\
    snapshots !! 0%nat = Some g /\
    (forall i j si sj,
        (i < j)%nat -> snapshots !! i = Some si -> snapshots !! j = Some sj ->
        (forall p, differs g si p -> differs g sj p) /\
        (exists p, differs g sj p /\ ~ differs g si p)) /\
    (forall i si p,
        snapshots !! i = Some si -> differs g si p -> cellAt si p = Some "B").
Proof.
  apply (floodFill_snapshots_grow [["R"; "R"; "G"]] 0 0 "B").
  unfold rectangular. repeat constructor.
Defined.

(** C3: at an invalid position (every position of the empty grid is one) and
    on a cell that already has the target colour, [floodFill] returns the
    grid as its only snapshot; no fuel is needed and nothing is raised. *)
Theorem floodFill_degenerate (fuel : nat) (g : Grid) (row col : Z) (t : Color) :
  isValidPosition g row col = false \/ getCellColor g row col = Ok (Some t) ->
  floodFill fuel g row col t = Ok [g] /\
  floodFill fuel [] row col t = Ok [[]].
Proof.
  intros Hcase. split; [by apply floodFill_unchanged|].
  apply floodFill_unchanged. by left.
Qed.

Lemma floodFill_degenerate_witness :
  (floodFill 0 [["#FF0000"]] 5 5 "#0000FF" = Ok [[["#FF0000"]]] /\
   floodFill 0 [] 5 5 "#0000FF" = Ok [[]]) /\
  (floodFill 0 [["#FF0000"]] 0 0 "#FF0000" = Ok [[["#FF0000"]]] /\
   floodFill 0 [] 0 0 "#FF0000" = Ok [[]]).
Proof.
  split.
  - apply (floodFill_degenerate 0 [["#FF0000"]] 5 5 "#0000FF"). left. reflexivity.
  - apply (floodFill_degenerate 0 [["#FF0000"]] 0 0 "#FF0000"). right. reflexivity.
Defined.

(** C4: [floodFill] returns on every grid: a recursion depth of the grid
    area plus one is enough (and more changes nothing), so the snapshots are
    at most that many.  A level only adds cells of the rectangle to the
    visited set, so the set never holds more than [rows * cols] cells, and a
    level that adds none leaves the next call an empty level, on which the
    recursion stops. *)
Theorem floodFill_terminates_within_area (g : Grid) (row col : Z) (t : Color) :
  (exists snapshots,
      floodFill (area g + 1) g row col t = Ok snapshots /\
      (forall fuel, (area g + 1 <= fuel)%nat -> floodFill fuel g row col t = Ok snapshots) /\
      (length snapshots <= area g + 1)%nat) /\
  (forall cells (visited : gset Position),
      let '(rows, cols) := getGridDimensions g in
      let '(nextLevel, visited') := collectNextLevel rows cols cells visited in
      visited ⊆ visited' /\
      (visited ⊆ list_to_set (allPositions rows cols) ->
       visited' ⊆ list_to_set (allPositions rows cols) /\
       (size visited' <= area g)%nat) /\
      (nextLevel = [] \/ (size visited < size visited')%nat)) /\
  (forall fuel grid originalColor (visited : gset Position) rows cols snapshots,
      floodFillRecursive (S fuel) grid [] originalColor t visited rows cols snapshots
      = Ok snapshots).
Proof.
  split; [|split].
  - destruct (floodFill_terminates g row col t) as (snapshots & Hrun & Hlen).
    exists snapshots. split; [done|]. split; [|done].
    intros fuel Hfuel. by eapply floodFill_fuel_mono.
  - intros cells visited. unfold area.
    destruct (getGridDimensions g) as [rows cols] eqn:Hdims.
    destruct (collectNextLevel_spec rows cols cells visited)
      as (next & -> & Hnd & Hnext & _).
    split; [set_solver|]. split.
    + intros Hsub.
      assert (visited ∪ list_to_set next ⊆@{gset Position}
              list_to_set (allPositions rows cols)) as Hsub'.
      { apply union_subseteq. split; [done|]. intros q Hq%elem_of_list_to_set.
        apply elem_of_list_to_set, elem_of_allPositions. by destruct (Hnext q Hq) as (_ & ? & _). }
      split; [done|]. apply subseteq_size in Hsub'.
      rewrite size_list_to_set in Hsub' by apply NoDup_allPositions.
      rewrite length_allPositions in Hsub'; [done| |].
      * injection Hdims as <- _. unfold len. lia.
      * injection Hdims as _ <-. unfold len. destruct g; [done|]. by destruct (0 <? _); lia.
    + destruct next as [|q next]; [by left|right].
      rewrite size_union, size_list_to_set by (done || (intros x Hx Hx'%elem_of_list_to_set;
        by destruct (Hnext x Hx') as (? & _))).
      simpl. lia.
  - done.
Qed.

(** ** The territory generator: computations that succeed *)

Lemma succeeds_ret {A} (a : A) (P : A -> Prop) : P a -> succeeds (mret a) P.
Proof. intros Ha n. by exists a, n. Qed.

Lemma succeeds_bind {A B} (m : Rand A) (k : A -> Rand B) (P : A -> Prop) (Q : B -> Prop) :
  succeeds m P -> (forall a, P a -> succeeds (k a) Q) -> succeeds (m ≫= k) Q.
Proof.
  intros Hm Hk n. destruct (Hm n) as (a & n' & Hrun & Ha).
  destruct (Hk a Ha n') as (b & n'' & Hrun' & Hb).
  exists b, n''. unfold mbind, Rand_bind. by rewrite Hrun.
Qed.

Lemma succeeds_weaken {A} (m : Rand A) (P P' : A -> Prop) :
  succeeds m P -> (forall a, P a -> P' a) -> succeeds m P'.
Proof.
  intros Hm Himp n. destruct (Hm n) as (a & n' & Hrun & Ha). exists a, n'. auto.
Qed.

Lemma succeeds_lift {A} (o : outcome A) (P : A -> Prop) : okWith o P -> succeeds (lift o) P.
Proof. intros (a & -> & Ha) n. by exists a, n. Qed.

Lemma okWith_bind {A B} (o : outcome A) (k : A -> outcome B) (P : A -> Prop) (Q : B -> Prop) :
  okWith o P -> (forall a, P a -> okWith (k a) Q) -> okWith (o ≫= k) Q.
Proof. intros (a & -> & Ha) Hk. by apply Hk. Qed.

Lemma okWith_foldM {A B} (I : A -> Prop) (f : A -> B -> outcome A) (a : A) (l : list B) :
  I a -> (forall a x, I a -> x ∈ l -> okWith (f a x) I) -> okWith (foldM f a l) I.
Proof.
  revert a. induction l as [|x l IH]; intros a Ha Hf; simpl.
  - by exists a.
  - apply (okWith_bind _ _ I).
    + apply Hf; [done|]. apply elem_of_cons. by left.
    + intros a' Ha'. apply IH; [done|].
      intros a'' y Ha'' Hy. apply Hf; [done|]. apply elem_of_cons. by right.
Qed.

Lemma succeeds_foldM {A B} (I : A -> Prop) (f : A -> B -> Rand A) (a : A) (l : list B) :
  I a -> (forall a x, I a -> x ∈ l -> succeeds (f a x) I) -> succeeds (foldM f a l) I.
Proof.
  revert a. induction l as [|x l IH]; intros a Ha Hf; simpl.
  - by apply succeeds_ret.
  - apply (succeeds_bind _ _ I).
    + apply Hf; [done|]. apply elem_of_cons. by left.
    + intros a' Ha'. apply IH; [done|].
      intros a'' y Ha'' Hy. apply Hf; [done|]. apply elem_of_cons. by right.
Qed.

Lemma succeeds_mapM {A B} (R : B -> A -> Prop) (f : B -> Rand A) (l : list B) :
  (forall x, x ∈ l -> succeeds (f x) (R x)) ->
  succeeds (mapM f l) (fun k => Forall2 R l k).
Proof.
  induction l as [|x l IH]; intros Hf.
  - apply succeeds_ret. constructor.
  - change (mapM f (x :: l)) with (y ← f x; k ← mapM f l; mret (y :: k)).
    apply (succeeds_bind _ _ (R x)); [apply Hf, elem_of_cons; by left|].
    intros y Hy.
    apply (succeeds_bind _ _ (fun k => Forall2 R l k)).
    + apply IH. intros x' Hx'. apply Hf, elem_of_cons. by right.
    + intros k Hk. apply succeeds_ret. by constructor.
Qed.

Lemma succeeds_imapR {A B} (R : B -> A -> Prop) (f : nat -> B -> Rand A) (l : list B) :
  (forall i x, l !! i = Some x -> succeeds (f i x) (R x)) ->
  succeeds (imapR f l) (fun k => Forall2 R l k).
Proof.
  revert f. induction l as [|x l IH]; intros f Hf; simpl.
  - apply succeeds_ret. constructor.
  - apply (succeeds_bind _ _ (R x)); [by apply (Hf 0%nat)|].
    intros y Hy.
    apply (succeeds_bind _ _ (fun k => Forall2 R l k)).
    + apply IH. intros i x' Hx'. by apply (Hf (S i)).
    + intros k Hk. apply succeeds_ret. by constructor.
Qed.

Lemma succeeds_filterR {A} (p : A -> Rand bool) (l : list A) :
  (forall x, x ∈ l -> succeeds (p x) (fun _ => True)) ->
  succeeds (filterR p l) (fun k => forall y, y ∈ k -> y ∈ l).
Proof.
  induction l as [|x l IH]; intros Hp; simpl.
  - by apply succeeds_ret.
  - apply (succeeds_bind _ _ (fun _ => True)); [apply Hp, elem_of_cons; by left|].
    intros b _.
    apply (succeeds_bind _ _ (fun k => forall y, y ∈ k -> y ∈ l)).
    + apply IH. intros x' Hx'. apply Hp, elem_of_cons. by right.
    + intros k Hk. apply succeeds_ret. intros y Hy. apply elem_of_cons.
      destruct b; [apply elem_of_cons in Hy as [->|Hy]|]; auto.
Qed.

Lemma okWith_filterM {A} (p : A -> outcome bool) (G : A -> Prop) (l : list A) :
  (forall x, x ∈ l -> okWith (p x) (fun b => b = true -> G x)) ->
  okWith (filterM p l) (Forall G).
Proof.
  induction l as [|x l IH]; intros Hp; simpl.
  - by exists [].
  - apply (okWith_bind _ _ (fun b => b = true -> G x)); [apply Hp, elem_of_cons; by left|].
    intros b Hb.
    apply (okWith_bind _ _ (Forall G)).
    + apply IH. intros x' Hx'. apply Hp, elem_of_cons. by right.
    + intros k Hk. eexists. split; [done|].
      destruct b; [constructor; auto|done].
Qed.


(** ** The territory generator: shape and palette *)

Section GeneratorShape.

Variables (Math_sin : float -> float) (Math_random : nat -> float) (rows cols : Z).
Hypothesis rows_pos : 0 < rows.
Hypothesis cols_pos : 0 < cols.
Hypothesis contract : randomContract Math_random rows cols.

Implicit Types (grid : list (list cell)) (v : cell) (p : Position).

Local Abbreviation seeded := (seeded rows cols).

Lemma Forall2_right {X Y} (Q : Y -> Prop) (l : list X) (k : list Y) :
  Forall2 (fun _ y => Q y) l k -> Forall Q k.
Proof. induction 1; constructor; auto. Qed.

Lemma spread_rows {X} (g : list (list X)) : map (fun row => row ++ []) g = g.
Proof. induction g as [|row g IH]; simpl; [done|]. by rewrite app_nil_r, IH. Qed.

(** A grid built cell by cell from a grid has its shape. *)
Lemma shaped_Forall2 {X Y} (Q : Y -> Prop) (g : list (list X)) (g' : list (list Y)) :
  shaped rows cols g ->
  Forall2 (fun row row' => Forall2 (fun _ y => Q y) row row') g g' ->
  shaped rows cols g' /\ Forall (Forall Q) g'.
Proof.
  intros [Hrows Hcols] Hall. split; [split|].
  - unfold len in *. by rewrite <- (Forall2_length _ _ _ Hall).
  - clear Hrows. induction Hall as [|row row' ? ? Hrow]; [done|].
    apply Forall_cons in Hcols as [Hlen Hcols]. constructor; [|auto].
    unfold len in *. by rewrite <- (Forall2_length _ _ _ Hrow).
  - clear Hrows Hcols. induction Hall as [|row row' ? ? Hrow]; [done|].
    constructor; [|done]. by eapply Forall2_right.
Qed.

Lemma succeeds_random :
  succeeds (random Math_random)
           (fun u => unitDraw rows u /\ unitDraw cols u /\
                     unitDraw (len CYBERPUNK_PALETTE) u).
Proof. intros n. eexists _, _. split; [done|]. apply contract. Qed.

Lemma succeeds_randomCyberpunkColor :
  succeeds (randomCyberpunkColor Math_random) isColor.
Proof.
  unfold randomCyberpunkColor.
  eapply succeeds_bind; [apply succeeds_random|].
  intros u (_ & _ & Hu). apply succeeds_ret. unfold unitDraw in Hu.
  destruct (floor_Z _) as [i|]; [|done].
  destruct (js_index CYBERPUNK_PALETTE i) as [c|] eqn:Hc; simpl.
  - exists c. split; [done|]. apply js_index_Some in Hc as [_ Hc].
    by eapply list_elem_of_lookup_2.
  - by apply js_index_None in Hc.
Qed.

Lemma succeeds_randomIndex_rows :
  succeeds (randomIndex Math_random rows) (fun i => 0 <= i < rows).
Proof.
  unfold randomIndex. eapply succeeds_bind; [apply succeeds_random|].
  intros u (Hu & _ & _). unfold unitDraw in Hu.
  destruct (floor_Z _) as [i|]; [|done]. by apply succeeds_ret.
Qed.

Lemma succeeds_randomIndex_cols :
  succeeds (randomIndex Math_random cols) (fun i => 0 <= i < cols).
Proof.
  unfold randomIndex. eapply succeeds_bind; [apply succeeds_random|].
  intros u (_ & Hu & _). unfold unitDraw in Hu.
  destruct (floor_Z _) as [i|]; [|done]. by apply succeeds_ret.
Qed.

Lemma succeeds_createTerritorySeeds numTerritories :
  succeeds (createTerritorySeeds Math_random numTerritories rows cols) (Forall seeded).
Proof.
  unfold createTerritorySeeds.
  eapply succeeds_weaken.
  - apply (succeeds_mapM (fun _ territory => seeded territory)).
    intros i _.
    eapply succeeds_bind; [apply succeeds_randomIndex_rows|]. intros startRow Hrow.
    eapply succeeds_bind; [apply succeeds_randomIndex_cols|]. intros startCol Hcol.
    eapply succeeds_bind; [apply succeeds_randomCyberpunkColor|]. intros c Hc.
    apply succeeds_ret. split; [done|]. by exists (startRow, startCol), [].
  - intros territories. apply Forall2_right.
Qed.

Lemma shaped_row grid r (gridRow : list cell) :
  shaped rows cols grid -> js_index grid r = Some gridRow -> len gridRow = cols.
Proof.
  intros [_ Hrows] [_ Hr]%js_index_Some.
  exact (Forall_lookup_1 _ _ _ _ Hrows Hr).
Qed.

Lemma shaped_index grid r c :
  shaped rows cols grid -> inBounds rows cols (r, c) ->
  exists gridRow v, js_index grid r = Some gridRow /\ js_index gridRow c = Some v.
Proof.
  intros Hshape [Hr Hc]; simpl in *.
  destruct (proj2 (js_index_is_Some grid r)) as [gridRow Hrow].
  { destruct Hshape as [-> _]. lia. }
  destruct (proj2 (js_index_is_Some gridRow c)) as [v Hv].
  { rewrite (shaped_row _ _ _ Hshape Hrow). lia. }
  by exists gridRow, v.
Qed.

(** A read inside the grid gives a cell of the grid. *)
Lemma index2_ok grid r c (P : cell -> Prop) :
  shaped rows cols grid -> inBounds rows cols (r, c) -> Forall (Forall P) grid ->
  okWith (index2 grid r c) (fun read => P (from_read read)).
Proof.
  intros Hshape Hb HP.
  destruct (shaped_index grid r c Hshape Hb) as (gridRow & v & Hrow & Hv).
  exists (Some v). unfold index2. rewrite Hrow, Hv. split; [done|]. simpl.
  apply js_index_Some in Hrow as [_ Hrow]. apply js_index_Some in Hv as [_ Hv].
  eapply Forall_lookup_1; [|exact Hv]. by eapply Forall_lookup_1.
Qed.

(** A write inside the grid keeps its shape. *)
Lemma write2_ok grid r c v :
  shaped rows cols grid -> inBounds rows cols (r, c) ->
  okWith (write2 grid r c v)
         (fun grid' => shaped rows cols grid' /\
                       (painted grid -> nullOrColor v -> painted grid')).
Proof.
  intros Hshape Hb.
  destruct (shaped_index grid r c Hshape Hb) as (gridRow & v' & Hrow & Hv).
  pose proof (shaped_row _ _ _ Hshape Hrow) as Hlen.
  destruct Hb as [Hr Hc]; simpl in *.
  unfold write2. rewrite Hrow.
  destruct (Z.leb_spec 0 c); [|lia]. destruct (Z.ltb_spec c (len gridRow)); [|lia].
  simpl. eexists. split; [done|].
  destruct Hshape as [Hrows Hcols]. split; [split|].
  - unfold len in *. by rewrite length_insert.
  - apply Forall_insert; [done|]. unfold len in *. by rewrite length_insert.
  - intros Hpainted Hv'. apply Forall_insert; [done|].
    apply Forall_insert; [|done].
    apply js_index_Some in Hrow as [_ Hrow]. by eapply Forall_lookup_1.
Qed.

Lemma getUnfilledNeighbors_ok grid r c :
  shaped rows cols grid ->
  okWith (getUnfilledNeighbors grid rows cols r c) (Forall (inBounds rows cols)).
Proof.
  intros Hshape. unfold getUnfilledNeighbors.
  apply okWith_filterM. intros [nr nc] _.
  destruct ((0 <=? nr) && (nr <? rows) && (0 <=? nc) && (nc <? cols)) eqn:Hin.
  - assert (inBounds rows cols (nr, nc)) as Hb.
    { unfold inBounds; simpl.
      rewrite !andb_true_iff, !Z.leb_le, !Z.ltb_lt in Hin. tauto. }
    destruct (index2_ok grid nr nc (fun _ => True) Hshape Hb) as (v & -> & _).
    { apply Forall_forall. intros ? _. by apply Forall_forall. }
    simpl. by eexists.
  - by exists false.
Qed.

Lemma succeeds_growFromCell grid cellStr seed organicness :
  shaped rows cols grid ->
  succeeds (growFromCell Math_sin Math_random grid cellStr rows cols seed organicness)
           (Forall (inBounds rows cols)).
Proof.
  intros Hshape. unfold growFromCell. destruct cellStr as [r c].
  eapply succeeds_bind.
  { apply succeeds_lift, getUnfilledNeighbors_ok, Hshape. }
  intros neighbors Hnb. eapply succeeds_weaken.
  - apply succeeds_filterR. intros [nr nc] _.
    eapply succeeds_bind; [apply succeeds_random|]. intros u _. by apply succeeds_ret.
  - intros grown Hsub. apply Forall_forall. intros q Hq.
    rewrite Forall_forall in Hnb. auto.
Qed.

Lemma succeeds_growTerritory grid activeCount territory seed organicness :
  shaped rows cols grid -> painted grid -> isColor (color territory) ->
  succeeds (growTerritory Math_sin Math_random rows cols seed organicness
                          (grid, activeCount) territory)
           (fun '((grid', _), territory') =>
              shaped rows cols grid' /\ painted grid' /\ isColor (color territory')).
Proof.
  intros Hshape Hpainted Hcolor. unfold growTerritory.
  eapply succeeds_bind.
  - apply (succeeds_foldM
             (fun '(newGrid, _, _) => shaped rows cols newGrid /\ painted newGrid)).
    { done. }
    intros [[newGrid newCells] newFrontier] cellStr [Hs Hp] _.
    eapply succeeds_bind; [by apply succeeds_growFromCell|].
    intros grownCells Hgrown. apply succeeds_lift.
    apply (okWith_foldM
             (fun '(newGrid, _, _) => shaped rows cols newGrid /\ painted newGrid)).
    { done. }
    intros [[newGrid' newCells'] newFrontier'] [nr nc] [Hs' Hp'] Hin.
    rewrite Forall_forall in Hgrown.
    destruct (write2_ok newGrid' nr nc (color territory) Hs' (Hgrown _ Hin))
      as (grid'' & -> & Hs'' & Hp'').
    simpl. eexists. split; [done|]. split; [done|].
    apply Hp''; [done|]. by right.
  - intros [[newGrid newCells] newFrontier] [Hs Hp]. by apply succeeds_ret.
Qed.

Lemma succeeds_growTerritoriesIteration grid territories seed organicness :
  shaped rows cols grid -> painted grid ->
  Forall (fun territory => isColor (color territory)) territories ->
  succeeds (growTerritoriesIteration Math_sin Math_random grid territories
                                     rows cols seed organicness)
           (fun '(grid', territories', _) =>
              shaped rows cols grid' /\ painted grid' /\
              Forall (fun territory => isColor (color territory)) territories').
Proof.
  intros Hshape Hpainted Hcolors. unfold growTerritoriesIteration.
  rewrite spread_rows.
  eapply succeeds_bind.
  - apply (succeeds_foldM
             (fun '(newGrid, _, newTerritories) =>
                shaped rows cols newGrid /\ painted newGrid /\
                Forall (fun territory => isColor (color territory)) newTerritories)).
    { repeat split; [apply Hshape..|done|constructor]. }
    intros [[newGrid activeCount] newTerritories] territory (Hs & Hp & Hc) Hin.
    rewrite Forall_forall in Hcolors.
    eapply succeeds_bind.
    { apply succeeds_growTerritory; [done|done|]. by apply Hcolors. }
    intros [[grid' count'] territory'] (Hs' & Hp' & Hc').
    apply succeeds_ret. split; [done|]. split; [done|].
    apply Forall_app. split; [done|]. by apply Forall_singleton.
  - intros [[newGrid activeCount] newTerritories] (Hs & Hp & Hc).
    by apply succeeds_ret.
Qed.

Lemma succeeds_growLoop remaining grid territories activeCount seed organicness :
  shaped rows cols grid -> painted grid ->
  Forall (fun territory => isColor (color territory)) territories ->
  succeeds (growLoop Math_sin Math_random remaining grid territories activeCount
                     rows cols seed organicness)
           (fun grid' => shaped rows cols grid' /\ painted grid').
Proof.
  revert grid territories activeCount.
  induction remaining as [|remaining IH]; intros grid territories activeCount Hs Hp Hc;
    simpl.
  { by apply succeeds_ret. }
  destruct (0 <? activeCount)%nat; [|by apply succeeds_ret].
  eapply succeeds_bind; [by apply succeeds_growTerritoriesIteration|].
  intros [[grid' territories'] activeCount'] (Hs' & Hp' & Hc'). by apply IH.
Qed.

Lemma findClosestColoredNeighbor_ok grid row col :
  shaped rows cols grid -> painted grid ->
  okWith (findClosestColoredNeighbor grid row col rows cols) nullOrColor.
Proof.
  intros Hshape Hpainted. unfold findClosestColoredNeighbor.
  eapply okWith_bind.
  - apply (okWith_foldM (fun '(closest, _) => nullOrColor closest)).
    { by left. }
    intros [closest minDist] [dr dc] Hclosest _.
    destruct ((0 <=? row + dr) && (row + dr <? rows) && (0 <=? col + dc)
              && (col + dc <? cols)) eqn:Hin; [|by eexists].
    assert (inBounds rows cols (row + dr, col + dc)) as Hb.
    { unfold inBounds; simpl.
      rewrite !andb_true_iff, !Z.leb_le, !Z.ltb_lt in Hin. tauto. }
    destruct (index2_ok grid _ _ nullOrColor Hshape Hb Hpainted) as (v & -> & Hv).
    simpl. case_bool_decide; [|by eexists].
    destruct (match minDist with Some d => _ | None => true end); by eexists.
  - intros [closest minDist] Hclosest. by eexists.
Qed.

Lemma truthy_isColor v : nullOrColor v -> truthy v = true -> isColor v.
Proof. by intros [->|?]. Qed.

Lemma succeeds_fillRemainingCells grid :
  shaped rows cols grid -> painted grid ->
  succeeds (fillRemainingCells Math_random grid rows cols)
           (fun grid' => shaped rows cols grid' /\ Forall (Forall isColor) grid').
Proof.
  intros Hshape Hpainted. unfold fillRemainingCells.
  eapply succeeds_weaken.
  - apply (succeeds_imapR
             (fun (gridRow gridRow' : list cell) =>
                Forall2 (fun _ v => isColor v) gridRow gridRow')).
    intros r gridRow Hrow.
    apply (succeeds_imapR (fun _ v => isColor v)).
    intros c v Hv.
    assert (nullOrColor v) as Hcell.
    { eapply Forall_lookup_1; [|exact Hv]. by eapply Forall_lookup_1. }
    case_bool_decide as Hnull.
    { apply succeeds_ret. by destruct Hcell. }
    eapply succeeds_bind.
    { apply succeeds_lift. by apply findClosestColoredNeighbor_ok. }
    intros closest Hclosest.
    destruct (truthy closest) eqn:Htruthy.
    + apply succeeds_ret. by apply truthy_isColor.
    + apply succeeds_randomCyberpunkColor.
  - intros grid' Hall. by eapply shaped_Forall2.
Qed.

Lemma shaped_replicate {X} (x : X) :
  shaped rows cols (replicate (Z.to_nat rows) (replicate (Z.to_nat cols) x)).
Proof.
  split.
  - unfold len. rewrite length_replicate. lia.
  - apply Forall_replicate. unfold len. rewrite length_replicate. lia.
Qed.

(** Rows of random colours, one per element of a row of any kind. *)
Lemma succeeds_random_rows {X} (g : list (list X)) :
  shaped rows cols g ->
  succeeds (mapM (fun row => mapM (fun _ : X => randomCyberpunkColor Math_random) row) g)
           (fun grid' => shaped rows cols grid' /\ Forall (Forall isColor) grid').
Proof.
  intros Hshape. eapply succeeds_weaken.
  - apply (succeeds_mapM
             (fun (row : list X) (gridRow' : list cell) =>
                Forall2 (fun _ v => isColor v) row gridRow')).
    intros row _. apply (succeeds_mapM (fun _ v => isColor v)).
    intros ? _. apply succeeds_randomCyberpunkColor.
  - intros grid' Hall. by eapply shaped_Forall2.
Qed.

Lemma succeeds_generateGridWithZones organicness :
  succeeds (generateGridWithZones Math_sin Math_random rows cols organicness)
           (fun grid => shaped rows cols grid /\ Forall (Forall isColor) grid).
Proof.
  unfold generateGridWithZones.
  rewrite bool_decide_eq_false_2 by lia.
  eapply succeeds_bind; [apply succeeds_random|]. intros u _.
  case_bool_decide as Horg.
  { apply succeeds_random_rows, shaped_replicate. }
  eapply succeeds_bind; [apply succeeds_createTerritorySeeds|].
  intros territories Hseeded.
  eapply succeeds_bind.
  { apply succeeds_lift.
    apply (okWith_foldM (fun grid => shaped rows cols grid /\ painted grid)).
    - split; [apply shaped_replicate|].
      apply Forall_replicate, Forall_replicate. by left.
    - intros grid territory [Hs Hp] Hin.
      rewrite Forall_forall in Hseeded.
      destruct (Hseeded _ Hin) as (Hc & [startRow startCol] & rest & -> & Hb).
      destruct (write2_ok grid startRow startCol (color territory) Hs Hb)
        as (grid' & -> & Hs' & Hp').
      eexists. split; [done|]. split; [done|]. apply Hp'; [done|]. by right. }
  intros grid [Hs Hp].
  eapply succeeds_bind.
  { apply succeeds_growLoop; [done|done|].
    eapply Forall_impl; [exact Hseeded|]. by intros territory [? _]. }
  intros grid' [Hs' Hp']. by apply succeeds_fillRemainingCells.
Qed.

Lemma shaped_seq :
  shaped rows cols (replicate (Z.to_nat rows) (seq 0 (Z.to_nat cols))).
Proof.
  split.
  - unfold len. rewrite length_replicate. lia.
  - apply Forall_replicate. unfold len. rewrite length_seq. lia.
Qed.

Lemma succeeds_generateGrid :
  succeeds (generateGrid Math_random rows cols)
           (fun grid => shaped rows cols grid /\ Forall (Forall isColor) grid).
Proof.
  unfold generateGrid. rewrite bool_decide_eq_false_2 by lia.
  eapply succeeds_weaken.
  - apply (succeeds_mapM
             (fun (_ : nat) (gridRow : list cell) =>
                len gridRow = cols /\ Forall isColor gridRow)).
    intros i _. eapply succeeds_weaken.
    + apply (succeeds_mapM (fun _ v => isColor v)).
      intros ? _. apply succeeds_randomCyberpunkColor.
    + intros gridRow Hall. split; [|by eapply Forall2_right].
      unfold len. rewrite <- (Forall2_length _ _ _ Hall), length_seq. lia.
  - intros grid Hall. split; [split|].
    + unfold len. rewrite <- (Forall2_length _ _ _ Hall), length_seq. lia.
    + apply Forall2_right in Hall.
      eapply Forall_impl; [exact Hall|]. by intros ? [? _].
    + apply Forall2_right in Hall.
      eapply Forall_impl; [exact Hall|]. by intros ? [_ ?].
Qed.

End GeneratorShape.

(** ** Doubles of the unit interval *)

Section Rounding.

(** The number of binary digits of a mantissa. *)
Lemma digits2_pos_size p : digits2_pos p = Pos.size p.
Proof. induction p as [p IH|p IH|]; simpl; by rewrite ?IH. Qed.

Lemma Zdigits2_bounds p :
  2 ^ (Z.pos (digits2_pos p) - 1) <= Z.pos p < 2 ^ Z.pos (digits2_pos p).
Proof.
  rewrite digits2_pos_size.
  pose proof (Pos.size_gt p) as Hgt. pose proof (Pos.size_le p) as Hle.
  apply Pos2Z.pos_lt_pos in Hgt. apply Pos2Z.pos_le_pos in Hle.
  rewrite Pos2Z.inj_pow in Hgt, Hle.
  split; [|exact Hgt].
  replace (Z.pos (Pos.size p)) with (Z.pos (Pos.size p) - 1 + 1) in Hle by lia.
  rewrite Z.pow_add_r in Hle by lia. change (2 ^ 1) with 2 in Hle. lia.
Qed.

(** The shift of the rounding, as an iteration over [nat]. *)
Lemma iter_pos_nat {A} (f : A -> A) p x :
  SpecFloat.iter_pos f p x = Nat.iter (Pos.to_nat p) f x.
Proof.
  revert x. induction p as [p IH|p IH|]; intros x.
  - rewrite Pos2Nat.inj_xI. cbn [SpecFloat.iter_pos]. rewrite !IH.
    rewrite <- Nat.iter_add, <- Nat.iter_succ_r. f_equal. lia.
  - rewrite Pos2Nat.inj_xO. cbn [SpecFloat.iter_pos]. rewrite !IH.
    rewrite <- Nat.iter_add. f_equal. lia.
  - done.
Qed.

(** One shift halves the mantissa and keeps the bit shifted out. *)
Lemma shr_1_nonneg m r s :
  0 <= m ->
  shr_1 {| shr_m := m; shr_r := r; shr_s := s |}
  = {| shr_m := m / 2; shr_r := Z.odd m; shr_s := r || s |}.
Proof.
  intros Hm. rewrite <- Z.div2_div.
  destruct m as [|[p|p|]|p]; done.
Qed.


(** [j] shifts divide by [2^j]; when the round bit is set, the part shifted
    out is at least half of [2^j]. *)
Lemma shr_iter (j : nat) (M : Z) :
  0 <= M ->
  let q := Nat.iter j shr_1 {| shr_m := M; shr_r := false; shr_s := false |} in
  shr_m q = M / 2 ^ Z.of_nat j /\
  (shr_r q = true -> 2 ^ Z.of_nat j <= 2 * (M mod 2 ^ Z.of_nat j)).
Proof.
  intros HM. induction j as [|j [IHm IHr]]; [by rewrite Z.div_1_r|].
  cbn zeta in *. rewrite Nat.iter_succ.
  destruct (Nat.iter j shr_1 _) as [m r s]. cbn [shr_m shr_r] in IHm, IHr.
  assert (0 < 2 ^ Z.of_nat j) as Hpow by (apply Z.pow_pos_nonneg; lia).
  assert (0 <= m) as Hm by (subst m; apply Z.div_pos; lia).
  rewrite shr_1_nonneg by done. cbn [shr_m shr_r].
  rewrite Nat2Z.inj_succ, Z.pow_succ_r by lia.
  rewrite (Z.mul_comm 2). split.
  - rewrite <- Z.div_div by lia. by rewrite IHm.
  - intros Hodd. rewrite Z.rem_mul_r by lia. rewrite <- IHm.
    apply Z.odd_spec in Hodd as [k Hk].
    assert (m mod 2 = 1) as Hmod
      by (rewrite Hk, Z.add_comm, Z.mul_comm, Z.mod_add; done).
    rewrite Hmod.
    pose proof (Z.mod_pos_bound M (2 ^ Z.of_nat j) Hpow). nia.
Qed.


Lemma shr_spec (M e k : Z) :
  0 <= M ->
  exists q,
    shr {| shr_m := M; shr_r := false; shr_s := false |} e k
    = (q, e + Z.max 0 k) /\
    shr_m q = M / 2 ^ Z.max 0 k /\
    (shr_r q = true -> 2 ^ Z.max 0 k <= 2 * (M mod 2 ^ Z.max 0 k)).
Proof.
  intros HM. destruct k as [|p|p]; cbn [shr].
  - eexists. split; [by rewrite Z.add_0_r|]. by rewrite Z.div_1_r.
  - rewrite iter_pos_nat.
    destruct (shr_iter (Pos.to_nat p) M HM) as [Hm Hr].
    rewrite positive_nat_Z in Hm, Hr.
    eexists. split; [done|]. by rewrite Z.max_r by lia.
  - eexists. split; [by rewrite Z.add_0_r|]. by rewrite Z.div_1_r.
Qed.

(** Rounding to nearest adds one at most, and only when the round bit is
    set. *)
Lemma round_nearest_even_bound (q : shr_record) :
  shr_m q <= round_nearest_even (shr_m q) (loc_of_shr_record q)
          <= shr_m q + (if shr_r q then 1 else 0).
Proof.
  destruct q as [m [] []]; cbn; try lia. destruct (Z.even m); lia.
Qed.


(** The rounding of a product [M * 2^E]: the result [m3 * 2^(E + k1 + k2)]
    exceeds the exact value by half a unit of the first shift at most. *)
Lemma binary_round_aux_bound (M E : Z) :
  0 < M ->
  let k1 := Z.max 0 (fexp prec emax (Zdigits2 M + E) - E) in
  exists m3 k2,
    0 <= m3 /\ 0 <= k2 /\
    2 * m3 * 2 ^ (k1 + k2) <= 2 * M + 2 ^ k1 /\
    binary_round_aux prec emax false M E loc_Exact
    = match m3 with
      | 0 => S754_zero false
      | Z.pos m =>
          if E + k1 + k2 <=? emax - prec
          then S754_finite false m (E + k1 + k2) else S754_infinity false
      | Z.neg _ => S754_nan
      end.
Proof.
  intros HM k1. unfold binary_round_aux, shr_fexp. cbn [shr_record_of_loc].
  destruct (shr_spec M E (fexp prec emax (Zdigits2 M + E) - E)) as (q & -> & Hm & Hr);
    [lia|]. fold k1 in Hm, Hr |- *.
  pose proof (round_nearest_even_bound q) as Hrne.
  set (m2 := round_nearest_even (shr_m q) (loc_of_shr_record q)) in *.
  assert (0 < 2 ^ k1) as HP1 by (apply Z.pow_pos_nonneg; lia).
  assert (0 <= shr_m q) as Hq by (rewrite Hm; apply Z.div_pos; lia).
  destruct (shr_spec m2 (E + k1) (fexp prec emax (Zdigits2 m2 + (E + k1)) - (E + k1)))
    as (q2 & -> & Hm2 & _); [lia|].
  set (k2 := Z.max 0 (fexp prec emax (Zdigits2 m2 + (E + k1)) - (E + k1))) in *.
  assert (0 < 2 ^ k2) as HP2 by (apply Z.pow_pos_nonneg; lia).
  exists (shr_m q2), k2. split; [rewrite Hm2; apply Z.div_pos; lia|].
  split; [lia|]. split; [|done].
  rewrite Z.pow_add_r by lia.
  pose proof (Z.div_mod M (2 ^ k1) ltac:(lia)) as HdM.
  pose proof (Z.mod_pos_bound M (2 ^ k1) HP1) as HbM.
  pose proof (Z.div_mod m2 (2 ^ k2) ltac:(lia)) as Hdm.
  pose proof (Z.mod_pos_bound m2 (2 ^ k2) HP2) as Hbm.
  rewrite <- Hm in HdM. rewrite <- Hm2 in Hdm.
  assert (shr_m q2 * 2 ^ k2 <= m2) as H1 by lia.
  assert (2 * m2 * 2 ^ k1 <= 2 * M + 2 ^ k1) as H2.
  { destruct (shr_r q); [specialize (Hr eq_refl)|]; nia. }
  nia.
Qed.


(** A mantissa that already fits is not rounded. *)
Lemma binary_round_aux_exact (m : positive) (E : Z) :
  fexp prec emax (Zdigits2 (Z.pos m) + E) <= E -> E <= emax - prec ->
  binary_round_aux prec emax false (Z.pos m) E loc_Exact = S754_finite false m E.
Proof.
  intros Hfexp HE. unfold binary_round_aux, shr_fexp. cbn [shr_record_of_loc].
  assert (forall k, k <= 0 -> forall q e, shr q e k = (q, e)) as Hshr
    by (intros [] ???; [done|lia|done]).
  rewrite Hshr by lia. cbn [shr_m loc_of_shr_record round_nearest_even].
  rewrite Hshr by lia. cbn [shr_m].
  by rewrite (proj2 (Z.leb_le _ _) HE).
Qed.

Lemma iter_xO_spec (p j : positive) :
  Z.pos (Pos.iter xO p j) = Z.pos p * 2 ^ Z.pos j /\
  Z.pos (digits2_pos (Pos.iter xO p j)) = Z.pos (digits2_pos p) + Z.pos j.
Proof.
  induction j as [|j [IH1 IH2]] using Pos.peano_ind.
  - cbn [Pos.iter digits2_pos]. split; lia.
  - rewrite Pos.iter_succ. cbn [digits2_pos].
    rewrite Pos2Z.inj_xO, IH1, Pos2Z.inj_succ, Z.pow_succ_r by lia. split; lia.
Qed.

Lemma shl_align_spec (p : positive) (ex ex' : Z) :
  ex' <= ex ->
  exists mz,
    shl_align p ex ex' = (mz, ex') /\
    Z.pos mz = Z.pos p * 2 ^ (ex - ex') /\
    Z.pos (digits2_pos mz) = Z.pos (digits2_pos p) + (ex - ex').
Proof.
  intros Hle. unfold shl_align.
  destruct (ex' - ex) as [|j|j] eqn:Hj; [|lia|].
  - exists p. assert (ex = ex') as -> by lia. rewrite Z.sub_diag. split; [done|lia].
  - exists (Pos.iter xO p j). destruct (iter_xO_spec p j) as [H1 H2].
    replace (ex - ex') with (Z.pos j) by lia. done.
Qed.


Lemma digits_le (p : positive) (b : Z) :
  Z.pos p < 2 ^ b -> Z.pos (digits2_pos p) <= b.
Proof.
  intros Hp. destruct (Zdigits2_bounds p) as [Hlo _].
  destruct (Z.le_gt_cases (Z.pos (digits2_pos p)) b) as [|Hgt]; [done|].
  assert (2 ^ b <= 2 ^ (Z.pos (digits2_pos p) - 1)); [|lia].
  destruct (Z.le_gt_cases 0 b); [apply Z.pow_le_mono_r; lia|].
  rewrite (Z.pow_neg_r 2 b) by lia. apply Z.pow_nonneg. lia.
Qed.

(** An integer below [2^53] is a double with a mantissa of 53 bits that
    holds it exactly. *)
Lemma Number_of_Z_finite (n : Z) :
  0 < n < 2 ^ 53 ->
  exists mn en,
    Prim2SF (Number_of_Z n) = S754_finite false mn en /\
    Z.pos mn = n * 2 ^ (- en) /\ -52 <= en <= 0 /\ 2 ^ 52 <= Z.pos mn < 2 ^ 53.
Proof.
  intros [Hn0 Hn]. destruct n as [|p|p]; [lia| |lia].
  unfold Number_of_Z, binary_normalize, binary_round.
  pose proof (Zdigits2_bounds p) as Hd. pose proof (digits_le p 53 Hn) as Hd53.
  set (d := Z.pos (digits2_pos p)) in *.
  assert (fexp prec emax (d + 0) = d - 53) as -> by (unfold fexp, emin, prec, emax; lia).
  destruct (shl_align_spec p 0 (d - 53)) as (mz & -> & Hmz & Hdz); [lia|].
  fold d in Hdz. replace (0 - (d - 53)) with (53 - d) in Hmz, Hdz by lia.
  assert (fexp prec emax (Zdigits2 (Z.pos mz) + (d - 53)) = d - 53) as Hfexp.
  { cbn [Zdigits2]. rewrite Hdz. unfold fexp, emin, prec, emax. lia. }
  rewrite binary_round_aux_exact by (rewrite ?Hfexp; unfold prec, emax; lia).
  exists mz, (d - 53). split.
  { apply Prim2SF_SF2Prim. cbn [valid_binary]. unfold bounded, canonical_mantissa.
    cbn [Zdigits2] in Hfexp. rewrite Hfexp, Z.eqb_refl.
    apply Z.leb_le. unfold prec, emax. lia. }
  replace (- (d - 53)) with (53 - d) by lia. split; [done|]. split; [lia|].
  pose proof (Zdigits2_bounds mz) as Hb. rewrite Hdz in Hb.
  replace (d + (53 - d) - 1) with 52 in Hb by lia.
  replace (d + (53 - d)) with 53 in Hb by lia. done.
Qed.


(** A double [0 <= u < 1] is a zero or [m * 2^e] with [m < 2^53] and
    [e <= -53]. *)
Lemma unit_interval_finite (u : float) :
  (0 <=? u)%float = true -> (u <? 1)%float = true ->
  (exists s, Prim2SF u = S754_zero s) \/
  (exists m e, Prim2SF u = S754_finite false m e /\
               Z.pos m < 2 ^ 53 /\ -1074 <= e <= -53).
Proof.
  rewrite leb_spec, ltb_spec. pose proof (Prim2SF_valid u) as Hvalid.
  change (Prim2SF 0) with (S754_zero false).
  change (Prim2SF 1) with (S754_finite false 4503599627370496 (-52)).
  destruct (Prim2SF u) as [s|[]| |[] m e]; try done; [by left; exists s|].
  intros _ Hlt. right. exists m, e. split; [done|].
  cbn [valid_binary] in Hvalid. unfold bounded, canonical_mantissa in Hvalid.
  apply andb_prop in Hvalid as [Hcanon _]. apply Z.eqb_eq in Hcanon.
  unfold fexp, emin, prec, emax in Hcanon.
  pose proof (Zdigits2_bounds m) as Hd.
  set (d := Z.pos (digits2_pos m)) in *.
  assert (d <= 53 /\ -1074 <= e) as [Hd53 He] by lia.
  split.
  { apply Z.lt_le_trans with (2 ^ d); [lia|]. apply Z.pow_le_mono_r; lia. }
  split; [done|].
  unfold SFltb, SFcompare in Hlt. destruct (Z.compare_spec e (-52)) as [->|?|?];
    [|lia|done].
  rewrite Pos.compare_cont_spec in Hlt. cbn [Pos.switch_Eq] in Hlt.
  destruct (Pos.compare_spec m 4503599627370496) as [?|Hm|?]; try done.
  apply Pos2Z.pos_lt_pos in Hm.
  pose proof (digits_le m 52 Hm). lia.
Qed.


(** For a length [n] below [2^53] and a double [0 <= u < 1], the product
    [u * n] rounds to a double below [n], so that [Math.floor(u * n)] is an
    index below [n]: [u * n <= (1 - 2^-53) * n] is at least half a unit in
    the last place below [n]. *)
Lemma unitDraw_unit_interval (n : Z) (u : float) :
  0 < n < 2 ^ 53 ->
  (0 <=? u)%float = true -> (u <? 1)%float = true ->
  unitDraw n u.
Proof.
  intros Hn Hu0 Hu1. unfold unitDraw, floor_Z. rewrite mul_spec.
  destruct (Number_of_Z_finite n Hn) as (mn & en & -> & Hmn & Hen & Hmn52).
  destruct (unit_interval_finite u Hu0 Hu1) as [[s ->]|(m & e & -> & Hm & He)];
    [cbn; lia|].
  unfold SF64mul, SFmul. cbn [xorb]. rewrite Pos2Z.inj_mul.
  destruct (binary_round_aux_bound (Z.pos m * Z.pos mn) (e + en) ltac:(lia))
    as (m3 & k2 & Hm3 & Hk2 & Hbound & ->).
  set (M := Z.pos m * Z.pos mn) in *. set (E := e + en) in *.
  set (k1 := Z.max 0 (fexp prec emax (Zdigits2 M + E) - E)) in *.
  assert (0 <= k1) as Hk1 by lia.
  assert (0 < 2 ^ k1) as HP1 by (apply Z.pow_pos_nonneg; lia).
  assert (2 ^ k1 < 2 * Z.pos mn) as Hstar.
  { subst k1. unfold fexp, emin, prec, emax.
    pose proof (Zdigits2_bounds (m * mn)) as HD. rewrite Pos2Z.inj_mul in HD.
    fold M in HD. change (Zdigits2 M) with (Z.pos (digits2_pos (m * mn))).
    set (D := Z.pos (digits2_pos (m * mn))) in *.
    destruct (Z.max_spec 0 (Z.max (D + E - 53) (3 - 1024 - 53) - E)) as [[? ->]|[? ->]];
      [|lia].
    destruct (Z.max_spec (D + E - 53) (3 - 1024 - 53)) as [[? ->]|[? ->]].
    - apply Z.le_lt_trans with (2 ^ 52); [apply Z.pow_le_mono_r; lia|lia].
    - assert (2 ^ (D - 1) = 2 ^ (D + E - 53 - E) * 2 ^ 52) as HDeq.
      { rewrite <- Z.pow_add_r by lia. f_equal. lia. }
      set (P := 2 ^ (D + E - 53 - E)) in *. nia. }
  assert (1 <= 2 ^ (- E)) as HPE by (apply (Z.pow_le_mono_r 2 0); lia).
  assert (m3 * 2 ^ (k1 + k2) < n * 2 ^ (- E)) as Hlt.
  { assert (2 ^ 53 <= 2 ^ (- e)) by (apply Z.pow_le_mono_r; lia).
    assert (n * 2 ^ (- E) = Z.pos mn * 2 ^ (- e)) as ->.
    { rewrite Hmn. unfold E. rewrite <- Z.mul_assoc, <- Z.pow_add_r by lia.
      do 2 f_equal. lia. }
    unfold M in Hbound. nia. }
  destruct m3 as [|m'|]; [cbn; lia| |lia].
  set (e3 := E + k1 + k2) in *.
  assert (k1 + k2 = e3 - E) as Hk by lia. rewrite Hk in Hlt.
  destruct (Z.leb_spec 0 e3) as [He3|He3].
  - assert (Z.pos m' * 2 ^ e3 < n) as Hval.
    { replace (e3 - E) with (e3 + - E) in Hlt by lia.
      rewrite Z.pow_add_r in Hlt by lia. nia. }
    assert (0 < 2 ^ e3) by (apply Z.pow_pos_nonneg; lia).
    assert (e3 < 53) as He53.
    { apply (Z.pow_lt_mono_r_iff 2); [lia|lia|]. nia. }
    rewrite (proj2 (Z.leb_le e3 (emax - prec))) by (unfold emax, prec; lia).
    rewrite (proj2 (Z.leb_le 0 e3)) by lia. nia.
  - assert (0 < 2 ^ (- e3)) by (apply Z.pow_pos_nonneg; lia).
    rewrite (proj2 (Z.leb_le e3 (emax - prec))) by (unfold emax, prec; lia).
    rewrite (proj2 (Z.leb_gt 0 e3)) by lia.
    split; [apply Z.div_pos; lia|]. apply Z.div_lt_upper_bound; [lia|].
    assert (2 ^ (- E) = 2 ^ (- e3) * 2 ^ (e3 - E)) as HE.
    { rewrite <- Z.pow_add_r by lia. f_equal. lia. }
    assert (0 < 2 ^ (e3 - E)) by (apply Z.pow_pos_nonneg; lia).
    rewrite HE in Hlt. nia.
Qed.

End Rounding.

(** ** The territory generator: the contract of the generators *)

(** A random source of the unit interval keeps the contract of the three
    lengths the generator indexes. *)
Lemma unitSource_contract (Math_random : nat -> float) (rows cols : Z) :
  unitSource Math_random -> 0 < rows < 2 ^ 53 -> 0 < cols < 2 ^ 53 ->
  randomContract Math_random rows cols.
Proof.
  intros Hunit Hrows Hcols i. destruct (Hunit i) as [H0 H1].
  split; [|split]; by apply unitDraw_unit_interval.
Qed.

Lemma sampleRandom_unit : unitSource sampleRandom.
Proof.
  intros i. unfold sampleRandom.
  assert (i mod 7 < 7)%nat as Hlt by (apply Nat.mod_upper_bound; lia).
  destruct (i mod 7)%nat as [|[|[|[|[|[|[|k]]]]]]]; [..|lia]; by split.
Qed.

(** [Math.floor(Math.random() * n)] is an index below [n], after one draw. *)
Theorem randomIndex_in_range (Math_random : nat -> float) (n : Z) (k : nat) :
  unitSource Math_random -> 0 < n < 2 ^ 53 ->
  exists i, randomIndex Math_random n k = Ok (i, S k) /\ 0 <= i < n.
Proof.
  intros Hunit Hn. destruct (Hunit k) as [H0 H1].
  pose proof (unitDraw_unit_interval n (Math_random k) Hn H0 H1) as Hdraw.
  unfold unitDraw in Hdraw. unfold randomIndex, random, mbind, Rand_bind.
  destruct (floor_Z _) as [i|]; [|done]. by exists i.
Qed.

Lemma randomIndex_in_range_witness :
  exists i, randomIndex sampleRandom 9 2%nat = Ok (i, 3%nat) /\ 0 <= i < 9.
Proof.
  apply (randomIndex_in_range sampleRandom 9 2%nat sampleRandom_unit). lia.
Defined.

Example scenario_6 (Math_sin : float -> float) (Math_random : nat -> float) (n : nat) :
  generateGridWithZones Math_sin Math_random 0 5 100 n = Ok ([], n) /\
  generateGridWithZones Math_sin Math_random 5 0 100 n = Ok ([], n).
Proof. split; reflexivity. Qed.

(** C5: [generateGridWithZones] returns the empty grid, without a draw, when
    [rows <= 0] or [cols <= 0]; otherwise, for every organicness and every
    random source of the unit interval, it returns a grid of [rows] rows of
    [cols] cells, none of them [null] or missing ([rows] and [cols] below
    [2^53], the integers a double counts exactly). *)
Theorem generateGridWithZones_shape (Math_sin : float -> float)
    (Math_random : nat -> float) (rows cols organicness : Z) (n : nat) :
  (rows <= 0 \/ cols <= 0 ->
   generateGridWithZones Math_sin Math_random rows cols organicness n = Ok ([], n)) /\
  (0 < rows < 2 ^ 53 -> 0 < cols < 2 ^ 53 -> unitSource Math_random ->
   exists grid n',
     generateGridWithZones Math_sin Math_random rows cols organicness n = Ok (grid, n') /\
     len grid = rows /\
     Forall (fun gridRow =>
               len gridRow = cols /\
               Forall (fun v => v <> null /\ v <> undefined) gridRow) grid).
Proof.
  split.
  - intros Hempty. unfold generateGridWithZones. by rewrite bool_decide_eq_true_2.
  - intros Hrows Hcols Hunit.
    pose proof (unitSource_contract _ _ _ Hunit Hrows Hcols) as Hcontract.
    destruct (succeeds_generateGridWithZones Math_sin Math_random rows cols
                (proj1 Hrows) (proj1 Hcols) Hcontract organicness n)
      as (grid & n' & Hrun & [Hlen Hrow] & Hcolors).
    exists grid, n'. split; [done|]. split; [done|].
    rewrite Forall_forall in Hrow, Hcolors. apply Forall_forall.
    intros gridRow Hin. split; [auto|].
    eapply Forall_impl; [exact (Hcolors _ Hin)|].
    by intros v (c & -> & _).
Qed.

Lemma generateGridWithZones_shape_witness :
  generateGridWithZones sineTable sampleRandom 0 5 100 0%nat = Ok ([], 0%nat) /\
  exists grid n',
    generateGridWithZones sineTable sampleRandom 3 4 50 0%nat = Ok (grid, n') /\
    len grid = 3 /\
    Forall (fun gridRow =>
              len gridRow = 4 /\
              Forall (fun v => v <> null /\ v <> undefined) gridRow) grid.
Proof.
  split.
  - apply (proj1 (generateGridWithZones_shape sineTable sampleRandom 0 5 100 0%nat)). lia.
  - apply (proj2 (generateGridWithZones_shape sineTable sampleRandom 3 4 50 0%nat));
      [lia|lia|apply sampleRandom_unit].
Defined.

(** C10: the palette has nine colours, and for positive [rows] and [cols]
    (below [2^53]), every organicness and every random source of the unit
    interval, every cell of the grid [generateGrid] returns and of the grid
    [generateGridWithZones] returns holds one of them. *)
Theorem generators_use_palette (Math_sin : float -> float)
    (Math_random : nat -> float) (rows cols organicness : Z) (n : nat) :
  0 < rows < 2 ^ 53 -> 0 < cols < 2 ^ 53 -> unitSource Math_random ->
  length CYBERPUNK_PALETTE = 9%nat /\
  (exists grid n',
      generateGrid Math_random rows cols n = Ok (grid, n') /\
      Forall (Forall (fun v => exists c, v = hex c /\ c ∈ CYBERPUNK_PALETTE)) grid) /\
  (exists grid n',
      generateGridWithZones Math_sin Math_random rows cols organicness n = Ok (grid, n') /\
      Forall (Forall (fun v => exists c, v = hex c /\ c ∈ CYBERPUNK_PALETTE)) grid).
Proof.
  intros Hrows Hcols Hunit.
  pose proof (unitSource_contract _ _ _ Hunit Hrows Hcols) as Hcontract.
  destruct Hrows as [Hrows _], Hcols as [Hcols _].
  split; [done|]. split.
  - destruct (succeeds_generateGrid Math_random rows cols Hrows Hcols Hcontract n)
      as (grid & n' & Hrun & _ & Hcolors).
    by exists grid, n'.
  - destruct (succeeds_generateGridWithZones Math_sin Math_random rows cols
                Hrows Hcols Hcontract organicness n)
      as (grid & n' & Hrun & _ & Hcolors).
    by exists grid, n'.
Qed.

Lemma generators_use_palette_witness :
  length CYBERPUNK_PALETTE = 9%nat /\
  (exists grid n',
      generateGrid sampleRandom 3 4 0%nat = Ok (grid, n') /\
      Forall (Forall (fun v => exists c, v = hex c /\ c ∈ CYBERPUNK_PALETTE)) grid) /\
  (exists grid n',
      generateGridWithZones sineTable sampleRandom 3 4 100 0%nat = Ok (grid, n') /\
      Forall (Forall (fun v => exists c, v = hex c /\ c ∈ CYBERPUNK_PALETTE)) grid).
Proof.
  apply (generators_use_palette sineTable sampleRandom 3 4 100 0%nat);
    [lia|lia|apply sampleRandom_unit].
Defined.

Example generateGridWithZones_sample :
  fst <$> generateGridWithZones sineTable sampleRandom 2 3 100 0%nat
  = Ok [[hex "#FFBE0B"; hex "#FFBE0B"; hex "#FFBE0B"];
        [hex "#06FFA5"; hex "#06FFA5"; hex "#FFBE0B"]].
Proof. vm_compute. reflexivity. Qed.

(** ** The territory generator: numbers *)

(** C7: the territory count is the floor of a double: forming
    [(100 - organicness) / 100] before the product rounds, and for 15 rows,
    7 columns and organicness 43 the sum lands just below 62, where the
    formula in exact arithmetic gives 62 (and for 5 rows, 21 columns and
    organicness 42 just below 63). *)
Theorem calculateTerritoryCount_rounds_below :
  calculateTerritoryCount 15 7 43 = 61%float /\
  territoryCount 15 7 43 = Some 61 /\ territoryCountExact 15 7 43 = 62 /\
  calculateTerritoryCount 5 21 42 = 62%float /\
  territoryCount 5 21 42 = Some 62 /\ territoryCountExact 5 21 42 = 63.
Proof. repeat split; vm_compute; reflexivity. Qed.

(** At the two ends of the organicness range the count is exact, here for
    every grid of up to 32 by 32 cells. *)
Lemma territoryCount_ends (rows cols : Z) :
  1 <= rows <= 32 -> 1 <= cols <= 32 ->
  territoryCount rows cols 100 = Some (Z.max 2 (Z.sqrt (rows * cols) / 2)) /\
  territoryCount rows cols 0 = Some (rows * cols).
Proof.
  intros Hrows Hcols.
  assert (forallb (fun r => forallb (fun c =>
            bool_decide (territoryCount r c 100 = Some (Z.max 2 (Z.sqrt (r * c) / 2)))
            && bool_decide (territoryCount r c 0 = Some (r * c)))
            (seqZ 1 32)) (seqZ 1 32) = true) as Hall by (vm_compute; reflexivity).
  rewrite forallb_forall in Hall.
  specialize (Hall rows). rewrite forallb_forall in Hall.
  assert (forall k, 1 <= k <= 32 -> In k (seqZ 1 32)) as Hin.
  { intros k Hk. apply list_elem_of_In, elem_of_seqZ. lia. }
  specialize (Hall (Hin _ Hrows) cols (Hin _ Hcols)).
  apply andb_true_iff in Hall as [H100 H0].
  split; by eapply bool_decide_eq_true_1.
Qed.

Lemma territoryCount_ends_witness :
  territoryCount 15 7 100 = Some (Z.max 2 (Z.sqrt (15 * 7) / 2)) /\
  territoryCount 15 7 0 = Some (15 * 7).
Proof. apply (territoryCount_ends 15 7); lia. Defined.

(** In between, the count is the exact one or one less, here for every grid
    of up to 15 by 7 cells. *)
Lemma territoryCount_within_one (rows cols organicness : Z) :
  1 <= rows <= 15 -> 1 <= cols <= 7 -> 0 <= organicness <= 100 ->
  exists count,
    territoryCount rows cols organicness = Some count /\
    territoryCountExact rows cols organicness - 1 <= count
    <= territoryCountExact rows cols organicness.
Proof.
  intros Hrows Hcols Horg.
  assert (forallb (fun r => forallb (fun c => forallb (fun o =>
            match territoryCount r c o with
            | Some count => (territoryCountExact r c o - 1 <=? count)
                            && (count <=? territoryCountExact r c o)
            | None => false
            end) (seqZ 0 101)) (seqZ 1 7)) (seqZ 1 15) = true) as Hall
    by (vm_compute; reflexivity).
  rewrite forallb_forall in Hall.
  specialize (Hall rows). rewrite forallb_forall in Hall.
  assert (forall a n k, a <= k < a + n -> In k (seqZ a n)) as Hin.
  { intros a n k Hk. apply list_elem_of_In, elem_of_seqZ. lia. }
  specialize (Hall (Hin 1 15 rows ltac:(lia)) cols (Hin 1 7 cols ltac:(lia))).
  rewrite forallb_forall in Hall.
  specialize (Hall organicness (Hin 0 101 organicness ltac:(lia))).
  destruct (territoryCount rows cols organicness) as [count|]; [|done].
  exists count. split; [done|].
  apply andb_true_iff in Hall as [Hlo Hhi]. lia.
Qed.

Lemma territoryCount_within_one_witness :
  exists count,
    territoryCount 15 7 43 = Some count /\
    territoryCountExact 15 7 43 - 1 <= count <= territoryCountExact 15 7 43.
Proof. apply (territoryCount_within_one 15 7 43); lia. Defined.

(** C8: the growth probability is the sum
    [0.3 + 0.4·|noise(row + seed, col + seed)| + 0.4·organicness/100], and
    nothing clamps it: for the cell [(2, 0)], seed 0 and organicness 100 the
    noise is 0.8952... and the result is 1.0580..., outside [[0, 1]]. *)
Theorem calculateGrowthProbability_exceeds_one :
  (forall (Math_sin : float -> float) (row col seed organicness : float),
      calculateGrowthProbability Math_sin row col seed organicness
      = (0.3 + Math_abs (perlinNoise Math_sin (row + seed) (col + seed) 2) * 0.4
         + organicness / 100 * 0.4)%float) /\
  Math_abs (perlinNoise sineTable (2 + 0) (0 + 0) 2) = 0x1.ca5b365488000p-1%float /\
  calculateGrowthProbability sineTable 2 0 0 100 = 0x1.0edf0addb4ccdp+0%float /\
  PrimFloat.ltb 1 (calculateGrowthProbability sineTable 2 0 0 100) = true.
Proof. repeat split; vm_compute; reflexivity. Qed.



(** ** The grid model: how reads and writes compose *)

Section GridAlgebra.

Implicit Types (grid g : Grid) (row col r c : Z) (p q : Position) (x y : Color).

(** Two grids of one shape that hold the same cells are equal. *)
Lemma grid_ext g g' :
  shape g = shape g' -> (forall p, cellAt g p = cellAt g' p) -> g = g'.
Proof.
  unfold shape. intros Hshape Hcells. apply list_eq. intros i.
  pose proof (f_equal (fun l => l !! i) Hshape) as Hi. simpl in Hi.
  rewrite !list_lookup_fmap in Hi.
  destruct (g !! i) as [gridRow|] eqn:Hg, (g' !! i) as [gridRow'|] eqn:Hg';
    simpl in Hi; try done.
  f_equal. apply list_eq. intros j.
  specialize (Hcells (Z.of_nat i, Z.of_nat j)).
  unfold cellAt, js_index in Hcells. simpl in Hcells.
  destruct (Z.ltb_spec (Z.of_nat i) 0); [lia|].
  destruct (Z.ltb_spec (Z.of_nat j) 0); [lia|].
  by rewrite !Nat2Z.id, Hg, Hg' in Hcells.
Qed.

Lemma shape_setCellColor g row col x : shape (setCellColor g row col x) = shape g.
Proof.
  unfold shape, setCellColor. destruct (isValidPosition g row col); simpl; [|done].
  apply list_eq. intros i. rewrite !list_lookup_fmap, list_lookup_imap.
  destruct (g !! i) as [gridRow|]; simpl; [|done].
  destruct (Z.of_nat i =? row); [|done]. by rewrite length_imap.
Qed.

Lemma shape_dims g g' : shape g = shape g' -> getGridDimensions g = getGridDimensions g'.
Proof.
  unfold shape, getGridDimensions, len. intros Hshape.
  pose proof (f_equal length Hshape) as Hlen. rewrite !length_fmap in Hlen.
  destruct g as [|row0 g], g' as [|row0' g']; simpl in *; try done.
  injection Hshape as -> _. by rewrite Hlen.
Qed.

Lemma shape_rectangular g g' : shape g = shape g' -> rectangular g -> rectangular g'.
Proof.
  intros Hshape. unfold rectangular. rewrite (shape_dims _ _ Hshape).
  generalize ((getGridDimensions g').2). intros n.
  rewrite !Forall_lookup. intros Hrect i gridRow' Hi.
  pose proof (f_equal (fun l => l !! i) Hshape) as Hrow. simpl in Hrow.
  unfold shape in Hrow. rewrite !list_lookup_fmap, Hi in Hrow.
  destruct (g !! i) as [gridRow|] eqn:Hg; simpl in Hrow; [|done].
  injection Hrow as Hrow. specialize (Hrect _ _ Hg). unfold len in *. lia.
Qed.

Lemma shape_processCellsAtLevel g cells t :
  shape (processCellsAtLevel g cells t) = shape g.
Proof.
  unfold processCellsAtLevel. revert g.
  induction cells as [|[r c] cells IH]; intros g; simpl; [done|].
  by rewrite IH, shape_setCellColor.
Qed.


Lemma isValidPosition_setCellColor g row col x r c :
  isValidPosition (setCellColor g row col x) r c = isValidPosition g r c.
Proof. apply isValidPosition_dims, getGridDimensions_setCellColor. Qed.

Lemma setCellColor_overwrite g row col x y :
  setCellColor (setCellColor g row col x) row col y = setCellColor g row col y.
Proof.
  destruct (isValidPosition g row col) eqn:Hvalid.
  2: { by rewrite !setCellColor_invalid by (by rewrite ?isValidPosition_setCellColor). }
  apply grid_ext; [by rewrite !shape_setCellColor|].
  intros p. rewrite !cellAt_setCellColor by (by rewrite ?isValidPosition_setCellColor).
  destruct (decide (p = (row, col))); [|done]. by destruct (cellAt g p).
Qed.

Lemma setCellColor_comm g row col x row' col' y :
  (row, col) <> (row', col') ->
  setCellColor (setCellColor g row col x) row' col' y
  = setCellColor (setCellColor g row' col' y) row col x.
Proof.
  intros Hne.
  destruct (isValidPosition g row col) eqn:Hvalid.
  2: { by rewrite (setCellColor_invalid g row col), (setCellColor_invalid _ row col)
         by (by rewrite ?isValidPosition_setCellColor). }
  destruct (isValidPosition g row' col') eqn:Hvalid'.
  2: { by rewrite (setCellColor_invalid g row' col'), (setCellColor_invalid _ row' col')
         by (by rewrite ?isValidPosition_setCellColor). }
  apply grid_ext; [by rewrite !shape_setCellColor|].
  intros p. rewrite !cellAt_setCellColor by (by rewrite ?isValidPosition_setCellColor).
  destruct (decide (p = (row, col))) as [Hp|], (decide (p = (row', col'))) as [Hp'|];
    try done. destruct Hne. congruence.
Qed.

Lemma setCellColor_same g row col x :
  cellAt g (row, col) = Some x -> setCellColor g row col x = g.
Proof.
  intros Hx. destruct (isValidPosition g row col) eqn:Hvalid.
  2: { by apply setCellColor_invalid. }
  apply grid_ext; [by rewrite shape_setCellColor|].
  intros p. rewrite cellAt_setCellColor by done.
  destruct (decide (p = (row, col))) as [->|]; [|done]. by rewrite Hx.
Qed.

End GridAlgebra.

(** Writes to one cell replace each other, writes to two cells commute, and
    writing the colour a cell holds changes nothing. *)
Theorem setCellColor_compose (g : Grid) (row col row' col' : Z) (x y : Color) :
  setCellColor (setCellColor g row col x) row col y = setCellColor g row col y /\
  ((row, col) <> (row', col') ->
   setCellColor (setCellColor g row col x) row' col' y
   = setCellColor (setCellColor g row' col' y) row col x) /\
  (getCellColor g row col = Ok (Some x) -> setCellColor g row col x = g).
Proof.
  split; [apply setCellColor_overwrite|]. split; [apply setCellColor_comm|].
  rewrite getCellColor_cellAt. destruct (isValidPosition g row col); [|done].
  intros [= Hx]. by apply setCellColor_same.
Qed.

Lemma setCellColor_compose_witness :
  let g := [["a"; "b"]; ["c"; "d"]] in
  setCellColor (setCellColor g 0 1 "x") 0 1 "y" = setCellColor g 0 1 "y" /\
  setCellColor (setCellColor g 0 1 "x") 1 0 "y"
  = setCellColor (setCellColor g 1 0 "y") 0 1 "x" /\
  setCellColor g 0 1 "b" = g.
Proof.
  pose proof (setCellColor_compose [["a"; "b"]; ["c"; "d"]] 0 1 1 0 "x" "y") as (H1 & H2 & _).
  pose proof (setCellColor_compose [["a"; "b"]; ["c"; "d"]] 0 1 1 0 "b" "y") as (_ & _ & H3).
  split; [exact H1|]. split; [apply H2; discriminate|]. apply H3. reflexivity.
Defined.

(** A read never raises; it gives [undefined] at an invalid position and, in
    a rectangular grid, a colour at a valid one; after a write it gives the
    colour written at the cell written and the colour held before at every
    other position. *)
Theorem getCellColor_setCellColor (g : Grid) (row col r c : Z) (x : Color) :
  (exists v, getCellColor g r c = Ok v) /\
  (isValidPosition g r c = false -> getCellColor g r c = Ok None) /\
  (rectangular g -> isValidPosition g r c = true ->
   exists y, getCellColor g r c = Ok (Some y)) /\
  (rectangular g -> isValidPosition g row col = true ->
   getCellColor (setCellColor g row col x) row col = Ok (Some x)) /\
  ((r, c) <> (row, col) ->
   getCellColor (setCellColor g row col x) r c = getCellColor g r c).
Proof.
  rewrite !getCellColor_cellAt, !isValidPosition_setCellColor.
  split; [eauto|]. split; [by intros ->|]. split; [|split].
  - intros Hrect Hvalid. rewrite Hvalid.
    apply (cellAt_is_Some _ _ _ Hrect) in Hvalid as [y ->]. by exists y.
  - intros Hrect Hvalid. rewrite Hvalid, cellAt_setCellColor, decide_True by done.
    apply (cellAt_is_Some _ _ _ Hrect) in Hvalid as [y ->]. done.
  - intros Hne. destruct (isValidPosition g r c); [|done].
    destruct (isValidPosition g row col) eqn:Hvalid.
    + by rewrite cellAt_setCellColor, decide_False.
    + by rewrite setCellColor_invalid.
Qed.

Lemma getCellColor_setCellColor_witness :
  let g := [["a"; "b"]; ["c"; "d"]] in
  getCellColor g 7 0 = Ok None /\
  (exists y, getCellColor g 1 1 = Ok (Some y)) /\
  getCellColor (setCellColor g 1 0 "x") 1 0 = Ok (Some "x") /\
  getCellColor (setCellColor g 1 0 "x") 1 1 = getCellColor g 1 1.
Proof.
  assert (rectangular [["a"; "b"]; ["c"; "d"]]) as Hrect
    by (unfold rectangular; repeat constructor).
  pose proof (getCellColor_setCellColor [["a"; "b"]; ["c"; "d"]] 1 0 7 0 "x")
    as (_ & H1 & _).
  pose proof (getCellColor_setCellColor [["a"; "b"]; ["c"; "d"]] 1 0 1 1 "x")
    as (_ & _ & H2 & H3 & H4).
  split; [apply H1; reflexivity|]. split; [apply H2; [exact Hrect|reflexivity]|].
  split; [apply H3; [exact Hrect|reflexivity]|]. apply H4. discriminate.
Defined.

Section LevelAlgebra.

Implicit Types (grid g : Grid) (row col r c : Z) (p q : Position) (x y t : Color).
Implicit Types (cells : list Position).

(** Cells at invalid positions do not count in a level. *)
Lemma processCellsAtLevel_valid g cells t :
  processCellsAtLevel g cells t
  = processCellsAtLevel g (filter (fun q => isValidPosition g q.1 q.2 = true) cells) t.
Proof.
  unfold processCellsAtLevel. revert g.
  induction cells as [|[r c] cells IH]; intros g; [done|].
  rewrite filter_cons. simpl.
  destruct (decide (isValidPosition g r c = true)) as [Hvalid|Hvalid]; simpl.
  - rewrite IH. f_equal. apply list_filter_iff. intros q.
    by rewrite isValidPosition_setCellColor.
  - rewrite setCellColor_invalid by (by destruct (isValidPosition g r c)). apply IH.
Qed.

Lemma cellAt_processCellsAtLevel_any g cells t p :
  cellAt (processCellsAtLevel g cells t) p =
  if decide (p ∈ cells /\ isValidPosition g p.1 p.2 = true)
  then (fun _ => t) <$> cellAt g p else cellAt g p.
Proof.
  rewrite processCellsAtLevel_valid, cellAt_processCellsAtLevel.
  - destruct (decide (p ∈ filter _ cells)) as [Hin|Hin];
      rewrite list_elem_of_filter in Hin;
      destruct (decide (p ∈ cells /\ _)) as [Hin'|Hin']; tauto.
  - apply Forall_forall. by intros q [? _]%list_elem_of_filter.
Qed.

End LevelAlgebra.

(** A level repaints its valid cells and nothing else, keeps the lengths of
    the rows, and gives the same grid for every list of the same cells,
    whatever their order and however often they are listed. *)
Theorem processCellsAtLevel_cells (g : Grid) (cells cells' : list Position) (t : Color) :
  shape (processCellsAtLevel g cells t) = shape g /\
  (forall p,
      cellAt (processCellsAtLevel g cells t) p =
      if decide (p ∈ cells /\ isValidPosition g p.1 p.2 = true)
      then (fun _ => t) <$> cellAt g p else cellAt g p) /\
  ((forall p, p ∈ cells <-> p ∈ cells') ->
   processCellsAtLevel g cells t = processCellsAtLevel g cells' t).
Proof.
  split; [apply shape_processCellsAtLevel|]. split; [apply cellAt_processCellsAtLevel_any|].
  intros Hsame. apply grid_ext; [by rewrite !shape_processCellsAtLevel|].
  intros p. rewrite !cellAt_processCellsAtLevel_any.
  destruct (decide (p ∈ cells /\ _)) as [Hin|Hin];
    destruct (decide (p ∈ cells' /\ _)) as [Hin'|Hin']; try done;
    rewrite Hsame in Hin; tauto.
Qed.

Lemma processCellsAtLevel_cells_witness :
  processCellsAtLevel [["a"; "b"]; ["c"; "d"]] [(0, 1); (1, 0)] "t"
  = processCellsAtLevel [["a"; "b"]; ["c"; "d"]] [(1, 0); (0, 1); (1, 0)] "t".
Proof.
  apply (processCellsAtLevel_cells [["a"; "b"]; ["c"; "d"]]
           [(0, 1); (1, 0)] [(1, 0); (0, 1); (1, 0)] "t").
  intros p. rewrite !elem_of_cons, !elem_of_nil. tauto.
Defined.

Section SnapshotShape.

Implicit Types (grid g G : Grid) (snapshots : list Grid) (fuel : nat).

Lemma floodFillRecursive_shape fuel g G (L : list Position)
    (originalColor : option Color) (t : Color) (V : gset Position)
    (rows cols : Z) snapshots result :
  floodFillRecursive fuel G L originalColor t V rows cols snapshots = Ok result ->
  shape G = shape g -> Forall (fun s => shape s = shape g) snapshots ->
  Forall (fun s => shape s = shape g) result.
Proof.
  revert G L V snapshots.
  induction fuel as [|fuel IH]; intros G L V snapshots; [done|].
  simpl. case_bool_decide; [by intros [= <-]|].
  rewrite filterM_shouldProcessCell; simpl.
  case_bool_decide; [by intros [= <-]|].
  destruct (collectNextLevel _ _ _ _) as [next V'].
  intros Hrun HG Hsnap. eapply IH; [exact Hrun| |].
  - by rewrite shape_processCellsAtLevel.
  - apply Forall_app. split; [done|]. apply Forall_singleton.
    by rewrite cloneGrid_id, shape_processCellsAtLevel.
Qed.

Lemma floodFill_shape fuel g row col t snapshots :
  floodFill fuel g row col t = Ok snapshots ->
  Forall (fun s => shape s = shape g) snapshots.
Proof.
  unfold floodFill. rewrite cloneGrid_id, getCellColor_cellAt.
  destruct (isValidPosition g row col); simpl.
  2: { intros [= <-]. by apply Forall_singleton. }
  case_bool_decide; [intros [= <-]; by apply Forall_singleton|].
  destruct (getGridDimensions g) as [rows cols].
  intros Hrun. eapply floodFillRecursive_shape; [exact Hrun|done|].
  by apply Forall_singleton.
Qed.

End SnapshotShape.

(** Every snapshot of a fill has the rows of the grid, each of its length:
    the same dimensions, and rectangular when the grid is. *)
Theorem floodFill_keeps_shape (g : Grid) (row col : Z) (t : Color) :
  exists snapshots,
    floodFill (area g + 1) g row col t = Ok snapshots /\
    Forall (fun s => shape s = shape g /\
                     getGridDimensions s = getGridDimensions g /\
                     (rectangular g -> rectangular s)) snapshots.
Proof.
  destruct (floodFill_terminates g row col t) as (snapshots & Hrun & _).
  exists snapshots. split; [done|].
  eapply Forall_impl; [by eapply floodFill_shape|].
  intros s Hs. split; [done|]. split; [by apply shape_dims|].
  by apply shape_rectangular.
Qed.

(** ** The flood-fill engine: neighbours and levels *)

(** The neighbours of a cell are the cells of the rectangle side by side
    with it, each once, never the cell itself, four at most; the relation is
    symmetric inside the rectangle; and a cell off the border has its four
    neighbours in the order up, down, left, right. *)
Theorem getNeighbors_sides (totalRows totalCols row col : Z) :
  (forall q, q ∈ getNeighbors totalRows totalCols row col <->
             adjacent (row, col) q /\ inBounds totalRows totalCols q) /\
  NoDup (getNeighbors totalRows totalCols row col) /\
  (length (getNeighbors totalRows totalCols row col) <= 4)%nat /\
  ((row, col) ∉ getNeighbors totalRows totalCols row col) /\
  (inBounds totalRows totalCols (row, col) ->
   forall q, q ∈ getNeighbors totalRows totalCols row col ->
             (row, col) ∈ getNeighbors totalRows totalCols q.1 q.2) /\
  (0 < row < totalRows - 1 -> 0 < col < totalCols - 1 ->
   getNeighbors totalRows totalCols row col
   = [ (row - 1, col); (row + 1, col); (row, col - 1); (row, col + 1) ]).
Proof.
  split; [apply elem_of_getNeighbors|]. split; [apply NoDup_getNeighbors|].
  split; [|split; [|split]].
  - unfold getNeighbors. etrans; [apply length_filter|]. done.
  - rewrite elem_of_getNeighbors. unfold adjacent. simpl. lia.
  - intros Hb [r c] [Hadj _]%elem_of_getNeighbors. simpl.
    apply elem_of_getNeighbors. split; [by apply adjacent_sym|done].
  - intros Hrow Hcol. unfold getNeighbors.
    rewrite !filter_cons, filter_nil.
    repeat (destruct (decide _) as [_|Hno]; [|lia]). done.
Qed.

Lemma getNeighbors_sides_witness :
  (forall q, q ∈ getNeighbors 5 5 0 0 -> (0, 0) ∈ getNeighbors 5 5 q.1 q.2) /\
  getNeighbors 5 5 2 2 = [ (1, 2); (3, 2); (2, 1); (2, 3) ].
Proof.
  pose proof (getNeighbors_sides 5 5 0 0) as (_ & _ & _ & _ & Hsym & _).
  pose proof (getNeighbors_sides 5 5 2 2) as (_ & _ & _ & _ & _ & Hin).
  split; [apply Hsym; unfold inBounds; simpl; lia|]. apply Hin; lia.
Defined.

(** The next level of a fill lists no cell twice, although two cells of a
    level may share a neighbour: it holds exactly the cells of the rectangle
    that are next to a processed cell and were not visited, and these are
    what the visited set is extended by. *)
Theorem collectNextLevel_fresh (rows cols : Z) (cells : list Position)
    (visited : gset Position) :
  let '(nextLevel, visited') := collectNextLevel rows cols cells visited in
  NoDup nextLevel /\
  visited' = visited ∪ list_to_set nextLevel /\
  (forall q, q ∈ nextLevel <->
             (q ∉ visited) /\ inBounds rows cols q /\
             exists p, p ∈ cells /\ adjacent p q).
Proof.
  destruct (collectNextLevel_spec rows cols cells visited)
    as (next & -> & Hnd & Hnext & Hclose).
  split; [done|]. split; [done|]. intros q. split; [apply Hnext|].
  intros (Hq & Hb & p & Hp & Hadj).
  specialize (Hclose p q Hp Hadj Hb).
  apply elem_of_union in Hclose as [?|?%elem_of_list_to_set]; done.
Qed.

(** ** The flood-fill engine: one step per snapshot *)

Section FloodFillLayers.

Implicit Types (grid g G : Grid) (row col r c : Z) (p q : Position).
Implicit Types (visited V : gset Position) (cells level L : list Position).
Implicit Types (snapshots : list Grid) (fuel : nat).

Lemma within_color g (o : Color) p n q : connectedWithin g o p n q -> cellAt g q = Some o.
Proof. by intros [|]. Qed.

Lemma within_S g (o : Color) p n q :
  connectedWithin g o p n q -> connectedWithin g o p (S n) q.
Proof.
  induction 1 as [n Hc|n q r _ IH Hadj Hc]; [by apply within_start|].
  by eapply within_step.
Qed.

Lemma within_le g (o : Color) p n m q :
  (n <= m)%nat -> connectedWithin g o p n q -> connectedWithin g o p m q.
Proof. induction 1; [done|]. intros Hq. by apply within_S, IHle. Qed.

Lemma within_connected g (o : Color) p n q :
  connectedWithin g o p n q -> connected g o p q.
Proof.
  induction 1 as [n Hc|n q r _ IH Hadj Hc]; [by apply connected_start|].
  by eapply connected_step.
Qed.

Lemma connected_within g (o : Color) p q :
  connected g o p q -> exists n, connectedWithin g o p n q.
Proof.
  induction 1 as [Hc|q r _ [n IH] Hadj Hc].
  - exists O. by apply within_start.
  - exists (S n). by eapply within_step.
Qed.

Lemma within_0 g (o : Color) p q : connectedWithin g o p 0 q -> q = p.
Proof. by inversion 1. Qed.

Variables (g0 : Grid) (o t : Color) (start : Position) (rows cols : Z).
Hypothesis rect0 : rectangular g0.
Hypothesis dims0 : getGridDimensions g0 = (rows, cols).
Hypothesis start0 : cellAt g0 start = Some o.
Hypothesis fresh : o <> t.

Local Abbreviation level_inv := (level_inv g0 o t start rows cols).
Local Abbreviation layer_inv := (layer_inv g0 o t start rows cols).
Local Abbreviation within := (connectedWithin g0 o start).

(** The cells a grid between two levels has repainted. *)
Lemma level_inv_differs G L V snapshots p :
  level_inv G L V snapshots ->
  differs g0 G p <-> cellAt g0 p = Some o /\ p ∈ V /\ p ∉ L.
Proof.
  intros [_ _ Hcells _ Hvisited _ _ _ _]. unfold differs. split.
  - intros Hdiff. destruct (Hcells p) as [?|(_ & ? & _ & ? & ?)]; done.
  - intros (Hc & HV & HL). rewrite (Hvisited p HV HL Hc), Hc. congruence.
Qed.

Lemma layer_inv_step k G L V snapshots :
  layer_inv k G L V snapshots ->
  let cells := filter (fun p => currentColor G p = Some o) L in
  let G' := processCellsAtLevel G cells t in
  cells <> [] ->
  forall next,
    NoDup next ->
    (forall q, q ∈ next ->
               (q ∉ V) /\ inBounds rows cols q /\ exists p, p ∈ cells /\ adjacent p q) ->
    (forall p q, p ∈ cells -> adjacent p q -> inBounds rows cols q ->
                 q ∈ V ∪ list_to_set next) ->
    layer_inv (S k) G' next (V ∪ list_to_set next) (snapshots ++ [cloneGrid G']).
Proof.
  intros [Hlevel Hwithin Hlen Hlayers] cells G' Hne next Hnd Hnext Hclose.
  pose proof (level_inv_step g0 o t start rows cols rect0 dims0 start0 fresh
                G L V snapshots Hlevel Hne next Hnd Hnext Hclose) as Hlevel'.
  fold cells in Hlevel'. fold G' in Hlevel'.
  pose proof Hlevel as [Hdims Hrect Hcells HL Hvisited Hclosed Hstart _ _].
  assert (forall p, p ∈ L -> cellAt G p = cellAt g0 p) as Hunpainted.
  { intros p Hp. destruct (Hcells p) as [?|(_ & _ & _ & _ & ?)]; done. }
  assert (forall p, p ∈ cells <-> p ∈ L /\ cellAt g0 p = Some o) as Hcells_iff.
  { intros p. unfold cells. rewrite list_elem_of_filter. unfold currentColor.
    split.
    - intros [Hc Hp]. split; [done|]. rewrite <- (Hunpainted p Hp).
      by destruct (isValidPosition G p.1 p.2).
    - intros [Hp Hc]. split; [|done].
      destruct (HL p Hp) as (_ & Hb & _).
      apply (inBounds_valid rows cols G p Hdims) in Hb.
      by rewrite Hb, (Hunpainted p Hp). }
  assert (forall p, cellAt g0 p = Some o ->
                    p ∈ V ∪ list_to_set next <-> within (S k) p) as Hwithin'.
  { intros p Hc. split.
    - intros [HV|Hin%elem_of_list_to_set]%elem_of_union.
      + by apply within_S, Hwithin.
      + destruct (Hnext p Hin) as (_ & _ & q & [Hq Hqc]%Hcells_iff & Hadj).
        eapply within_step; [|done|done]. apply Hwithin; [done|].
        by destruct (HL q Hq).
    - inversion 1 as [n _|n q r Hq Hadj _]; subst.
      { by apply elem_of_union_l. }
      pose proof (within_color _ _ _ _ _ Hq) as Hqc.
      assert (q ∈ V) as HqV by (by apply Hwithin).
      assert (inBounds rows cols p) as Hb by (by eapply (cellAt_inBounds rows cols g0)).
      destruct (decide (q ∈ L)) as [HqL|HqL].
      + apply (Hclose q p); [|done|done]. by apply Hcells_iff.
      + apply elem_of_union_l. apply (Hclosed q p); [|done|done|done].
        by apply Hvisited. }
  split; [done|done|by rewrite length_app, Hlen; simpl; lia|].
  intros j s Hj p.
  apply lookup_snoc_Some in Hj as [[_ Hj]|[Hj <-]]; [by apply (Hlayers j s)|].
  assert (j = k) as -> by lia. rewrite cloneGrid_id.
  rewrite (level_inv_differs _ _ _ _ p Hlevel'). split.
  - intros (Hc & [HV|Hin%elem_of_list_to_set]%elem_of_union & Hnin); [|done].
    by apply Hwithin.
  - intros Hp. pose proof (within_color _ _ _ _ _ Hp) as Hc.
    assert (p ∈ V) as HV by (by apply Hwithin).
    split; [done|]. split; [by apply elem_of_union_l|].
    intros Hin. by destruct (Hnext p Hin).
Qed.

Lemma floodFillRecursive_layered fuel k G L V snapshots result :
  layer_inv k G L V snapshots ->
  floodFillRecursive fuel G L (Some o) t V rows cols snapshots = Ok result ->
  layered g0 o start result.
Proof.
  revert k G L V snapshots.
  induction fuel as [|fuel IH]; intros k G L V snapshots Hinv; [done|].
  simpl. case_bool_decide as HL.
  { intros [= <-]. by destruct Hinv. }
  rewrite filterM_shouldProcessCell; simpl.
  case_bool_decide as Hcells.
  { intros [= <-]. by destruct Hinv. }
  destruct (collectNextLevel_spec rows cols
              (filter (fun p => currentColor G p = Some o) L) V)
    as (next & -> & Hnd & Hnext & Hclose).
  apply (IH (S k)). by apply layer_inv_step.
Qed.

Lemma layer_inv_init :
  layer_inv 0 g0 [start] {[ createPositionKey start.1 start.2 ]} [cloneGrid g0].
Proof.
  split.
  - by apply level_inv_init.
  - unfold createPositionKey. rewrite <- surjective_pairing. intros p Hc. split.
    + intros ->%elem_of_singleton. by apply within_start.
    + intros ->%within_0. set_solver.
  - done.
  - intros j s Hj. done.
Qed.

End FloodFillLayers.

Section FloodFillSteps.

Implicit Types (g : Grid) (row col : Z) (t o : Color) (p : Position).

Lemma floodFill_layered g row col t o :
  rectangular g -> cellAt g (row, col) = Some o -> o <> t ->
  exists snapshots,
    floodFill (area g + 1) g row col t = Ok snapshots /\
    filled g o t (row, col) snapshots /\
    layered g o (row, col) snapshots.
Proof.
  intros Hrect Ho Hot.
  destruct (floodFill_filled g row col t o Hrect Ho Hot) as (snapshots & Hrun & Hfilled).
  exists snapshots. split; [done|]. split; [done|].
  unfold floodFill in Hrun. rewrite getCellColor_cellAt in Hrun.
  assert (isValidPosition g row col = true) as Hvalid.
  { apply cellAt_is_Some; [done|]. by exists o. }
  destruct (getGridDimensions g) as [rows cols] eqn:Hdims.
  rewrite Hvalid, Ho in Hrun; simpl in Hrun.
  rewrite bool_decide_eq_false_2 in Hrun by congruence.
  eapply (floodFillRecursive_layered g o t (row, col) rows cols); [..|exact Hrun];
    try done.
  by apply (layer_inv_init g o t (row, col) rows cols).
Qed.

End FloodFillSteps.

(** The fill advances one step per snapshot: for a rectangular grid and a
    start cell whose colour [o] is not the target, the snapshot after the
    first [k + 1] levels repaints exactly the cells that are reached from
    the start cell through cells of colour [o] in [k] steps at most; each
    snapshot repaints a cell that is exactly that far; and the last snapshot
    is reached when the farthest cell of the region is. *)
Theorem floodFill_layers (g : Grid) (row col : Z) (t o : Color) :
  rectangular g -> cellAt g (row, col) = Some o -> o <> t ->
  exists snapshots,
    floodFill (area g + 1) g row col t = Ok snapshots /\
    (2 <= length snapshots)%nat /\
    (forall k s, snapshots !! S k = Some s ->
                 forall p, differs g s p <-> connectedWithin g o (row, col) k p) /\
    (forall k s, snapshots !! S (S k) = Some s ->
                 exists p, connectedWithin g o (row, col) (S k) p /\
                           ~ connectedWithin g o (row, col) k p) /\
    (forall p, connected g o (row, col) p ->
               connectedWithin g o (row, col) (length snapshots - 2) p).
Proof.
  intros Hrect Ho Hot.
  destruct (floodFill_layered g row col t o Hrect Ho Hot)
    as (snapshots & Hrun & [Hwave (final & Hlast & Hall & Honly)] & Hlayers).
  exists snapshots. split; [done|].
  assert (2 <= length snapshots)%nat as Hlen.
  { destruct Hwave as (Hhead & _). destruct snapshots as [|s0 [|s1 snapshots]];
      [done| |simpl; lia].
    simpl in Hhead, Hlast. injection Hhead as ->. injection Hlast as <-.
    specialize (Hall (row, col) (connected_start _ _ _ Ho)). congruence. }
  split; [done|]. split; [exact Hlayers|]. split.
  - intros k s Hs.
    destruct (lookup_lt_is_Some_2 snapshots (S k)) as [s' Hs'].
    { apply lookup_lt_Some in Hs. lia. }
    destruct Hwave as (_ & Hstep & _).
    destruct (Hstep (S k) s' s Hs' Hs) as [_ (p & Hp & Hnp)].
    exists p. split; [by apply (Hlayers (S k) s)|].
    intros Hk. apply Hnp. by apply (Hlayers k s').
  - intros p Hconn. rewrite last_lookup in Hlast.
    replace (pred (length snapshots)) with (S (length snapshots - 2)) in Hlast by lia.
    apply (Hlayers _ _ Hlast). unfold differs.
    rewrite (Hall p Hconn), (connected_color _ _ _ _ Hconn). congruence.
Qed.

Lemma floodFill_layers_witness :
  let g := [["R"; "R"; "G"]; ["G"; "R"; "R"]] in
  exists snapshots,
    floodFill (area g + 1) g 0 0 "B" = Ok snapshots /\
    (2 <= length snapshots)%nat /\
    (forall k s, snapshots !! S k = Some s ->
                 forall p, differs g s p <-> connectedWithin g "R" (0, 0) k p) /\
    (forall k s, snapshots !! S (S k) = Some s ->
                 exists p, connectedWithin g "R" (0, 0) (S k) p /\
                           ~ connectedWithin g "R" (0, 0) k p) /\
    (forall p, connected g "R" (0, 0) p ->
               connectedWithin g "R" (0, 0) (length snapshots - 2) p).
Proof.
  apply (floodFill_layers [["R"; "R"; "G"]; ["G"; "R"; "R"]] 0 0 "B" "R").
  - unfold rectangular. repeat constructor.
  - reflexivity.
  - discriminate.
Defined.

(** A fill is done once: filling the last snapshot again from the same cell
    with the same colour, or from any cell of the region it repainted,
    returns that snapshot alone. *)
Theorem floodFill_again (g : Grid) (row col : Z) (t o : Color) :
  rectangular g -> cellAt g (row, col) = Some o -> o <> t ->
  exists snapshots final,
    floodFill (area g + 1) g row col t = Ok snapshots /\
    last snapshots = Some final /\
    forall fuel p, connected g o (row, col) p ->
                   floodFill fuel final p.1 p.2 t = Ok [final].
Proof.
  intros Hrect Ho Hot.
  destruct (floodFill_filled g row col t o Hrect Ho Hot)
    as (snapshots & Hrun & Hwave & final & Hlast & Hall & _).
  exists snapshots, final. split; [done|]. split; [done|].
  intros fuel [r c] Hconn. simpl. apply floodFill_unchanged.
  destruct (isValidPosition final r c) eqn:Hvalid; [right|by left].
  by rewrite getCellColor_cellAt, Hvalid, (Hall _ Hconn).
Qed.

Lemma floodFill_again_witness :
  let g := [["R"; "R"; "G"]] in
  exists snapshots final,
    floodFill (area g + 1) g 0 0 "B" = Ok snapshots /\
    last snapshots = Some final /\
    forall fuel p, connected g "R" (0, 0) p ->
                   floodFill fuel final p.1 p.2 "B" = Ok [final].
Proof.
  apply (floodFill_again [["R"; "R"; "G"]] 0 0 "B" "R").
  - unfold rectangular. repeat constructor.
  - reflexivity.
  - discriminate.
Defined.

(** A fill is undone by a fill with the colour it replaced, when the target
    colour did not touch the region: if no cell next to the region of the
    start cell has colour [t], filling the last snapshot from the start cell
    with [o] ends on the grid itself. *)
Theorem floodFill_undo (g : Grid) (row col : Z) (t o : Color) :
  rectangular g -> cellAt g (row, col) = Some o -> o <> t ->
  (forall p q, connected g o (row, col) p -> adjacent p q -> cellAt g q <> Some t) ->
  exists snapshots final snapshots',
    floodFill (area g + 1) g row col t = Ok snapshots /\
    last snapshots = Some final /\
    floodFill (area final + 1) final row col o = Ok snapshots' /\
    last snapshots' = Some g.
Proof.
  intros Hrect Ho Hot Hapart.
  destruct (floodFill_filled g row col t o Hrect Ho Hot)
    as (snapshots & Hrun & Hwave & final & Hlast & Hall & Honly).
  assert (shape final = shape g) as Hshape.
  { pose proof (floodFill_shape _ _ _ _ _ _ Hrun) as Hshapes.
    rewrite Forall_lookup in Hshapes. rewrite last_lookup in Hlast. eauto. }
  assert (rectangular final) as Hrect' by (by eapply shape_rectangular).
  assert (forall p, connected final t (row, col) p <-> connected g o (row, col) p)
    as Hregion.
  { intros p. split.
    - induction 1 as [_|q r _ IH Hadj Hc]; [by apply connected_start|].
      destruct (decide (cellAt final r = cellAt g r)) as [Heq|Hne]; [|by apply Honly].
      destruct (Hapart q r IH Hadj). congruence.
    - induction 1 as [_|q r Hq IH Hadj Hc].
      + apply connected_start. apply Hall. by apply connected_start.
      + eapply connected_step; [done|done|]. apply Hall. by eapply connected_step. }
  destruct (floodFill_filled final row col o t Hrect') as
    (snapshots' & Hrun' & _ & final' & Hlast' & Hall' & Honly'); [|congruence|].
  { apply Hall. by apply connected_start. }
  exists snapshots, final, snapshots'. repeat (split; [done|]).
  rewrite Hlast'. f_equal. apply grid_ext.
  - pose proof (floodFill_shape _ _ _ _ _ _ Hrun') as Hshapes.
    rewrite Forall_lookup in Hshapes. rewrite last_lookup in Hlast'.
    rewrite <- Hshape. eauto.
  - intros p.
    destruct (decide (cellAt final p = cellAt g p)) as [Heq|Hne].
    + destruct (decide (cellAt final' p = cellAt final p)) as [Heq'|Hne']; [congruence|].
      apply Honly', Hregion in Hne'.
      rewrite (Hall p Hne'), (connected_color _ _ _ _ Hne') in Heq. congruence.
    + apply Honly in Hne. rewrite (connected_color _ _ _ _ Hne).
      apply Hall'. by apply Hregion.
Qed.

Lemma floodFill_undo_witness :
  let g := [["R"; "R"; "G"]] in
  exists snapshots final snapshots',
    floodFill (area g + 1) g 0 0 "B" = Ok snapshots /\
    last snapshots = Some final /\
    floodFill (area final + 1) final 0 0 "R" = Ok snapshots' /\
    last snapshots' = Some g.
Proof.
  apply (floodFill_undo [["R"; "R"; "G"]] 0 0 "B" "R").
  - unfold rectangular. repeat constructor.
  - reflexivity.
  - discriminate.
  - intros p [r c] _ _. unfold cellAt, js_index. simpl.
    destruct (r <? 0); [done|].
    destruct (Z.to_nat r) as [|[|n]]; simpl; [|done|done].
    destruct (c <? 0); [done|].
    destruct (Z.to_nat c) as [|[|[|n]]]; simpl; done.
Defined.

(** ** The display grid ([src/utils/gridHelpers.js]) *)

Section DisplayGrid.

Implicit Types (b s : Grid) (row : list Color) (x : Color).

Lemma imap_pair_snoc {A} (l : list A) (a : A) :
  imap pair (l ++ [a]) = imap pair l ++ [(length l, a)].
Proof. rewrite imap_app. simpl. by rewrite Nat.add_0_r. Qed.

Lemma overlay_nil b : overlay b [] = b.
Proof.
  unfold overlay. apply list_eq. intros r. rewrite list_lookup_imap.
  destruct (b !! r) as [baseRow|]; simpl; [|done]. f_equal.
  apply list_eq. intros c. rewrite list_lookup_imap.
  by destruct (baseRow !! c).
Qed.

Lemma overlay_snoc_nil b s : overlay b (s ++ [[]]) = overlay b s.
Proof.
  unfold overlay. apply imap_ext. intros r baseRow _. apply imap_ext. intros c x _.
  destruct (decide (r < length s)%nat).
  - by rewrite lookup_app_l.
  - rewrite (lookup_ge_None_2 s) by lia.
    destruct (decide (r = length s)) as [->|].
    + by rewrite list_lookup_middle.
    + rewrite lookup_ge_None_2; [done|]. rewrite length_app. simpl. lia.
Qed.

(** One more cell of the last row of the snapshot: one guarded write. *)
Lemma overlay_snoc_cell b s row x :
  overlay b (s ++ [row ++ [x]]) =
  let display := overlay b (s ++ [row]) in
  match display !! length s with
  | Some displayRow =>
      match displayRow !! length row with
      | Some _ => <[length s := <[length row := x]> displayRow]> display
      | None => display
      end
  | None => display
  end.
Proof.
  simpl. unfold overlay at 2. rewrite list_lookup_imap.
  destruct (b !! length s) as [baseRow|] eqn:Hb; simpl.
  2: { unfold overlay. apply imap_ext. intros r baseRow Hr. apply imap_ext. intros c y _.
       assert (r <> length s) by congruence.
       destruct (decide (r < length s)%nat).
       - by rewrite !lookup_app_l.
       - rewrite !(lookup_ge_None_2 (_ ++ _)); [done|..]; rewrite length_app; simpl; lia. }
  rewrite list_lookup_imap.
  destruct (baseRow !! length row) as [y|] eqn:Hy; simpl.
  - apply list_eq. intros r. unfold overlay.
    destruct (decide (r = length s)) as [->|Hr].
    + rewrite list_lookup_insert_eq by (rewrite length_imap; by eapply lookup_lt_Some).
      rewrite list_lookup_imap, Hb. simpl. f_equal.
      apply list_eq. intros c.
      destruct (decide (c = length row)) as [->|Hc].
      * rewrite list_lookup_insert_eq by (rewrite length_imap; by eapply lookup_lt_Some).
        rewrite list_lookup_imap, Hy. simpl.
        rewrite list_lookup_middle by done. simpl.
        by rewrite list_lookup_middle.
      * rewrite list_lookup_insert_ne by done.
        rewrite !list_lookup_imap. destruct (baseRow !! c); simpl; [|done].
        rewrite !list_lookup_middle by done. simpl.
        destruct (decide (c < length row)%nat).
        -- by rewrite lookup_app_l.
        -- rewrite (lookup_ge_None_2 row) by lia.
           rewrite lookup_ge_None_2; [done|]. rewrite length_app. simpl. lia.
    + rewrite list_lookup_insert_ne by done.
      rewrite !list_lookup_imap. destruct (b !! r) as [baseRow'|]; simpl; [|done].
      f_equal. apply imap_ext. intros c z _.
      destruct (decide (r < length s)%nat).
      * by rewrite !lookup_app_l.
      * rewrite !(lookup_ge_None_2 (_ ++ _)); [done|..]; rewrite length_app; simpl; lia.
  - unfold overlay. apply imap_ext. intros r baseRow' Hr. apply imap_ext. intros c z Hc.
    destruct (decide (r = length s)) as [->|Hne].
    + rewrite !list_lookup_middle by done. simpl.
      assert (c <> length row) by congruence.
      destruct (decide (c < length row)%nat).
      * by rewrite lookup_app_l.
      * rewrite (lookup_ge_None_2 row) by lia.
        rewrite lookup_ge_None_2; [done|]. rewrite length_app. simpl. lia.
    + destruct (decide (r < length s)%nat).
      * by rewrite !lookup_app_l.
      * rewrite !(lookup_ge_None_2 (_ ++ _)); [done|..]; rewrite length_app; simpl; lia.
Qed.


(** The loops of [createDisplayGrid] lay the snapshot over the base grid. *)
Lemma createDisplayGrid_overlay b s : createDisplayGrid b s = overlay b s.
Proof.
  unfold createDisplayGrid. fold (cloneGrid b). rewrite cloneGrid_id.
  induction s as [|row s IH] using rev_ind; [by rewrite overlay_nil|].
  rewrite imap_pair_snoc, foldl_app, IH. simpl. clear IH.
  induction row as [|x row IH] using rev_ind; [by rewrite overlay_snoc_nil|].
  rewrite imap_pair_snoc, foldl_app, IH. simpl.
  by rewrite overlay_snoc_cell.
Qed.

Lemma shape_overlay b s : shape (overlay b s) = shape b.
Proof.
  unfold shape, overlay. apply list_eq. intros r.
  rewrite !list_lookup_fmap, list_lookup_imap.
  destruct (b !! r); simpl; [|done]. by rewrite length_imap.
Qed.

Lemma cellAt_lookup (g : Grid) (r c : nat) :
  cellAt g (Z.of_nat r, Z.of_nat c) = g !! r ≫= fun row => row !! c.
Proof.
  unfold cellAt, js_index. simpl.
  destruct (Z.ltb_spec (Z.of_nat r) 0); [lia|].
  rewrite !Nat2Z.id. destruct (g !! r); simpl; [|done].
  by destruct (Z.ltb_spec (Z.of_nat c) 0); [lia|].
Qed.

Lemma cellAt_negative (g : Grid) p : p.1 < 0 \/ p.2 < 0 -> cellAt g p = None.
Proof.
  destruct p as [r c]. unfold cellAt, js_index. simpl. intros [Hr|Hc].
  - by rewrite (proj2 (Z.ltb_lt r 0)).
  - destruct (r <? 0); [done|]. destruct (g !! Z.to_nat r); simpl; [|done].
    by rewrite (proj2 (Z.ltb_lt c 0)).
Qed.

Lemma cellAt_overlay b s p :
  cellAt (overlay b s) p = x ← cellAt b p; Some (default x (cellAt s p)).
Proof.
  destruct p as [r c].
  destruct (Z.ltb_spec r 0) as [Hr|Hr]; [by rewrite !(cellAt_negative _ (r, c)) by auto|].
  destruct (Z.ltb_spec c 0) as [Hc|Hc]; [by rewrite !(cellAt_negative _ (r, c)) by auto|].
  rewrite <- (Z2Nat.id r), <- (Z2Nat.id c) by done.
  rewrite !cellAt_lookup. unfold overlay. rewrite list_lookup_imap.
  destruct (b !! Z.to_nat r) as [baseRow|]; simpl; [|done].
  rewrite list_lookup_imap. by destruct (baseRow !! Z.to_nat c).
Qed.

Lemma cellAt_shape (g g' : Grid) p :
  shape g = shape g' -> cellAt g p = None -> cellAt g' p = None.
Proof.
  intros Hshape. destruct p as [r c]. unfold cellAt, js_index. simpl.
  destruct (r <? 0); [done|].
  pose proof (f_equal (fun l => l !! Z.to_nat r) Hshape) as Hrow. simpl in Hrow.
  unfold shape in Hrow. rewrite !list_lookup_fmap in Hrow.
  destruct (g !! Z.to_nat r) as [gridRow|], (g' !! Z.to_nat r) as [gridRow'|];
    simpl in *; try done.
  destruct (c <? 0); [done|]. injection Hrow as Hrow.
  rewrite !lookup_ge_None. lia.
Qed.

(** A snapshot of the shape of the base grid covers it. *)
Lemma overlay_same_shape b s : shape s = shape b -> overlay b s = s.
Proof.
  intros Hshape. apply grid_ext; [by rewrite shape_overlay|].
  intros p. rewrite cellAt_overlay.
  destruct (cellAt b p) eqn:Hb, (cellAt s p) eqn:Hs; try done.
  - by rewrite (cellAt_shape s b p) in Hb.
  - by rewrite (cellAt_shape b s p) in Hs.
Qed.

End DisplayGrid.

(** The display grid has the rows of the base grid, each of its length, and
    holds at each of its cells the colour the snapshot holds there, or the
    colour of the base grid where the snapshot has no cell; so a snapshot of
    the shape of the base grid is displayed as it is, an empty snapshot
    leaves the base grid, and laying the same snapshot over the result again
    changes nothing.  [mergeGrids] is the same function. *)
Theorem createDisplayGrid_cells (baseGrid snapshot : Grid) :
  shape (createDisplayGrid baseGrid snapshot) = shape baseGrid /\
  (forall p,
      cellAt (createDisplayGrid baseGrid snapshot) p =
      match cellAt baseGrid p, cellAt snapshot p with
      | Some _, Some x => Some x
      | Some x, None => Some x
      | None, _ => None
      end) /\
  (shape snapshot = shape baseGrid -> createDisplayGrid baseGrid snapshot = snapshot) /\
  createDisplayGrid baseGrid [] = baseGrid /\
  createDisplayGrid (createDisplayGrid baseGrid snapshot) snapshot
  = createDisplayGrid baseGrid snapshot /\
  mergeGrids baseGrid snapshot = createDisplayGrid baseGrid snapshot.
Proof.
  unfold mergeGrids. rewrite !createDisplayGrid_overlay.
  assert (forall b s p, cellAt (overlay b s) p =
            match cellAt b p, cellAt s p with
            | Some _, Some x => Some x
            | Some x, None => Some x
            | None, _ => None
            end) as Hcells.
  { intros b s p. rewrite cellAt_overlay.
    by destruct (cellAt b p), (cellAt s p). }
  split; [apply shape_overlay|]. split; [apply Hcells|].
  split; [apply overlay_same_shape|]. split; [apply overlay_nil|]. split; [|done].
  apply grid_ext; [by rewrite !shape_overlay|].
  intros p. rewrite !Hcells.
  by destruct (cellAt baseGrid p), (cellAt snapshot p).
Qed.

Lemma createDisplayGrid_cells_witness :
  createDisplayGrid [["a"; "b"]; ["c"; "d"]] [["x"; "y"]; ["z"; "w"]]
  = [["x"; "y"]; ["z"; "w"]].
Proof.
  exact (proj1 (proj2 (proj2 (createDisplayGrid_cells
                                [["a"; "b"]; ["c"; "d"]] [["x"; "y"]; ["z"; "w"]])))
               eq_refl).
Defined.

(** The animation shows the snapshots of a fill as they are: laid over the
    grid that was filled, each snapshot gives itself. *)
Theorem createDisplayGrid_floodFill (g : Grid) (row col : Z) (t : Color) :
  exists snapshots,
    floodFill (area g + 1) g row col t = Ok snapshots /\
    Forall (fun s => createDisplayGrid g s = s) snapshots.
Proof.
  destruct (floodFill_terminates g row col t) as (snapshots & Hrun & _).
  exists snapshots. split; [done|].
  eapply Forall_impl; [by eapply floodFill_shape|].
  intros s Hs. rewrite createDisplayGrid_overlay. by apply overlay_same_shape.
Qed.

(** ** The territory generator: draws and seeds *)

Section GeneratorDraws.

Variable Math_random : nat -> float.

(** A computation that draws [w] numbers and returns [f n] from state [n],
    repeated for each element of a list. *)
Lemma mapM_draws {A B} (m : Rand A) (f : nat -> A) (w : nat) (l : list B) (n : nat) :
  (forall k, m k = Ok (f k, (k + w)%nat)) ->
  mapM (fun _ : B => m) l n
  = Ok ((fun i => f (n + i * w)%nat) <$> seq 0 (length l), (n + length l * w)%nat).
Proof.
  intros Hm. revert n. induction l as [|x l IH]; intros n.
  { simpl. unfold mret, Rand_ret. do 2 f_equal. lia. }
  change (mapM (fun _ : B => m) (x :: l))
    with (y ← m; k ← mapM (fun _ : B => m) l; mret (y :: k)).
  unfold mbind, Rand_bind at 1. rewrite Hm.
  unfold mbind, Rand_bind. rewrite IH. unfold mret, Rand_ret. simpl.
  f_equal. f_equal; [|lia]. f_equal; [f_equal; lia|].
  rewrite <- fmap_S_seq, <- list_fmap_compose. apply list_fmap_ext.
  intros i y _. simpl. f_equal. lia.
Qed.

Lemma randomCyberpunkColor_draw (k : nat) :
  exists v, randomCyberpunkColor Math_random k = Ok (v, (k + 1)%nat) /\
            (v = undefined \/ isColor v).
Proof.
  unfold randomCyberpunkColor, random, mbind, Rand_bind, mret, Rand_ret.
  eexists. split; [by rewrite Nat.add_1_r|].
  destruct (floor_Z _) as [i|]; [|by left].
  destruct (js_index CYBERPUNK_PALETTE i) as [c|] eqn:Hc; simpl; [right|by left].
  exists c. split; [done|]. apply js_index_Some in Hc as [_ Hc].
  by eapply list_elem_of_lookup_2.
Qed.


Lemma randomCyberpunkColor_run (k : nat) :
  randomCyberpunkColor Math_random k = Ok (paletteDraw (Math_random k), (k + 1)%nat).
Proof.
  unfold randomCyberpunkColor, random, mbind, Rand_bind, mret, Rand_ret, paletteDraw.
  by rewrite Nat.add_1_r.
Qed.

Lemma mapM_replicate {A B} (f : B -> Rand A) (x : B) (k : nat) :
  mapM f (replicate k x) = mapM (fun _ : B => f x) (replicate k x).
Proof.
  induction k as [|k IH]; [done|]. simpl.
  change (mapM f (x :: replicate k x))
    with (y ← f x; l ← mapM f (replicate k x); mret (y :: l)).
  by rewrite IH.
Qed.

(** Rows of random colours: [rows * cols] draws, in the order of the cells. *)
Lemma random_rows {B C} (lr : list B) (lc : list C) (n : nat) :
  mapM (fun _ : B => mapM (fun _ : C => randomCyberpunkColor Math_random) lc) lr n
  = Ok ((fun r => (fun c => paletteDraw (Math_random (n + r * length lc + c)%nat))
                    <$> seq 0 (length lc)) <$> seq 0 (length lr),
        (n + length lr * length lc)%nat).
Proof.
  rewrite (mapM_draws _ (fun k => (fun c => paletteDraw (Math_random (k + c)%nat))
                                    <$> seq 0 (length lc)) (length lc)).
  - done.
  - intros k. rewrite (mapM_draws _ (fun k => paletteDraw (Math_random k)) 1%nat).
    + do 2 f_equal; [|lia]. apply list_fmap_ext. intros i c _. do 2 f_equal. lia.
    + apply randomCyberpunkColor_run.
Qed.

Lemma cellOf_lookup {A} (grid : list (list A)) (r c : nat) :
  cellOf grid (Z.of_nat r, Z.of_nat c) = grid !! r ≫= fun row => row !! c.
Proof.
  unfold cellOf, js_index. simpl.
  destruct (Z.ltb_spec (Z.of_nat r) 0); [lia|].
  rewrite !Nat2Z.id. destruct (grid !! r); simpl; [|done].
  by destruct (Z.ltb_spec (Z.of_nat c) 0); [lia|].
Qed.

Lemma random_rows_spec (R C n : nat) :
  let grid := (fun r => (fun c => paletteDraw (Math_random (n + r * C + c)%nat))
                          <$> seq 0 C) <$> seq 0 R in
  shaped (Z.of_nat R) (Z.of_nat C) grid /\
  forall r c, (r < R)%nat -> (c < C)%nat ->
              cellOf grid (Z.of_nat r, Z.of_nat c)
              = Some (paletteDraw (Math_random (n + r * C + c)%nat)).
Proof.
  intros grid. split; [split|].
  - unfold grid, len. by rewrite length_fmap, length_seq.
  - apply Forall_fmap, Forall_forall. intros r _. simpl.
    unfold len. by rewrite length_fmap, length_seq.
  - intros r c Hr Hc. rewrite cellOf_lookup. unfold grid.
    rewrite list_lookup_fmap, lookup_seq_lt by done. simpl.
    by rewrite list_lookup_fmap, lookup_seq_lt by done.
Qed.

End GeneratorDraws.

(** [generateGrid] never fails: whatever the random source, it makes
    [rows * cols] draws, one per cell in the order of the rows, and the cell
    [(r, c)] holds the colour that draw number [r * cols + c] selects
    ([undefined] if the draw is no index of the palette).  A call of
    [randomCyberpunkColor] is one draw; without rows or columns the grid is
    empty and nothing is drawn. *)
Theorem generateGrid_draws (Math_random : nat -> float) (rows cols : Z) (n : nat) :
  (forall k, randomCyberpunkColor Math_random k
             = Ok (paletteDraw (Math_random k), S k)) /\
  (rows <= 0 \/ cols <= 0 -> generateGrid Math_random rows cols n = Ok ([], n)) /\
  (0 < rows -> 0 < cols ->
   exists grid,
     generateGrid Math_random rows cols n = Ok (grid, (n + Z.to_nat (rows * cols))%nat) /\
     shaped rows cols grid /\
     forall r c, 0 <= r < rows -> 0 <= c < cols ->
                 cellOf grid (r, c)
                 = Some (paletteDraw (Math_random (n + Z.to_nat (r * cols + c))%nat))).
Proof.
  split.
  { intros k. by rewrite randomCyberpunkColor_run, Nat.add_1_r. }
  split.
  { intros Hempty. unfold generateGrid. by rewrite bool_decide_eq_true_2. }
  intros Hrows Hcols. unfold generateGrid. rewrite bool_decide_eq_false_2 by lia.
  rewrite random_rows, !length_seq.
  destruct (random_rows_spec Math_random (Z.to_nat rows) (Z.to_nat cols) n)
    as [Hshape Hcells].
  rewrite !Z2Nat.id in Hshape by lia.
  eexists. split; [do 2 f_equal; nia|]. split; [done|].
  intros r c Hr Hc.
  rewrite <- (Z2Nat.id r), <- (Z2Nat.id c) at 1 by lia.
  rewrite Hcells by lia. do 3 f_equal. nia.
Qed.

Lemma generateGrid_draws_witness :
  generateGrid sampleRandom 0 3 4%nat = Ok ([], 4%nat) /\
  exists grid,
    generateGrid sampleRandom 2 3 4%nat = Ok (grid, (4 + Z.to_nat (2 * 3))%nat) /\
    shaped 2 3 grid /\
    forall r c, 0 <= r < 2 -> 0 <= c < 3 ->
                cellOf grid (r, c)
                = Some (paletteDraw (sampleRandom (4 + Z.to_nat (r * 3 + c))%nat)).
Proof.
  split.
  - apply (generateGrid_draws sampleRandom 0 3 4%nat). lia.
  - apply (generateGrid_draws sampleRandom 2 3 4%nat); lia.
Defined.

(** With an organicness of 0 [generateGridWithZones] is [generateGrid] after
    the draw of the seed: random pixels. *)
Theorem generateGridWithZones_pixels (Math_sin : float -> float)
    (Math_random : nat -> float) (rows cols : Z) (n : nat) :
  generateGridWithZones Math_sin Math_random rows cols 0 n
  = if bool_decide (rows <= 0 \/ cols <= 0) then Ok ([], n)
    else generateGrid Math_random rows cols (S n).
Proof.
  unfold generateGridWithZones, generateGrid. case_bool_decide; [done|].
  unfold mbind at 1, Rand_bind at 1, random. simpl.
  rewrite mapM_replicate, !random_rows, !length_replicate, !length_seq. done.
Qed.

Section Seeds.

Variables (Math_random : nat -> float) (rows cols : Z).
Hypothesis unit_source : unitSource Math_random.
Hypothesis rows_range : 0 < rows < 2 ^ 53.
Hypothesis cols_range : 0 < cols < 2 ^ 53.

Lemma randomIndex_run (n : Z) (k : nat) :
  0 < n < 2 ^ 53 ->
  exists i, randomIndex Math_random n k = Ok (i, (k + 1)%nat) /\ 0 <= i < n.
Proof.
  intros Hn. destruct (unit_source k) as [H0 H1].
  pose proof (unitDraw_unit_interval n (Math_random k) Hn H0 H1) as Hdraw.
  unfold unitDraw in Hdraw. unfold randomIndex, random, mbind, Rand_bind.
  destruct (floor_Z _) as [i|]; [|done]. exists i. by rewrite Nat.add_1_r.
Qed.

Lemma paletteDraw_isColor (k : nat) : isColor (paletteDraw (Math_random k)).
Proof.
  destruct (unit_source k) as [H0 H1].
  pose proof (unitDraw_unit_interval (len CYBERPUNK_PALETTE) (Math_random k)
                ltac:(done) H0 H1) as Hdraw.
  unfold unitDraw in Hdraw. unfold paletteDraw.
  destruct (floor_Z _) as [i|]; [|done].
  destruct (js_index CYBERPUNK_PALETTE i) as [c|] eqn:Hc; simpl.
  - exists c. split; [done|]. apply js_index_Some in Hc as [_ Hc].
    by eapply list_elem_of_lookup_2.
  - by apply js_index_None in Hc.
Qed.

Lemma seeds_run (l : list nat) (n : nat) :
  exists territories,
    mapM (fun _ : nat =>
            startRow ← randomIndex Math_random rows;
            startCol ← randomIndex Math_random cols;
            color ← randomCyberpunkColor Math_random;
            mret {| color := color;
                    cells := [ (startRow, startCol) ];
                    frontier := set_add (startRow, startCol) [] |}) l n
    = Ok (territories, (n + 3 * length l)%nat) /\
    length territories = length l /\
    Forall (fun territory =>
              isColor (color territory) /\
              exists p, inBounds rows cols p /\
                        cells territory = [p] /\ frontier territory = [p])
           territories.
Proof.
  revert n. induction l as [|x l IH]; intros n.
  { exists []. simpl. unfold mret, Rand_ret. split; [do 2 f_equal; lia|done]. }
  destruct (randomIndex_run rows n rows_range) as (startRow & Hrow & HstartRow).
  destruct (randomIndex_run cols (n + 1) cols_range) as (startCol & Hcol & HstartCol).
  destruct (IH (n + 3)%nat) as (territories & Hrun & Hlen & Hall).
  eexists (_ :: territories).
  split; [|split].
  - match goal with
    | |- mapM ?f (x :: l) n = _ =>
        change (mapM f (x :: l)) with (y ← f x; k ← mapM f l; mret (y :: k))
    end.
    unfold mbind, Rand_bind. rewrite Hrow, Hcol, randomCyberpunkColor_run.
    unfold mret at 1, Rand_ret at 1.
    replace (n + 1 + 1 + 1)%nat with (n + 3)%nat by lia.
    unfold mbind, Rand_bind in Hrun. rewrite Hrun.
    unfold mret, Rand_ret. do 2 f_equal. simpl. lia.
  - simpl. by rewrite Hlen.
  - constructor; [|done]. simpl. split; [apply paletteDraw_isColor|].
    exists (startRow, startCol). split; [done|]. split; [done|].
    unfold set_add. by rewrite decide_False by apply not_elem_of_nil.
Qed.

Lemma createTerritorySeeds_run (numTerritories n : nat) :
  exists territories,
    createTerritorySeeds Math_random numTerritories rows cols n
    = Ok (territories, (n + 3 * numTerritories)%nat) /\
    length territories = numTerritories /\
    Forall (fun territory =>
              isColor (color territory) /\
              exists p, inBounds rows cols p /\
                        cells territory = [p] /\ frontier territory = [p])
           territories.
Proof.
  unfold createTerritorySeeds.
  destruct (seeds_run (seq 0 numTerritories) n) as (territories & Hrun & Hlen & Hall).
  rewrite length_seq in Hrun, Hlen. by exists territories.
Qed.

End Seeds.

(** For a random source of the unit interval, [createTerritorySeeds] makes
    three draws per territory and returns as many territories as asked:
    each has a colour of the palette and one cell, inside the grid, which is
    its frontier. *)
Theorem createTerritorySeeds_seeds (Math_random : nat -> float)
    (numTerritories : nat) (rows cols : Z) (n : nat) :
  unitSource Math_random -> 0 < rows < 2 ^ 53 -> 0 < cols < 2 ^ 53 ->
  exists territories,
    createTerritorySeeds Math_random numTerritories rows cols n
    = Ok (territories, (n + 3 * numTerritories)%nat) /\
    length territories = numTerritories /\
    Forall (fun territory =>
              isColor (color territory) /\
              exists p, inBounds rows cols p /\
                        cells territory = [p] /\ frontier territory = [p])
           territories.
Proof. intros. by apply createTerritorySeeds_run. Qed.

Lemma createTerritorySeeds_seeds_witness :
  exists territories,
    createTerritorySeeds sampleRandom 4 3 5 1%nat
    = Ok (territories, (1 + 3 * 4)%nat) /\
    length territories = 4%nat /\
    Forall (fun territory =>
              isColor (color territory) /\
              exists p, inBounds 3 5 p /\
                        cells territory = [p] /\ frontier territory = [p])
           territories.
Proof.
  apply (createTerritorySeeds_seeds sampleRandom 4 3 5 1%nat sampleRandom_unit); lia.
Defined.

(** ** The territory generator: the closest neighbour and the last fill *)

Section Closest.

Variables (rows cols : Z).

Implicit Types (grid : list (list cell)) (v : cell) (p : Position).

Lemma okWith_foldM_prefix {A B} (I : list B -> A -> Prop) (f : A -> B -> outcome A)
    (a : A) (l : list B) :
  I [] a ->
  (forall seen x rest a, l = seen ++ x :: rest -> I seen a ->
                         okWith (f a x) (I (seen ++ [x]))) ->
  okWith (foldM f a l) (I l).
Proof.
  intros Ha Hf.
  cut (forall seen rest a, l = seen ++ rest -> I seen a ->
                           okWith (foldM f a rest) (I (seen ++ rest))).
  { intros Hgen. by apply (Hgen [] l). }
  intros seen rest. revert seen.
  induction rest as [|x rest IH]; intros seen a' Hl Ha'; simpl.
  - exists a'. by rewrite app_nil_r.
  - destruct (Hf seen x rest a' Hl Ha') as (a'' & -> & Ha''). simpl.
    replace (seen ++ x :: rest) with ((seen ++ [x]) ++ rest) by (by rewrite <- app_assoc).
    apply IH; [by rewrite <- app_assoc|done].
Qed.

Lemma elem_of_offsets dr dc :
  (dr, dc) ∈ offsets <-> (-2 <= dr <= 2) /\ (-2 <= dc <= 2).
Proof.
  assert (forall z, z ∈ [-2; -1; 0; 1; 2] <-> -2 <= z <= 2) as Hrange.
  { intros z. rewrite !elem_of_cons, elem_of_nil. lia. }
  unfold offsets. rewrite list_elem_of_bind. split.
  - intros (dr' & (dc' & [= -> ->]%list_elem_of_singleton & Hdc)%list_elem_of_bind & Hdr).
    by rewrite <- !Hrange.
  - intros [Hdr Hdc]. exists dr. split; [|by apply Hrange].
    apply list_elem_of_bind. exists dc. split; [by apply list_elem_of_singleton|].
    by apply Hrange.
Qed.

(** A read inside a grid of the stated shape. *)
Lemma index2_shaped grid r c :
  shaped rows cols grid -> inBounds rows cols (r, c) ->
  exists v, index2 grid r c = Ok (Some v) /\ cellOf grid (r, c) = Some v.
Proof.
  intros Hshape Hb.
  destruct (shaped_index rows cols grid r c Hshape Hb) as (gridRow & v & Hrow & Hv).
  exists v. unfold index2, cellOf. simpl. by rewrite Hrow, Hv.
Qed.

Lemma inBounds_test r c :
  (0 <=? r) && (r <? rows) && (0 <=? c) && (c <? cols) = true <->
  inBounds rows cols (r, c).
Proof. unfold inBounds. simpl. rewrite !andb_true_iff, !Z.leb_le, !Z.ltb_lt. tauto. Qed.

Lemma findClosestColoredNeighbor_scan grid row col :
  shaped rows cols grid ->
  exists closest,
    findClosestColoredNeighbor grid row col rows cols = Ok closest /\
    exists minDist, closestAmong rows cols grid row col offsets (closest, minDist).
Proof.
  intros Hshape. unfold findClosestColoredNeighbor.
  match goal with
  | |- context [foldM ?f ?a ?l] =>
      destruct (okWith_foldM_prefix (closestAmong rows cols grid row col) f a l)
        as ([closest minDist] & -> & Hfound)
  end.
  - split; [done|]. intros dr dc Hin. by apply elem_of_nil in Hin.
  - intros seen [dr dc] rest [closest minDist] _ Hseen.
    destruct ((0 <=? row + dr) && (row + dr <? rows) && (0 <=? col + dc)
              && (col + dc <? cols)) eqn:Hin.
    2: { eexists. split; [done|].
         assert (~ inBounds rows cols (row + dr, col + dc)) as Hout.
         { rewrite <- inBounds_test. by rewrite Hin. }
         unfold closestAmong in *. simpl in *. destruct minDist as [d|].
         - destruct Hseen as (Hc & dr0 & dc0 & H0 & Hb0 & Hcell & Hd & Hmin).
           split; [done|]. exists dr0, dc0. split; [by apply elem_of_app; left|].
           repeat (split; [done|]).
           intros dr' dc' [?|[= -> ->]%list_elem_of_singleton]%elem_of_app; [auto|done].
         - destruct Hseen as [Hc Hnull]. split; [done|].
           intros dr' dc' [?|[= -> ->]%list_elem_of_singleton]%elem_of_app; [auto|done]. }
    apply inBounds_test in Hin.
    destruct (index2_shaped grid _ _ Hshape Hin) as (v & -> & Hv). simpl.
    case_bool_decide as Hnull.
    2: { eexists. split; [done|].
         assert (v = null) as -> by (by destruct (decide (v = null))).
         unfold closestAmong in *. simpl in *. destruct minDist as [d|].
         - destruct Hseen as (Hc & dr0 & dc0 & H0 & Hb0 & Hcell & Hd & Hmin).
           split; [done|]. exists dr0, dc0. split; [by apply elem_of_app; left|].
           repeat (split; [done|]).
           intros dr' dc' [?|[= -> ->]%list_elem_of_singleton]%elem_of_app; [auto|done].
         - destruct Hseen as [Hc Hnone]. split; [done|].
           intros dr' dc' [?|[= -> ->]%list_elem_of_singleton]%elem_of_app; [auto|done]. }
    unfold closestAmong in *. simpl in *. destruct minDist as [d|].
    + destruct Hseen as (Hc & dr0 & dc0 & H0 & Hb0 & Hcell & Hd & Hmin).
      destruct (Z.ltb_spec (Z.abs dr + Z.abs dc) d) as [Hlt|Hge].
      * eexists. split; [done|]. simpl. split; [done|].
        exists dr, dc. split; [apply elem_of_app; right; by apply list_elem_of_singleton|].
        repeat (split; [done|]).
        intros dr' dc' [Hin'|[= -> ->]%list_elem_of_singleton]%elem_of_app Hb' Hc';
          [|lia].
        specialize (Hmin dr' dc' Hin' Hb' Hc'). lia.
      * eexists. split; [done|]. simpl. split; [done|].
        exists dr0, dc0. split; [by apply elem_of_app; left|].
        repeat (split; [done|]).
        intros dr' dc' [?|[= -> ->]%list_elem_of_singleton]%elem_of_app; [auto|lia].
    + destruct Hseen as [Hc Hnone].
      eexists. split; [done|]. simpl. split; [done|].
      exists dr, dc. split; [apply elem_of_app; right; by apply list_elem_of_singleton|].
      repeat (split; [done|]).
      intros dr' dc' [Hin'|[= -> ->]%list_elem_of_singleton]%elem_of_app Hb' Hc'; [|lia].
      by destruct Hc'; apply Hnone.
  - simpl. exists closest. split; [done|]. by exists minDist.
Qed.

End Closest.

(** On a grid of the stated shape the scan never fails.  It returns [null]
    only if every cell of the window (at most two rows and two columns
    away, inside the grid) is [null]; otherwise it returns the content of a
    filled cell of the window that no filled cell of the window beats in
    Manhattan distance. *)
Theorem findClosestColoredNeighbor_closest (grid : list (list cell))
    (row col rows cols : Z) :
  shaped rows cols grid ->
  exists closest,
    findClosestColoredNeighbor grid row col rows cols = Ok closest /\
    (closest = null ->
     forall dr dc, -2 <= dr <= 2 -> -2 <= dc <= 2 ->
                   inBounds rows cols (row + dr, col + dc) ->
                   cellOf grid (row + dr, col + dc) = Some null) /\
    (closest <> null ->
     exists dr dc,
       (-2 <= dr <= 2) /\ (-2 <= dc <= 2) /\
       inBounds rows cols (row + dr, col + dc) /\
       cellOf grid (row + dr, col + dc) = Some closest /\
       forall dr' dc', -2 <= dr' <= 2 -> -2 <= dc' <= 2 ->
                       inBounds rows cols (row + dr', col + dc') ->
                       cellOf grid (row + dr', col + dc') <> Some null ->
                       Z.abs dr + Z.abs dc <= Z.abs dr' + Z.abs dc').
Proof.
  intros Hshape.
  destruct (findClosestColoredNeighbor_scan rows cols grid row col Hshape)
    as (closest & Hrun & minDist & Hfound).
  exists closest. split; [done|].
  unfold closestAmong in Hfound. simpl in Hfound. destruct minDist as [d|].
  - destruct Hfound as (Hc & dr & dc & [Hdr Hdc]%elem_of_offsets & Hb & Hcell & Hd & Hmin).
    split; [done|]. intros _. exists dr, dc. repeat (split; [done|]).
    intros dr' dc' Hdr' Hdc' Hb' Hc'. rewrite Hd. apply Hmin; [|done|done].
    by apply elem_of_offsets.
  - destruct Hfound as [-> Hnull]. split; [|done].
    intros _ dr dc Hdr Hdc Hb. apply Hnull; [|done]. by apply elem_of_offsets.
Qed.

Lemma findClosestColoredNeighbor_closest_witness :
  let grid := [[null; hex "#FF006E"; null]; [null; null; hex "#3A86FF"]] in
  exists closest,
    findClosestColoredNeighbor grid 1 0 2 3 = Ok closest /\
    (closest = null ->
     forall dr dc, -2 <= dr <= 2 -> -2 <= dc <= 2 ->
                   inBounds 2 3 (1 + dr, 0 + dc) ->
                   cellOf grid (1 + dr, 0 + dc) = Some null) /\
    (closest <> null ->
     exists dr dc,
       (-2 <= dr <= 2) /\ (-2 <= dc <= 2) /\
       inBounds 2 3 (1 + dr, 0 + dc) /\
       cellOf grid (1 + dr, 0 + dc) = Some closest /\
       forall dr' dc', -2 <= dr' <= 2 -> -2 <= dc' <= 2 ->
                       inBounds 2 3 (1 + dr', 0 + dc') ->
                       cellOf grid (1 + dr', 0 + dc') <> Some null ->
                       Z.abs dr + Z.abs dc <= Z.abs dr' + Z.abs dc').
Proof.
  apply (findClosestColoredNeighbor_closest
           [[null; hex "#FF006E"; null]; [null; null; hex "#3A86FF"]] 1 0 2 3).
  split; [reflexivity|]. repeat constructor.
Defined.

Section Fill.

Variables (Math_random : nat -> float) (rows cols : Z).

Implicit Types (grid : list (list cell)) (v : cell) (p : Position).

Lemma succeeds_randomCyberpunkColor_any :
  succeeds (randomCyberpunkColor Math_random) (fun v => v <> null).
Proof.
  intros n. destruct (randomCyberpunkColor_draw Math_random n) as (v & Hrun & Hv).
  exists v, (n + 1)%nat. split; [done|]. by destruct Hv as [->|(c & -> & _)].
Qed.

Lemma cellOf_Forall2 {A B} (Q : A -> B -> Prop) (g : list (list A)) (g' : list (list B)) :
  Forall2 (Forall2 Q) g g' ->
  forall p,
    (forall x, cellOf g p = Some x -> exists y, cellOf g' p = Some y /\ Q x y) /\
    (forall y, cellOf g' p = Some y -> exists x, cellOf g p = Some x /\ Q x y).
Proof.
  intros Hall [r c]. unfold cellOf, js_index. simpl.
  destruct (r <? 0); [done|]. split.
  - intros x Hx. destruct (g !! Z.to_nat r) as [gridRow|] eqn:Hrow; simpl in Hx; [|done].
    destruct (Forall2_lookup_l _ _ _ _ _ Hall Hrow) as (gridRow' & -> & Hrows). simpl.
    destruct (c <? 0); [done|].
    destruct (Forall2_lookup_l _ _ _ _ _ Hrows Hx) as (y & -> & Hy). eauto.
  - intros y Hy. destruct (g' !! Z.to_nat r) as [gridRow'|] eqn:Hrow; simpl in Hy; [|done].
    destruct (Forall2_lookup_r _ _ _ _ _ Hall Hrow) as (gridRow & -> & Hrows). simpl.
    destruct (c <? 0); [done|].
    destruct (Forall2_lookup_r _ _ _ _ _ Hrows Hy) as (x & -> & Hx). eauto.
Qed.

Lemma shaped_Forall2_any {A B} (Q : A -> B -> Prop) (g : list (list A)) (g' : list (list B)) :
  shaped rows cols g -> Forall2 (Forall2 Q) g g' -> shaped rows cols g'.
Proof.
  intros [Hrows Hcols] Hall. split.
  - unfold len in *. by rewrite <- (Forall2_length _ _ _ Hall).
  - clear Hrows. induction Hall as [|row row' ? ? Hrow]; [done|].
    apply Forall_cons in Hcols as [Hlen Hcols]. constructor; [|auto].
    unfold len in *. by rewrite <- (Forall2_length _ _ _ Hrow).
Qed.

Lemma imapR_id {A} (f : nat -> A -> Rand A) (l : list A) (n : nat) :
  (forall i x, l !! i = Some x -> f i x n = Ok (x, n)) -> imapR f l n = Ok (l, n).
Proof.
  revert f. induction l as [|x l IH]; intros f Hf; simpl; [done|].
  unfold mbind, Rand_bind. rewrite (Hf 0%nat x) by done.
  rewrite IH; [done|]. intros i y Hy. by apply (Hf (S i)).
Qed.

Lemma fillRemainingCells_run grid :
  shaped rows cols grid ->
  succeeds (fillRemainingCells Math_random grid rows cols)
           (Forall2 (Forall2 (fun v v' => (v <> null -> v' = v) /\ v' <> null)) grid).
Proof.
  intros Hshape. unfold fillRemainingCells.
  apply (succeeds_imapR (Forall2 (fun v v' => (v <> null -> v' = v) /\ v' <> null))).
  intros r gridRow Hrow.
  apply (succeeds_imapR (fun v v' => (v <> null -> v' = v) /\ v' <> null)).
  intros c v Hv. case_bool_decide as Hnull.
  { by apply succeeds_ret. }
  assert (v = null) as -> by (by destruct (decide (v = null))).
  destruct (findClosestColoredNeighbor_scan rows cols grid (Z.of_nat r) (Z.of_nat c) Hshape)
    as (closest & -> & _).
  apply (succeeds_bind _ _ (fun a => a = closest));
    [apply succeeds_lift; by exists closest|]. intros ? ->.
  destruct (truthy closest) eqn:Htruthy.
  - apply succeeds_ret. split; [done|]. by intros ->.
  - eapply succeeds_weaken; [apply succeeds_randomCyberpunkColor_any|]. by intros v' Hv'.
Qed.

End Fill.

(** On a grid of the stated shape [fillRemainingCells] never fails, whatever
    the random source: the result has the same shape and no [null] cell, and
    every cell that was filled is kept as it is; a grid without [null] cells
    is returned as it is, without a draw. *)
Theorem fillRemainingCells_fills (Math_random : nat -> float)
    (grid : list (list cell)) (rows cols : Z) (n : nat) :
  shaped rows cols grid ->
  exists grid' n',
    fillRemainingCells Math_random grid rows cols n = Ok (grid', n') /\
    shaped rows cols grid' /\
    keepsFilled grid grid' /\
    (forall p, cellOf grid' p <> Some null) /\
    (Forall (Forall (fun v => v <> null)) grid -> grid' = grid /\ n' = n).
Proof.
  intros Hshape.
  destruct (fillRemainingCells_run Math_random rows cols grid Hshape n)
    as (grid' & n' & Hrun & Hall).
  exists grid', n'. split; [done|].
  split; [by eapply shaped_Forall2_any|]. split; [|split].
  - intros p v Hv Hfilled.
    destruct (proj1 (cellOf_Forall2 _ _ _ Hall p) v Hv) as (v' & -> & Hkeep & _).
    f_equal. by apply Hkeep.
  - intros p Hp.
    by destruct (proj2 (cellOf_Forall2 _ _ _ Hall p) null Hp) as (v & _ & _ & ?).
  - intros Hfull.
    assert (fillRemainingCells Math_random grid rows cols n = Ok (grid, n)) as Hid.
    { unfold fillRemainingCells. apply imapR_id. intros r gridRow Hrow.
      apply imapR_id. intros c v Hv.
      rewrite bool_decide_eq_true_2; [done|].
      exact (Forall_lookup_1 _ _ _ _ (Forall_lookup_1 _ _ _ _ Hfull Hrow) Hv). }
    rewrite Hid in Hrun. by injection Hrun as <- <-.
Qed.

Lemma fillRemainingCells_fills_witness :
  let grid := [[null; hex "#FF006E"]; [null; null]] in
  exists grid' n',
    fillRemainingCells sampleRandom grid 2 2 0%nat = Ok (grid', n') /\
    shaped 2 2 grid' /\
    keepsFilled grid grid' /\
    (forall p, cellOf grid' p <> Some null) /\
    (Forall (Forall (fun v => v <> null)) grid -> grid' = grid /\ n' = 0%nat).
Proof.
  apply (fillRemainingCells_fills sampleRandom [[null; hex "#FF006E"]; [null; null]] 2 2 0%nat).
  split; [reflexivity|]. repeat constructor.
Defined.

(** ** The territory generator: one iteration of the growth *)

Section Growth.

Variables (Math_sin : float -> float) (Math_random : nat -> float) (rows cols : Z).

Implicit Types (grid G : list (list cell)) (v : cell) (p q : Position).

Lemma cellOf_write2 grid r c v grid' p :
  write2 grid r c v = Ok grid' ->
  cellOf grid' p = if decide (p = (r, c)) then Some v else cellOf grid p.
Proof.
  unfold write2. destruct (js_index grid r) as [gridRow|] eqn:Hrow; [|done].
  destruct (Z.leb_spec 0 c) as [Hc0|]; [|done].
  destruct (Z.ltb_spec c (len gridRow)) as [Hc|]; [|done]. simpl. intros [= <-].
  apply js_index_Some in Hrow as [Hr0 Hrow].
  destruct p as [r' c']. unfold cellOf, js_index. simpl.
  destruct (Z.ltb_spec r' 0) as [Hr'|Hr'].
  { rewrite decide_False; [done|]. intros [= -> ->]. lia. }
  destruct (decide (r' = r)) as [->|Hne].
  - rewrite list_lookup_insert_eq by (by eapply lookup_lt_Some). rewrite Hrow. simpl.
    destruct (Z.ltb_spec c' 0) as [Hc'|Hc'].
    { rewrite decide_False; [done|]. intros [= ->]. lia. }
    destruct (decide (c' = c)) as [->|Hne'].
    + rewrite decide_True by done.
      apply list_lookup_insert_eq. unfold len in Hc. lia.
    + rewrite decide_False by congruence.
      apply list_lookup_insert_ne. lia.
  - rewrite decide_False by congruence.
    rewrite list_lookup_insert_ne by lia. done.
Qed.

Lemma filterM_sublist {A} (f : A -> outcome bool) (l k : list A) :
  filterM f l = Ok k -> k `sublist_of` l.
Proof.
  revert k. induction l as [|x l IH]; intros k; simpl.
  { intros [= <-]. done. }
  destruct (f x) as [b|]; simpl; [|done].
  destruct (filterM f l) as [rest|]; simpl; [|done].
  intros [= <-]. destruct b; [apply sublist_skip|apply sublist_cons]; by apply IH.
Qed.

Lemma succeeds_filterR_sublist {A} (f : A -> Rand bool) (l : list A) :
  (forall x, x ∈ l -> succeeds (f x) (fun _ => True)) ->
  succeeds (filterR f l) (fun k => k `sublist_of` l).
Proof.
  induction l as [|x l IH]; intros Hf; simpl.
  - by apply succeeds_ret.
  - apply (succeeds_bind _ _ (fun _ => True)); [apply Hf, elem_of_cons; by left|].
    intros b _.
    apply (succeeds_bind _ _ (fun k => k `sublist_of` l)).
    + apply IH. intros x' Hx'. apply Hf, elem_of_cons. by right.
    + intros k Hk. apply succeeds_ret.
      destruct b; [by apply sublist_skip|by apply sublist_cons].
Qed.

Lemma Forall_sublist {A} (P : A -> Prop) (k l : list A) :
  k `sublist_of` l -> Forall P l -> Forall P k.
Proof.
  induction 1 as [|x k l _ IH|x k l _ IH]; [done|..].
  - intros [? ?]%Forall_cons. constructor; auto.
  - intros [? ?]%Forall_cons. auto.
Qed.

Lemma succeeds_random_any : succeeds (random Math_random) (fun _ => True).
Proof. intros n. by eexists _, _. Qed.

Lemma NoDup_sides r c : NoDup [ (r - 1, c); (r + 1, c); (r, c - 1); (r, c + 1) ].
Proof.
  repeat (apply NoDup_cons; split;
          [rewrite ?elem_of_cons, elem_of_nil; intros Hin;
           repeat (destruct Hin as [Hin|Hin]; [inversion Hin; lia|]); done|]).
  apply NoDup_nil_2.
Qed.

(** The unfilled neighbours of a cell: distinct cells of the grid that are
    [null]. *)
Lemma getUnfilledNeighbors_null grid r c :
  shaped rows cols grid ->
  okWith (getUnfilledNeighbors grid rows cols r c)
         (fun neighbors =>
            NoDup neighbors /\
            Forall (fun q => inBounds rows cols q /\ cellOf grid q = Some null) neighbors).
Proof.
  intros Hshape. unfold getUnfilledNeighbors.
  match goal with
  | |- okWith (filterM ?f ?l) _ =>
      destruct (okWith_filterM f
                  (fun q => inBounds rows cols q /\ cellOf grid q = Some null) l)
        as (neighbors & Hrun & Hall)
  end.
  - intros [nr nc] _.
    destruct ((0 <=? nr) && (nr <? rows) && (0 <=? nc) && (nc <? cols)) eqn:Hin;
      [|by exists false].
    apply inBounds_test in Hin.
    destruct (index2_shaped rows cols grid nr nc Hshape Hin) as (v & -> & Hv). simpl.
    eexists. split; [done|]. intros Hnull%bool_decide_eq_true_1. simpl in Hnull.
    by subst v.
  - exists neighbors. split; [done|]. split; [|done].
    eapply sublist_NoDup; [apply NoDup_sides|by eapply filterM_sublist].
Qed.

Lemma growFromCell_null grid cellStr seed organicness :
  shaped rows cols grid ->
  succeeds (growFromCell Math_sin Math_random grid cellStr rows cols seed organicness)
           (fun grown =>
              NoDup grown /\
              Forall (fun q => inBounds rows cols q /\ cellOf grid q = Some null) grown).
Proof.
  intros Hshape. unfold growFromCell. destruct cellStr as [r c].
  eapply succeeds_bind.
  { apply succeeds_lift, getUnfilledNeighbors_null, Hshape. }
  intros neighbors [Hnd Hnb]. eapply succeeds_weaken.
  - apply succeeds_filterR_sublist. intros [nr nc] _.
    eapply succeeds_bind; [apply succeeds_random_any|]. intros u _. by apply succeeds_ret.
  - intros grown Hsub. simpl in Hsub. split; [by apply (sublist_NoDup _ neighbors)|].
    by apply (Forall_sublist _ _ neighbors).
Qed.


Lemma okWith_weaken {A} (o : outcome A) (P Q : A -> Prop) :
  okWith o P -> (forall a, P a -> Q a) -> okWith o Q.
Proof. intros (a & -> & Ha) HPQ. exists a. auto. Qed.

Lemma keepsFilled_trans G1 G2 G3 :
  keepsFilled G1 G2 -> keepsFilled G2 G3 -> keepsFilled G1 G3.
Proof. intros H12 H23 p v Hv Hfilled. apply H23; [|done]. by apply H12. Qed.

(** The writes of the cells a frontier cell grew into. *)
Lemma write_batch G1 (colour : cell) (cs fr targets : list Position) :
  shaped rows cols G1 -> Forall (inBounds rows cols) targets -> NoDup (fr ++ targets) ->
  okWith (foldM (fun '(newGrid, newCells, newFrontier) '(nr, nc) =>
                   newGrid ← write2 newGrid nr nc colour;
                   Ok (newGrid, newCells ++ [ (nr, nc) ],
                       set_add (nr, nc) newFrontier))
                (G1, cs, fr) targets)
         (fun '(G2, cs', fr') =>
            shaped rows cols G2 /\
            (forall p, cellOf G2 p =
                       if decide (p ∈ targets) then Some colour else cellOf G1 p) /\
            cs' = cs ++ targets /\ fr' = fr ++ targets).
Proof.
  intros Hshape Hb Hnd.
  pose (I := fun (seen : list Position)
                 (st : list (list cell) * list Position * list Position) =>
              shaped rows cols st.1.1 /\
              (forall p, cellOf st.1.1 p =
                         if decide (p ∈ seen) then Some colour else cellOf G1 p) /\
              st.1.2 = cs ++ seen /\ st.2 = fr ++ seen).
  eapply okWith_weaken; [apply (okWith_foldM_prefix I)|by intros [[G2 cs'] fr']].
  { split; [done|]. split; [|by simpl; rewrite !app_nil_r].
    intros p. rewrite decide_False; [done|]. apply not_elem_of_nil. }
  intros seen [nr nc] rest [[G2 cs'] fr'] Htargets (Hs & Hcells & Hcs & Hfr).
  simpl in Hs, Hcells, Hcs, Hfr. subst cs' fr'.
  assert (inBounds rows cols (nr, nc)) as Hin.
  { rewrite Forall_forall in Hb. apply Hb. rewrite Htargets.
    apply elem_of_app. right. apply elem_of_cons. by left. }
  destruct (write2_ok rows cols G2 nr nc colour Hs Hin) as (G3 & Hrun & Hs' & _).
  rewrite Hrun. simpl. eexists. split; [done|]. split; [done|]. split; [|split]; simpl.
  - intros p. rewrite (cellOf_write2 _ _ _ _ _ p Hrun), Hcells.
    destruct (decide (p = (nr, nc))) as [->|Hne].
    + rewrite decide_True; [done|]. apply elem_of_app. right. by apply list_elem_of_singleton.
    + destruct (decide (p ∈ seen)) as [Hp|Hp].
      * rewrite decide_True; [done|]. apply elem_of_app. by left.
      * rewrite decide_False; [done|].
        intros [?|?%list_elem_of_singleton]%elem_of_app; done.
  - by rewrite app_assoc.
  - unfold set_add. rewrite decide_False; [by rewrite app_assoc|].
    rewrite Htargets, app_assoc in Hnd. apply NoDup_app in Hnd as (_ & Hdisj & _).
    intros Hx. apply (Hdisj _ Hx). apply elem_of_cons. by left.
Qed.

(** One territory of an iteration, started on the grid [G0]. *)
Lemma growTerritory_grows G0 activeCount territory seed organicness :
  shaped rows cols G0 -> color territory <> null ->
  succeeds (growTerritory Math_sin Math_random rows cols seed organicness
                          (G0, activeCount) territory)
           (fun '((G, activeCount'), territory') =>
              shaped rows cols G /\ keepsFilled G0 G /\
              grownFrom rows cols G0 G territory territory' /\
              (forall p, cellOf G p <> cellOf G0 p -> p ∈ frontier territory') /\
              activeCount' = if decide (frontier territory' = [])
                             then activeCount else S activeCount).
Proof.
  intros Hshape Hcolor. unfold growTerritory.
  eapply succeeds_bind.
  - apply (succeeds_foldM
             (fun '(G, cs, fr) =>
                shaped rows cols G /\ keepsFilled G0 G /\
                cs = cells territory ++ fr /\ NoDup fr /\
                Forall (fun q => inBounds rows cols q /\ cellOf G0 q = Some null /\
                                 cellOf G q = Some (color territory)) fr /\
                (forall p, cellOf G p <> cellOf G0 p -> p ∈ fr))).
    { split; [done|]. split; [by intros p v|]. split; [done|].
      split; [apply NoDup_nil_2|]. split; [done|]. by intros p. }
    intros [[G cs] fr] cellStr (Hs & Hkeep & -> & Hnd & Hfr & Hchanged) _.
    eapply succeeds_bind; [by apply growFromCell_null|].
    intros grown [Hgnd Hgrown]. apply succeeds_lift.
    assert (forall q, q ∈ grown -> q ∉ fr) as Hdisj.
    { intros q Hq Hq'. rewrite Forall_forall in Hgrown, Hfr.
      destruct (Hgrown q Hq) as [_ Hnull]. destruct (Hfr q Hq') as (_ & _ & Hc).
      congruence. }
    destruct (write_batch G (color territory) (cells territory ++ fr) fr grown)
      as ([[G2 cs'] fr'] & -> & Hs' & Hcells & -> & ->).
    { done. }
    { eapply Forall_impl; [exact Hgrown|]. by intros q [? _]. }
    { apply NoDup_app. split; [done|]. split; [|done]. intros q Hq Hq'. by apply (Hdisj q). }
    eexists. split; [done|]. split; [done|].
    rewrite Forall_forall in Hgrown.
    assert (keepsFilled G G2) as Hkeep'.
    { intros p v Hv Hfilled. rewrite Hcells, decide_False; [done|].
      intros Hp. destruct (Hgrown p Hp) as [_ Hnull]. congruence. }
    split; [by eapply keepsFilled_trans|]. split; [by rewrite app_assoc|].
    split; [apply NoDup_app; split; [done|]; split; [|done]; intros q Hq Hq';
            by apply (Hdisj q)|].
    split.
    + apply Forall_app. split.
      * eapply Forall_impl; [exact Hfr|]. intros q (Hb & Hnull & Hc).
        split; [done|]. split; [done|]. by apply Hkeep'.
      * apply Forall_forall. intros q Hq. destruct (Hgrown q Hq) as [Hb Hnull].
        split; [done|]. split; [|by rewrite Hcells, decide_True].
        destruct (decide (cellOf G q = cellOf G0 q)) as [<-|Hne]; [done|].
        destruct (Hdisj q Hq). by apply Hchanged.
    + intros p Hp. apply elem_of_app. rewrite Hcells in Hp.
      destruct (decide (p ∈ grown)); [by right|left]. by apply Hchanged.
  - intros [[G cs] fr] (Hs & Hkeep & -> & Hnd & Hfr & Hchanged).
    apply succeeds_ret. split; [done|]. split; [done|]. split; [done|].
    split; [done|]. simpl.
    destruct fr as [|q fr]; [by rewrite decide_True|].
    rewrite decide_False by done. done.
Qed.


Lemma succeeds_foldM_prefix {A B} (I : list B -> A -> Prop) (f : A -> B -> Rand A)
    (a : A) (l : list B) :
  I [] a ->
  (forall seen x rest a, l = seen ++ x :: rest -> I seen a ->
                         succeeds (f a x) (I (seen ++ [x]))) ->
  succeeds (foldM f a l) (I l).
Proof.
  intros Ha Hf.
  cut (forall seen rest a, l = seen ++ rest -> I seen a ->
                           succeeds (foldM f a rest) (I (seen ++ rest))).
  { intros Hgen. by apply (Hgen [] l). }
  intros seen rest. revert seen.
  induction rest as [|x rest IH]; intros seen a' Hl Ha'; simpl.
  - apply succeeds_ret. by rewrite app_nil_r.
  - apply (succeeds_bind _ _ (I (seen ++ [x]))); [by eapply Hf|].
    intros a'' Ha''.
    replace (seen ++ x :: rest) with ((seen ++ [x]) ++ rest) by (by rewrite <- app_assoc).
    apply IH; [by rewrite <- app_assoc|done].
Qed.

Lemma growTerritoriesIteration_run grid territories seed organicness :
  shaped rows cols grid ->
  Forall (fun territory => color territory <> null) territories ->
  succeeds (growTerritoriesIteration Math_sin Math_random grid territories
                                     rows cols seed organicness)
           (fun '(grid', territories', activeCount) =>
              shaped rows cols grid' /\ keepsFilled grid grid' /\
              Forall2 (grownFrom rows cols grid grid') territories territories' /\
              (forall p, cellOf grid' p <> cellOf grid p ->
                         exists territory', territory' ∈ territories' /\
                                            p ∈ frontier territory') /\
              activeCount
              = length (filter (fun territory' => frontier territory' <> [])
                               territories')).
Proof.
  intros Hshape Hcolors. unfold growTerritoriesIteration.
  rewrite spread_rows.
  pose (J := fun (seen : list Territory) (st : list (list cell) * nat * list Territory) =>
               shaped rows cols st.1.1 /\ keepsFilled grid st.1.1 /\
               Forall2 (grownFrom rows cols grid st.1.1) seen st.2 /\
               (forall p, cellOf st.1.1 p <> cellOf grid p ->
                          exists territory', territory' ∈ st.2 /\
                                             p ∈ frontier territory') /\
               st.1.2 = length (filter (fun territory' => frontier territory' <> []) st.2)).
  eapply succeeds_bind.
  - apply (succeeds_foldM_prefix J).
    { split; [done|]. split; [by intros p v|]. split; [constructor|]. by split. }
    intros seen T rest [[G ac] newTs] Hl (Hs & Hkeep & Hall & Hchanged & Hac).
    simpl in Hs, Hkeep, Hall, Hchanged, Hac.
    assert (Forall (fun territory => color territory <> null) seen /\ color T <> null)
      as [Hseen HT].
    { rewrite Hl in Hcolors. apply Forall_app in Hcolors as [? [? _]%Forall_cons]. done. }
    eapply succeeds_bind; [by apply (growTerritory_grows G ac T seed organicness)|].
    intros [[G2 ac'] T'] (Hs' & Hkeep' & Hgrown & Hchanged' & Hac').
    apply succeeds_ret. split; [done|]. simpl.
    split; [by eapply keepsFilled_trans|]. split; [|split].
    + apply Forall2_app.
      * clear Hl Hchanged Hac. induction Hall as [|T0 T0' seen' newTs' HT0 _ IH];
          [constructor|].
        apply Forall_cons in Hseen as [HT0c Hseen].
        constructor; [|by apply IH].
        destruct HT0 as (Hc0 & Hcells0 & Hnd0 & Hfr0).
        split; [done|]. split; [done|]. split; [done|].
        eapply Forall_impl; [exact Hfr0|]. intros q (Hb & Hnull & Hq).
        split; [done|]. split; [done|]. by apply Hkeep'.
      * constructor; [|constructor].
        destruct Hgrown as (Hc & Hcells & Hnd & Hfr).
        split; [done|]. split; [done|]. split; [done|].
        eapply Forall_impl; [exact Hfr|]. intros q (Hb & Hnull & Hq).
        split; [done|]. split; [|done].
        destruct (decide (cellOf G q = cellOf grid q)) as [<-|Hne]; [done|].
        destruct (Hchanged q Hne) as (T0' & HT0' & Hq0).
        apply list_elem_of_lookup in HT0' as [i Hi].
        destruct (Forall2_lookup_r _ _ _ _ _ Hall Hi) as (T0 & HT0 & _ & _ & _ & Hfr0).
        rewrite Forall_forall in Hfr0. destruct (Hfr0 q Hq0) as (_ & _ & Hq').
        rewrite Forall_lookup in Hseen. specialize (Hseen _ _ HT0). congruence.
    + intros p Hp.
      destruct (decide (cellOf G2 p = cellOf G p)) as [Heq|Hne].
      * rewrite Heq in Hp. destruct (Hchanged p Hp) as (T0' & HT0' & Hq0).
        exists T0'. split; [apply elem_of_app; by left|done].
      * exists T'. split; [apply elem_of_app; right; by apply list_elem_of_singleton|].
        by apply Hchanged'.
    + rewrite filter_app, length_app, <- Hac, Hac'. rewrite filter_cons, filter_nil.
      destruct (decide (frontier T' = [])) as [Hnil|Hnil].
      * rewrite decide_False by (by intros ?). simpl. lia.
      * rewrite decide_True by done. simpl. lia.
  - intros [[G ac] newTs] (Hs & Hkeep & Hall & Hchanged & Hac).
    by apply succeeds_ret.
Qed.

End Growth.

(** One iteration of the growth never fails on a grid of the stated shape,
    whatever the sine and the random source.  It keeps the shape and every
    filled cell; it returns the territories in their order, each with its
    colour, its cells followed by its new frontier, and in that frontier,
    once each, the cells it grew into, which were [null] and now hold its
    colour; no other cell has changed; and the active count is the number
    of territories with a new frontier that is not empty. *)
Theorem growTerritoriesIteration_grows (Math_sin : float -> float)
    (Math_random : nat -> float) (grid : list (list cell))
    (territories : list Territory) (rows cols : Z) (seed : float) (organicness : Z)
    (n : nat) :
  shaped rows cols grid ->
  Forall (fun territory => color territory <> null) territories ->
  exists grid' territories' activeCount n',
    growTerritoriesIteration Math_sin Math_random grid territories rows cols
                             seed organicness n
    = Ok ((grid', territories', activeCount), n') /\
    shaped rows cols grid' /\
    keepsFilled grid grid' /\
    Forall2 (grownFrom rows cols grid grid') territories territories' /\
    (forall p, cellOf grid' p <> cellOf grid p ->
               exists territory', territory' ∈ territories' /\ p ∈ frontier territory') /\
    activeCount = length (filter (fun territory' => frontier territory' <> [])
                                 territories').
Proof.
  intros Hshape Hcolors.
  destruct (growTerritoriesIteration_run Math_sin Math_random rows cols grid territories
              seed organicness Hshape Hcolors n)
    as ([[grid' territories'] activeCount] & n' & Hrun & Hgrown).
  by exists grid', territories', activeCount, n'.
Qed.

Lemma growTerritoriesIteration_grows_witness :
  let grid := [[hex "#FF006E"; null; null]; [null; null; hex "#3A86FF"]] in
  let territories :=
    [ {| color := hex "#FF006E"; cells := [(0, 0)]; frontier := [(0, 0)] |};
      {| color := hex "#3A86FF"; cells := [(1, 2)]; frontier := [(1, 2)] |} ] in
  exists grid' territories' activeCount n',
    growTerritoriesIteration sineTable sampleRandom grid territories 2 3 5000 100 0%nat
    = Ok ((grid', territories', activeCount), n') /\
    shaped 2 3 grid' /\
    keepsFilled grid grid' /\
    Forall2 (grownFrom 2 3 grid grid') territories territories' /\
    (forall p, cellOf grid' p <> cellOf grid p ->
               exists territory', territory' ∈ territories' /\ p ∈ frontier territory') /\
    activeCount = length (filter (fun territory' => frontier territory' <> [])
                                 territories').
Proof.
  apply (growTerritoriesIteration_grows sineTable sampleRandom
           [[hex "#FF006E"; null; null]; [null; null; hex "#3A86FF"]]
           [ {| color := hex "#FF006E"; cells := [(0, 0)]; frontier := [(0, 0)] |};
             {| color := hex "#3A86FF"; cells := [(1, 2)]; frontier := [(1, 2)] |} ]
           2 3 5000 100 0%nat).
  - split; [reflexivity|]. repeat constructor.
  - repeat constructor; discriminate.
Defined.

(** ** Numbers: the grid dimensions and the noise *)

Section Doubles.

Lemma is_nan_Prim2SF (x : float) :
  PrimFloat.is_nan x = true <-> Prim2SF x = S754_nan.
Proof.
  unfold PrimFloat.is_nan. rewrite FloatAxioms.eqb_spec. unfold SFeqb.
  pose proof (Prim2SF_valid x) as Hvalid.
  destruct (Prim2SF x) as [[]|[]| |[] m e]; simpl; try (split; done).
  - rewrite Z.compare_refl, Pos.compare_cont_refl. split; done.
  - rewrite Z.compare_refl, Pos.compare_cont_refl. split; done.
Qed.

Lemma ltb_leb (x y : float) : (x <? y)%float = true -> (x <=? y)%float = true.
Proof.
  rewrite ltb_spec, leb_spec. unfold SFltb, SFleb.
  by destruct (SFcompare _ _) as [[]|].
Qed.

Lemma Math_max_one (y : float) :
  (PrimFloat.is_nan (Math_max 1 y) = true \/ (1 <=? Math_max 1 y)%float = true) /\
  (PrimFloat.is_nan y = true -> PrimFloat.is_nan (Math_max 1 y) = true).
Proof.
  unfold Math_max. change (PrimFloat.is_nan 1) with false. simpl.
  destruct (PrimFloat.is_nan y) eqn:Hnan.
  { split; [by left|done]. }
  split; [|done]. right.
  destruct (1 <? y)%float eqn:Hlt; [by apply ltb_leb|done].
Qed.

Lemma Math_floor_nan (x : float) :
  PrimFloat.is_nan x = true -> Math_floor x = x.
Proof. rewrite is_nan_Prim2SF. unfold Math_floor. by intros ->. Qed.

End Doubles.

(** The dimensions are never below 1: each is a double not less than 1, or
    NaN; and it is NaN when the quotient is (0 / 0, for one). *)
Theorem calculateGridDimensions_min (availableWidth availableHeight cellSize : float) :
  let '(rows, cols) := calculateGridDimensions availableWidth availableHeight cellSize in
  (PrimFloat.is_nan rows = true \/ (1 <=? rows)%float = true) /\
  (PrimFloat.is_nan cols = true \/ (1 <=? cols)%float = true) /\
  (PrimFloat.is_nan (availableHeight / cellSize) = true -> PrimFloat.is_nan rows = true) /\
  (PrimFloat.is_nan (availableWidth / cellSize) = true -> PrimFloat.is_nan cols = true).
Proof.
  unfold calculateGridDimensions.
  split; [apply Math_max_one|]. split; [apply Math_max_one|]. split.
  - intros Hnan. rewrite Math_floor_nan by done. by apply Math_max_one.
  - intros Hnan. rewrite Math_floor_nan by done. by apply Math_max_one.
Qed.

Lemma calculateGridDimensions_min_witness :
  PrimFloat.is_nan (calculateGridDimensions 0 0 0).1 = true /\
  calculateGridDimensions 500 300 50 = (6, 10)%float /\
  calculateGridDimensions 5 5 100 = (1, 1)%float.
Proof.
  split; [|split; vm_compute; reflexivity].
  apply (calculateGridDimensions_min 0 0 0). reflexivity.
Defined.

Section Remainder.

(** A mantissa that already fits is not rounded, whatever the sign. *)
Lemma binary_round_aux_fits (s : bool) (m : positive) (E : Z) :
  fexp prec emax (Zdigits2 (Z.pos m) + E) <= E -> E <= emax - prec ->
  binary_round_aux prec emax s (Z.pos m) E loc_Exact = S754_finite s m E.
Proof.
  intros Hfexp HE. unfold binary_round_aux, shr_fexp. cbn [shr_record_of_loc].
  assert (forall k, k <= 0 -> forall q e, shr q e k = (q, e)) as Hshr
    by (intros [] ???; [done|lia|done]).
  rewrite Hshr by lia. cbn [shr_m loc_of_shr_record round_nearest_even].
  rewrite Hshr by lia. cbn [shr_m].
  by rewrite (proj2 (Z.leb_le _ _) HE).
Qed.

(** A number [p * 2^e] of 53 bits at most is a double: its rounding is
    exact and below [2^(digits + e)]. *)
Lemma binary_round_fits (s : bool) (p : positive) (e : Z) :
  Z.pos (digits2_pos p) <= 53 -> -1074 <= e -> Z.pos (digits2_pos p) + e <= 1024 ->
  exists mz ez,
    binary_round prec emax s p e = S754_finite s mz ez /\
    valid_binary (S754_finite s mz ez) = true /\
    ez = Z.max (Z.pos (digits2_pos p) + e - 53) (-1074).
Proof.
  intros Hd He Htop. unfold binary_round.
  set (d := Z.pos (digits2_pos p)) in *.
  assert (fexp prec emax (d + e) = Z.max (d + e - 53) (-1074)) as Hfexp by done.
  rewrite Hfexp. set (ez := Z.max (d + e - 53) (-1074)).
  destruct (shl_align_spec p e ez) as (mz & -> & Hmz & Hdz); [lia|].
  fold d in Hdz.
  assert (fexp prec emax (Zdigits2 (Z.pos mz) + ez) = ez) as Hcanon.
  { cbn [Zdigits2]. rewrite Hdz. replace (d + (e - ez) + ez) with (d + e) by lia.
    exact Hfexp. }
  rewrite binary_round_aux_fits by (rewrite ?Hcanon; unfold prec, emax; lia).
  exists mz, ez. split; [done|]. split; [|done].
  cbn [valid_binary]. unfold bounded, canonical_mantissa.
  cbn [Zdigits2] in Hcanon. rewrite Hcanon, Z.eqb_refl.
  apply Z.leb_le. unfold prec, emax. lia.
Qed.

(** The remainder of a division by 1 is NaN, for NaN and the infinities, or
    a double of magnitude below 1. *)
Lemma rem_one (x : float) :
  PrimFloat.is_nan (rem x 1) = true \/ (PrimFloat.abs (rem x 1) <? 1)%float = true.
Proof.
  unfold rem. change (Prim2SF 1) with (S754_finite false 4503599627370496 (-52)).
  pose proof (Prim2SF_valid x) as Hvalid.
  destruct (Prim2SF x) as [sx|sx| |sx mx ex] eqn:Hx.
  - right. rewrite ltb_spec, abs_spec, Hx. done.
  - by left.
  - by left.
  - right. rewrite ltb_spec, abs_spec.
    change (Prim2SF 1) with (S754_finite false 4503599627370496 (-52)).
    cbn [valid_binary] in Hvalid. unfold bounded, canonical_mantissa in Hvalid.
    apply andb_prop in Hvalid as [Hcanon _]. apply Z.eqb_eq in Hcanon.
    unfold fexp, emin, prec, emax in Hcanon.
    pose proof (Zdigits2_bounds mx) as Hdx.
    set (dx := Z.pos (digits2_pos mx)) in *.
    assert (dx <= 53 /\ -1074 <= ex) as [Hdx53 Hex] by lia.
    set (e := Z.min ex (-52)).
    set (r := Z.rem (Z.pos mx * 2 ^ (ex - e)) (4503599627370496 * 2 ^ (-52 - e))).
    assert (0 < 2 ^ (ex - e)) by (apply Z.pow_pos_nonneg; lia).
    assert (0 < 2 ^ (-52 - e)) by (apply Z.pow_pos_nonneg; lia).
    assert (0 <= r < 4503599627370496 * 2 ^ (-52 - e)) as Hr
      by (apply Z.rem_bound_pos; lia).
    assert (r <= Z.pos mx * 2 ^ (ex - e)) as Hrx.
    { unfold r. rewrite Z.rem_mod by lia.
      rewrite !Z.abs_eq by lia. rewrite Z.sgn_pos by lia.
      pose proof (Z.mod_le (Z.pos mx * 2 ^ (ex - e)) (4503599627370496 * 2 ^ (-52 - e))).
      lia. }
    assert (4503599627370496 * 2 ^ (-52 - e) = 2 ^ (- e)) as Hone.
    { change 4503599627370496 with (2 ^ 52). rewrite <- Z.pow_add_r by lia.
      f_equal. lia. }
    rewrite Hone in Hr.
    destruct r as [|p|p] eqn:Hp; [by destruct sx| |lia].
    assert (Z.pos (digits2_pos p) <= 53 /\ Z.pos (digits2_pos p) + e <= 0) as [Hd Hde].
    { pose proof (Zdigits2_bounds p) as Hdp.
      assert (Z.pos (digits2_pos p) <= - e) as Hle by (apply digits_le; lia).
      split; [|lia].
      destruct (Z.le_gt_cases (-52) ex) as [Hcase|Hcase].
      - assert (e = -52) as He by lia. lia.
      - assert (e = ex) as He by lia. rewrite He, Z.sub_diag, Z.mul_1_r in Hrx.
        apply digits_le. apply Z.le_lt_trans with (Z.pos mx); [done|].
        apply Z.lt_le_trans with (2 ^ dx); [lia|]. apply Z.pow_le_mono_r; lia. }
    assert (-1074 <= e) as He by lia.
    assert (SFabs (Prim2SF (SF2Prim (binary_normalize prec emax (cond_Zopp sx (Z.pos p)) e sx)))
            = SFabs (Prim2SF (SF2Prim (binary_round prec emax sx p e)))) as ->.
    { by destruct sx. }
    destruct (binary_round_fits sx p e Hd He ltac:(lia)) as (mz & ez & -> & Hvalid' & Hez).
    rewrite Prim2SF_SF2Prim by done. cbn [SFabs]. unfold SFltb, SFcompare.
    assert (ez < -52) as Hlt by lia.
    by rewrite (proj2 (Z.compare_lt_iff ez (-52)) Hlt).
Qed.

End Remainder.

(** The noise is the remainder of a division by 1: whatever [Math.sin]
    returns, [perlinNoise] gives NaN or a double of magnitude below 1, and
    the noise that enters the growth probability is NaN or a double not
    less than 0 and below 1. *)
Theorem perlinNoise_range (Math_sin : float -> float) (x y scale : float) :
  let noise := perlinNoise Math_sin x y scale in
  (PrimFloat.is_nan noise = true \/ (PrimFloat.abs noise <? 1)%float = true) /\
  (PrimFloat.is_nan (Math_abs noise) = true \/
   ((0 <=? Math_abs noise)%float = true /\ (Math_abs noise <? 1)%float = true)).
Proof.
  simpl. unfold perlinNoise. cbv zeta.
  match goal with |- context [rem ?a 1] => generalize a end. intros a.
  destruct (rem_one a) as [Hnan|Hlt]; [split; left|split; right]; try done.
  - apply is_nan_Prim2SF. unfold Math_abs. rewrite abs_spec.
    apply is_nan_Prim2SF in Hnan. by rewrite Hnan.
  - split; [|done]. unfold Math_abs. rewrite leb_spec, abs_spec.
    change (Prim2SF 0) with (S754_zero false).
    rewrite ltb_spec, abs_spec in Hlt.
    by destruct (Prim2SF (rem a 1)) as [[]|[]| |[] m e].
Qed.

(** ** The territory generator: the whole pipeline, and the grid queries *)

Section Pipeline.

Variables (Math_sin : float -> float) (Math_random : nat -> float) (rows cols : Z).

Implicit Types (grid G : list (list cell)) (v : cell) (p q : Position).



End Pipeline.



(** The queries of the grid model agree: a position is valid when its row
    and column are below the dimensions [getGridDimensions] gives; the empty
    grid has the dimensions 0 and 0 and no valid position; a clone has the
    content of the grid; and in a rectangular grid the valid positions are
    the positions where [getCellColor] reads a colour. *)
Theorem grid_queries_agree (g : Grid) (row col : Z) :
  (isValidPosition g row col = true <->
   (0 <= row < (getGridDimensions g).1) /\ (0 <= col < (getGridDimensions g).2)) /\
  getGridDimensions [] = (0, 0) /\
  isValidPosition [] row col = false /\
  cloneGrid g = g /\
  (rectangular g ->
   (isValidPosition g row col = true <-> exists x, getCellColor g row col = Ok (Some x))).
Proof.
  split; [apply isValidPosition_true|]. split; [done|]. split; [done|].
  split; [apply cloneGrid_id|].
  intros Hrect. rewrite getCellColor_cellAt. split.
  - intros Hvalid. rewrite Hvalid.
    apply (cellAt_is_Some _ _ _ Hrect) in Hvalid as [x ->]. by exists x.
  - intros [x Hx]. by destruct (isValidPosition g row col).
Qed.

Lemma grid_queries_agree_witness :
  isValidPosition [["a"; "b"]; ["c"; "d"]] 1 1 = true <->
  exists x, getCellColor [["a"; "b"]; ["c"; "d"]] 1 1 = Ok (Some x).
Proof.
  apply (grid_queries_agree [["a"; "b"]; ["c"; "d"]] 1 1).
  unfold rectangular. repeat constructor.
Defined.

(** ** Numbers: the dimensions of whole numbers of pixels *)

Section Quotient.

(** The quotient [q] of [w * P] by [s], for a power [P] above [s]: its
    floor after the division by [P] is the floor of [w / s], and so is that
    of [q + 1]. *)
Lemma quotient_floor (w s P q rho : Z) :
  0 <= rho < s -> s < P -> w * P = q * s + rho ->
  q / P = w / s /\ (q + 1) / P = w / s.
Proof.
  intros Hrho HP Heq.
  assert (q = w * P / s) as Hq by (apply (Z.div_unique _ _ q rho); lia).
  assert (q / P = w / s) as Hfloor.
  { rewrite Hq, Z.div_div, Z.div_mul_cancel_r by lia. done. }
  split; [done|]. rewrite <- Hfloor.
  pose proof (Z.div_mod q P ltac:(lia)) as Hdiv.
  pose proof (Z.mod_pos_bound q P ltac:(lia)) as Hmod.
  assert (q mod P <> P - 1) as Hne.
  { intros Hlast.
    assert (P * (w - (q / P + 1) * s) = rho - s) as Hmul by nia.
    assert (w - (q / P + 1) * s < 0) by nia.
    assert (-1 < w - (q / P + 1) * s) by nia. lia. }
  symmetry. apply (Z.div_unique (q + 1) P (q / P) (q mod P + 1)); lia.
Qed.

Lemma digits_53 (m : positive) :
  2 ^ 52 <= Z.pos m < 2 ^ 53 -> Z.pos (digits2_pos m) = 53.
Proof.
  intros [Hlo Hhi]. pose proof (digits_le m 53 Hhi) as Hle.
  destruct (Zdigits2_bounds m) as [_ Hup].
  assert (52 < Z.pos (digits2_pos m)); [|lia].
  apply (Z.pow_lt_mono_r_iff 2); lia.
Qed.


Lemma shr_record_of_loc_m (m : Z) (l : location) :
  shr_m (shr_record_of_loc m l) = m.
Proof. by destruct l as [|[]]. Qed.

Lemma digits_54 (m : positive) :
  2 ^ 53 <= Z.pos m < 2 ^ 54 -> Z.pos (digits2_pos m) = 54.
Proof.
  intros [Hlo Hhi]. pose proof (digits_le m 54 Hhi) as Hle.
  destruct (Zdigits2_bounds m) as [_ Hup].
  assert (53 < Z.pos (digits2_pos m)); [|lia].
  apply (Z.pow_lt_mono_r_iff 2); lia.
Qed.

(** The shift that brings a quotient of 53 or 54 bits to 53 bits. *)
Lemma shr_quotient (pq : positive) (e : Z) (l : location) :
  2 ^ 52 <= Z.pos pq < 2 ^ 54 -> -1000 <= e ->
  exists q1 k,
    shr (shr_record_of_loc (Z.pos pq) l) e
        (fexp prec emax (Zdigits2 (Z.pos pq) + e) - e) = (q1, e + k) /\
    ((k = 0 /\ Z.pos pq < 2 ^ 53 /\ shr_m q1 = Z.pos pq) \/
     (k = 1 /\ 2 ^ 53 <= Z.pos pq /\ shr_m q1 = Z.pos pq / 2 /\
      shr_r q1 = Z.odd (Z.pos pq))).
Proof.
  intros Hq He. cbn [Zdigits2].
  destruct (Z.lt_ge_cases (Z.pos pq) (2 ^ 53)) as [Hlt|Hge].
  - rewrite digits_53 by lia.
    assert (fexp prec emax (53 + e) - e = 0) as -> by (unfold fexp, emin, prec, emax; lia).
    eexists _, 0. split; [by rewrite Z.add_0_r|]. left.
    by rewrite shr_record_of_loc_m.
  - rewrite digits_54 by lia.
    assert (fexp prec emax (54 + e) - e = 1) as -> by (unfold fexp, emin, prec, emax; lia).
    eexists _, 1. split; [done|]. right. split; [done|]. split; [done|].
    cbn [SpecFloat.iter_pos]. destruct l as [|[]]; cbn [shr_record_of_loc];
      by rewrite shr_1_nonneg.
Qed.

(** The double nearest to the quotient of two doubles that hold the
    positive integers [w] and [s]: its floor is the floor of [w / s]. *)
Lemma div_floor (w s : Z) (mw ms : positive) (ew es : Z) :
  Z.pos mw = w * 2 ^ (- ew) -> Z.pos ms = s * 2 ^ (- es) ->
  -52 <= ew <= 0 -> -52 <= es <= 0 ->
  2 ^ 52 <= Z.pos mw < 2 ^ 53 -> 2 ^ 52 <= Z.pos ms < 2 ^ 53 ->
  exists m2 e2,
    SFdiv prec emax (S754_finite false mw ew) (S754_finite false ms es)
    = S754_finite false m2 e2 /\
    (if 0 <=? e2 then Z.pos m2 * 2 ^ e2 else Z.pos m2 / 2 ^ (- e2)) = w / s.
Proof.
  intros Hmw Hms Hew Hes Hmw52 Hms52.
  assert (0 < 2 ^ (- ew)) as Hpw by (apply Z.pow_pos_nonneg; lia).
  assert (0 < 2 ^ (- es)) as Hps by (apply Z.pow_pos_nonneg; lia).
  assert (0 < w /\ 0 < s) as [Hw Hs] by nia.
  unfold SFdiv, SFdiv_core_binary. cbn [Zdigits2 xorb].
  rewrite !digits_53 by done.
  set (e' := ew - es - 53).
  assert (Z.min (fexp prec emax (53 + ew - (53 + es))) (ew - es) = e') as ->
    by (unfold fexp, emin, prec, emax, e'; lia).
  replace (ew - es - e') with 53 by (unfold e'; lia).
  rewrite Z.shiftl_mul_pow2 by lia.
  pose proof (Z_div_mod (Z.pos mw * 2 ^ 53) (Z.pos ms) ltac:(lia)) as Hdiv.
  destruct (Z.div_eucl (Z.pos mw * 2 ^ 53) (Z.pos ms)) as [q r].
  destruct Hdiv as [Hdiv Hr].
  set (P := 2 ^ (- e')).
  assert (0 < P) as HP by (apply Z.pow_pos_nonneg; unfold e'; lia).
  assert (P * 2 ^ (- es) = 2 ^ 53 * 2 ^ (- ew)) as HPeq.
  { unfold P, e'. rewrite <- !Z.pow_add_r by lia. f_equal. lia. }
  assert (1 <= 2 ^ (- ew)) as Hpw1 by lia.
  assert (s < P) as HsP by nia.
  set (rho := w * P - q * s).
  assert (r = 2 ^ (- es) * rho) as Hrho by (unfold rho; nia).
  assert (0 <= rho < s) as Hrho_range by nia.
  destruct (quotient_floor w s P q rho Hrho_range HsP ltac:(unfold rho; lia))
    as [Hq0 Hq1].
  assert (2 ^ 52 <= q < 2 ^ 54) as Hq by nia.
  destruct q as [|pq|pq]; [lia| |lia].
  assert (e' <= -1) as He' by (unfold e'; lia).
  unfold binary_round_aux, shr_fexp.
  destruct (shr_quotient pq e' (new_location (Z.pos ms) r) Hq ltac:(unfold e'; lia))
    as (q1 & k & -> & Hk).
  pose proof (round_nearest_even_bound q1) as Hm1.
  set (m1 := round_nearest_even (shr_m q1) (loc_of_shr_record q1)) in *.
  assert (2 ^ 52 <= m1 <= 2 ^ 53 /\ 0 <= k <= 1 /\ m1 / 2 ^ (- (e' + k)) = w / s)
    as (Hm1r & Hkr & Hfloor).
  { destruct Hk as [(-> & Hlt & Hq1m)|(-> & Hge & Hq1m & Hq1r)].
    - rewrite Hq1m in Hm1. split; [destruct (shr_r q1); lia|]. split; [lia|].
      rewrite Z.add_0_r. fold P.
      destruct (shr_r q1); [|by replace m1 with (Z.pos pq) by lia].
      assert (m1 = Z.pos pq \/ m1 = Z.pos pq + 1) as [-> | ->] by lia; done.
    - rewrite Hq1m, Hq1r in Hm1.
      pose proof (Z.div_mod (Z.pos pq) 2 ltac:(lia)) as Hhalf.
      pose proof (Z.mod_pos_bound (Z.pos pq) 2 ltac:(lia)) as Hbit.
      split; [destruct (Z.odd (Z.pos pq)); lia|]. split; [lia|].
      assert (P = 2 * 2 ^ (- (e' + 1))) as HPD.
      { unfold P. rewrite <- Z.pow_succ_r by lia. f_equal. lia. }
      assert (0 < 2 ^ (- (e' + 1))) by (apply Z.pow_pos_nonneg; lia).
      destruct (Z.odd (Z.pos pq)) eqn:Hodd.
      + assert (m1 = Z.pos pq / 2 \/ m1 = Z.pos pq / 2 + 1) as [-> | ->] by lia.
        * by rewrite Z.div_div, <- HPD by lia.
        * apply Z.odd_spec in Hodd as [j Hj].
          assert (Z.pos pq / 2 + 1 = (Z.pos pq + 1) / 2) as ->.
          { rewrite Hj. replace (2 * j + 1 + 1) with ((j + 1) * 2) by lia.
            rewrite Z.div_mul by lia.
            replace (2 * j + 1) with (1 + j * 2) by lia.
            rewrite Z.div_add by lia. done. }
          by rewrite Z.div_div, <- HPD by lia.
      + replace m1 with (Z.pos pq / 2) by lia.
        by rewrite Z.div_div, <- HPD by lia. }
  clearbody m1. clear Hm1 Hk.
  set (e1 := e' + k) in *.
  cbn [shr_record_of_loc].
  destruct (shr_spec m1 e1 (fexp prec emax (Zdigits2 m1 + e1) - e1) ltac:(lia))
    as (q2 & -> & Hq2 & _).
  destruct m1 as [|pm1|pm1]; [lia| |lia]. cbn [Zdigits2] in *.
  destruct (Z.lt_ge_cases (Z.pos pm1) (2 ^ 53)) as [Hlt|Hge].
  - rewrite digits_53 in * by lia.
    assert (fexp prec emax (53 + e1) - e1 = 0) as Hk2
      by (unfold fexp, emin, prec, emax, e1, e'; lia).
    rewrite Hk2 in *. rewrite Z.div_1_r in Hq2. rewrite Hq2, Z.add_0_r.
    rewrite (proj2 (Z.leb_le e1 (emax - prec))) by (unfold emax, prec, e1; lia).
    exists pm1, e1. split; [done|].
    destruct (Z.leb_spec 0 e1) as [He1|He1]; [|done].
    assert (e1 = 0) as He10 by (unfold e1 in *; lia).
    rewrite He10 in *. by rewrite Z.div_1_r in Hfloor; rewrite Z.mul_1_r.
  - assert (Z.pos pm1 = 2 ^ 53) as Hpm1 by lia.
    rewrite digits_54 in * by lia.
    assert (fexp prec emax (54 + e1) - e1 = 1) as Hk2
      by (unfold fexp, emin, prec, emax, e1, e'; lia).
    rewrite Hk2 in *. rewrite Hpm1 in Hq2, Hfloor.
    change (2 ^ 53 / 2 ^ Z.max 0 1) with (Z.pos 4503599627370496) in Hq2.
    rewrite Hq2. change (Z.max 0 1) with 1.
    rewrite (proj2 (Z.leb_le (e1 + 1) (emax - prec))) by (unfold emax, prec, e1; lia).
    exists 4503599627370496%positive, (e1 + 1). split; [done|].
    rewrite <- Hfloor.
    assert ((e1 <> 0 /\ 2 ^ (- e1) = 2 ^ 1 * 2 ^ (- (e1 + 1))) \/ e1 = 0)
      as [[Hne Hsplit]|He10].
    { destruct (decide (e1 = 0)); [by right|left]. split; [done|].
      rewrite <- Z.pow_add_r by (unfold e1 in *; lia). f_equal. lia. }
    + assert (0 < 2 ^ (- (e1 + 1))) by (apply Z.pow_pos_nonneg; unfold e1 in *; lia).
      rewrite Hsplit. change (2 ^ 53) with (2 ^ 1 * 4503599627370496).
      rewrite Z.div_mul_cancel_l by lia.
      destruct (Z.leb_spec 0 (e1 + 1)) as [He1|He1]; [|done].
      assert (e1 + 1 = 0) as -> by (unfold e1 in *; lia). done.
    + rewrite He10. done.
Qed.

(** [Math.floor] of the quotient of two integers held by doubles is their
    integer quotient. *)
Lemma Math_floor_div (w s : Z) :
  0 < w < 2 ^ 53 -> 0 < s < 2 ^ 53 ->
  Math_floor (Number_of_Z w / Number_of_Z s) = Number_of_Z (w / s).
Proof.
  intros Hw Hs.
  destruct (Number_of_Z_finite w Hw) as (mw & ew & HPw & Hmw & Hew & Hmw52).
  destruct (Number_of_Z_finite s Hs) as (ms & es & HPs & Hms & Hes & Hms52).
  destruct (div_floor w s mw ms ew es) as (m2 & e2 & Hdiv & Hfloor); try done.
  unfold Math_floor, floor_Z. rewrite div_spec, HPw, HPs.
  unfold SF64div. by rewrite Hdiv, Hfloor.
Qed.

(** The larger of 1 and a natural number held by a double. *)
Lemma Math_max_one_integer (q : Z) :
  0 <= q < 2 ^ 53 -> Math_max 1 (Number_of_Z q) = Number_of_Z (Z.max 1 q).
Proof.
  intros Hq.
  destruct (decide (q = 0)) as [->|Hq0]; [reflexivity|].
  destruct (decide (q = 1)) as [->|Hq1]; [reflexivity|].
  rewrite Z.max_r by lia.
  destruct (Number_of_Z_finite q ltac:(lia)) as (mq & eq & HPq & Hmq & Heq & Hmq52).
  unfold Math_max. change (PrimFloat.is_nan 1) with false.
  assert (PrimFloat.is_nan (Number_of_Z q) = false) as ->.
  { destruct (PrimFloat.is_nan _) eqn:Hnan; [|done].
    apply is_nan_Prim2SF in Hnan. congruence. }
  cbn [orb]. rewrite ltb_spec, HPq.
  assert (-52 < eq) as Hlt.
  { destruct (decide (eq = -52)) as [->|]; [|lia].
    change (- -52) with 52 in Hmq. lia. }
  change (Prim2SF 1) with (S754_finite false 4503599627370496 (-52)).
  unfold SFltb, SFcompare.
  by rewrite (proj2 (Z.compare_lt_iff (-52) eq)) by lia.
Qed.

End Quotient.

(** On whole numbers of pixels the dimensions are the integer quotients by
    the cell size, and 1 when the space is smaller than a cell: the division
    of the doubles loses nothing that the floor keeps. *)
Theorem calculateGridDimensions_integers (availableWidth availableHeight cellSize : Z) :
  0 < availableWidth < 2 ^ 53 -> 0 < availableHeight < 2 ^ 53 ->
  0 < cellSize < 2 ^ 53 ->
  calculateGridDimensions (Number_of_Z availableWidth) (Number_of_Z availableHeight)
                          (Number_of_Z cellSize) =
    (Number_of_Z (Z.max 1 (availableHeight / cellSize)),
     Number_of_Z (Z.max 1 (availableWidth / cellSize))).
Proof.
  intros Hw Hh Hs. unfold calculateGridDimensions.
  rewrite !Math_floor_div by done.
  assert (forall n, 0 < n < 2 ^ 53 -> 0 <= n / cellSize < 2 ^ 53) as Hquot.
  { intros n Hn. split; [apply Z.div_pos; lia|].
    apply Z.div_lt_upper_bound; nia. }
  by rewrite !Math_max_one_integer by auto.
Qed.

Lemma calculateGridDimensions_integers_witness :
  calculateGridDimensions 1898 1058 15 = (70, 126)%float.
Proof.
  apply (calculateGridDimensions_integers 1898 1058 15); lia.
Defined.
